(** * commandline-parser.py: a shallow embedding and its properties

    The program is one Python module: a [Command] class whose instances form
    a schema tree (positionals, switches, subcommands), a recursive-descent
    parser over [sys.argv], a usage renderer and five error classes.

    Python objects that are mutated and shared ([Command] instances) live in
    a heap indexed by references; the interpreter state ([sys.argv], the
    heap, what was printed, which user callables were invoked) is threaded
    through a state-and-exception monad.  Dictionaries keep Python's
    insertion order and are association lists.  The dictionaries that
    [_parse] builds are fresh and local to it, and are plain values.

    Methods that call methods of other [Command]s take fuel, one unit per
    nested activation; their bodies are written once, over the method they
    call, and tied by a fixpoint on the fuel.

    A callable value-parser is a function from its three arguments to a
    value or an exception: it returns, and it has no access to the heap. *)

From Stdlib Require Import ZArith Ascii String List Bool Lia.
From stdpp Require Import base option list gmap strings.

Local Open Scope Z_scope.
Local Open Scope nat_scope.

(** ** Python built-ins used by the module

    Text is modelled as [string] (a sequence of 8-bit characters); the
    built-ins below follow CPython on ASCII text. *)
Module Py.

Definition startswith (s p : string) : bool := String.prefix p s.

(** [s.partition(sep)] for a one-character separator: the part before
    the first occurrence, the separator (empty when absent), the rest. *)
Fixpoint partition (sep : ascii) (s : string) : string * string * string :=
  match s with
  | EmptyString => (EmptyString, EmptyString, EmptyString)
  | String c s' =>
      if Ascii.eqb c sep then (EmptyString, String sep EmptyString, s')
      else let '(a, e, b) := partition sep s' in (String c a, e, b)
  end.

Definition lower_char (c : ascii) : ascii :=
  let n := nat_of_ascii c in
  if (65 <=? n) && (n <=? 90) then ascii_of_nat (n + 32) else c.

Fixpoint lower (s : string) : string :=
  match s with
  | EmptyString => EmptyString
  | String c s' => String (lower_char c) (lower s')
  end.

(** [sep.join(l)] *)
Fixpoint join (sep : string) (l : list string) : string :=
  match l with
  | [] => EmptyString
  | [x] => x
  | x :: l' => x +:+ sep +:+ join sep l'
  end.

(** [" " * n] *)
Fixpoint spaces (n : nat) : string :=
  match n with
  | O => EmptyString
  | S n' => String " "%char (spaces n')
  end.

(** [x in l] on a list of strings *)
Definition contains (x : string) (l : list string) : bool :=
  existsb (String.eqb x) l.

(** [enumerate(l)], as the list of pairs the iterator will yield *)
Definition enumerate {A} (l : list A) : list (nat * A) :=
  combine (seq 0 (length l)) l.

(** [sorted(l, key=len)]: a stable sort by length ([x] comes from
    before every element of [l], so it goes in front of its equals) *)
Fixpoint insert_by_len (x : string) (l : list string) : list string :=
  match l with
  | [] => [x]
  | y :: l' =>
      if String.length x <=? String.length y then x :: l
      else y :: insert_by_len x l'
  end.

Definition sorted_by_len (l : list string) : list string :=
  fold_right insert_by_len [] l.

(** Whitespace skipped by [int] and [float] around a numeral. *)
Definition is_space (c : ascii) : bool :=
  let n := nat_of_ascii c in
  ((9 <=? n) && (n <=? 13)) || (n =? 32).

Fixpoint lstrip (s : string) : string :=
  match s with
  | String c s' => if is_space c then lstrip s' else s
  | EmptyString => EmptyString
  end.

Definition strip (s : string) : string :=
  String.rev (lstrip (String.rev (lstrip s))).

Definition digit_val (c : ascii) : option Z :=
  let n := nat_of_ascii c in
  if (48 <=? n) && (n <=? 57) then Some (Z.of_nat (n - 48)) else None.

Definition is_digit (c : ascii) : bool :=
  match digit_val c with Some _ => true | None => false end.

(** A run of decimal digits in which single underscores may separate
    digits: accumulated value, number of digits read, unread rest. *)
Fixpoint digitpart (s : string) (acc : Z) (cnt : nat) : Z * nat * string :=
  match s with
  | EmptyString => (acc, cnt, s)
  | String c s' =>
      match digit_val c with
      | Some d => digitpart s' (10 * acc + d)%Z (S cnt)
      | None =>
          if Ascii.eqb c "_" && (0 <? cnt) then
            match s' with
            | String c' _ =>
                if is_digit c' then digitpart s' acc cnt
                else (acc, cnt, s)
            | EmptyString => (acc, cnt, s)
            end
          else (acc, cnt, s)
      end
  end.

(** An optional sign: whether it is a minus, and the rest. *)
Definition sign (s : string) : bool * string :=
  match s with
  | String "-" s' => (true, s')
  | String "+" s' => (false, s')
  | _ => (false, s)
  end.

(** [int(s)] in base 10; [None] stands for [ValueError]. *)
Definition int (s : string) : option Z :=
  let '(neg, t) := sign (strip s) in
  let '(v, n, rest) := digitpart t 0%Z 0 in
  if (0 <? n) && String.eqb rest EmptyString
  then Some (if neg then (- v)%Z else v)
  else None.

(** The value [float(s)] denotes, before Python rounds it to a binary64:
    [(-1)^neg * mantissa * 10^exp10], an infinity or a NaN. *)
Inductive pyfloat : Type :=
| FNan
| FInf (neg : bool)
| FDec (neg : bool) (mantissa : Z) (exp10 : Z).

Definition exponent (s : string) : option (Z * string) :=
  match s with
  | String c s' =>
      if Ascii.eqb (lower_char c) "e" then
        let '(neg, t) := sign s' in
        let '(v, n, rest) := digitpart t 0%Z 0 in
        if 0 <? n then Some (if neg then (- v)%Z else v, rest) else None
      else Some (0%Z, s)
  | EmptyString => Some (0%Z, s)
  end.

(** [float(s)]; [None] stands for [ValueError]. *)
Definition float (s : string) : option pyfloat :=
  let '(neg, t) := sign (strip s) in
  let name := lower t in
  if String.eqb name "inf" || String.eqb name "infinity" then Some (FInf neg)
  else if String.eqb name "nan" then Some FNan
  else
    let '(ip, n1, r1) := digitpart t 0%Z 0 in
    let '(m, n2, r2) :=
      match r1 with
      | String "." r => digitpart r ip 0
      | _ => (ip, 0, r1)
      end in
    if 0 <? n1 + n2 then
      match exponent r2 with
      | Some (e, rest) =>
          if String.eqb rest EmptyString
          then Some (FDec neg m (e - Z.of_nat n2)%Z)
          else None
      | None => None
      end
    else None.

End Py.

(** ** Dictionaries

    A Python [dict] keeps its keys in insertion order; assigning to a key
    that is present keeps the key's position. *)
Module Dict.
Section dict.
Context {V : Type}.

Fixpoint get (k : string) (d : list (string * V)) : option V :=
  match d with
  | [] => None
  | (k', v) :: d' => if String.eqb k k' then Some v else get k d'
  end.

(** [k in d] *)
Definition mem (k : string) (d : list (string * V)) : bool :=
  match get k d with Some _ => true | None => false end.

(** [d[k] = v] *)
Fixpoint set (k : string) (v : V) (d : list (string * V)) : list (string * V) :=
  match d with
  | [] => [(k, v)]
  | (k', v') :: d' =>
      if String.eqb k k' then (k', v) :: d' else (k', v') :: set k v d'
  end.

(** [a | b]: a new dictionary, [b]'s entries assigned over [a]'s *)
Definition merge (a b : list (string * V)) : list (string * V) :=
  fold_left (fun acc kv => set kv.1 kv.2 acc) b a.

Definition keys (d : list (string * V)) : list string := map fst d.
Definition values (d : list (string * V)) : list V := map snd d.
End dict.
End Dict.

(** ** Values and schema objects *)

(** A reference to a [Command] instance. *)
Definition loc := nat.

#[warnings="-register-all"]
Inductive value : Type :=
| VNone
| VBool (b : bool)
| VInt (z : Z)
| VFloat (f : Py.pyfloat)
| VStr (s : string)
| VDict (d : list (string * value))
| VCommand (self : loc).

(** The five error classes; [e_index] and [message] are what the
    constructors pass to [CommandLineError.__init__]. *)
Inductive CommandLineError : Type :=
| UnknownSwitch (index : nat) (switch : string)
| MissingOption (option : string)
| TooManyPositionals (index : nat) (val : string)
| InvalidOption (index : nat) (expected : string) (got : option string)
| ValueNotProvided (index : nat).

Definition e_index (e : CommandLineError) : option nat :=
  match e with
  | UnknownSwitch i _ | TooManyPositionals i _ | InvalidOption i _ _
  | ValueNotProvided i => Some i
  | MissingOption _ => None
  end.

Definition message (e : CommandLineError) : string :=
  match e with
  | UnknownSwitch _ switch => "Unknown switch: " +:+ switch
  | MissingOption option => "Missing option: " +:+ option
  | TooManyPositionals _ val => "Too many arguments received: " +:+ val
  | InvalidOption _ expected got =>
      "Expected " +:+ expected +:+ ", got " +:+ default "None" got
  | ValueNotProvided _ => "Value not provided for a non-boolean option"
  end.

(** What a statement can raise.  [DanglingReference] is a reference that
    is not in the heap; no Python program produces one. *)
Inductive exn : Type :=
| CLE (e : CommandLineError)
| AssertionError (msg : string)
| ValueError
| TypeError
| IndexError
| KeyError
| AttributeError
| SystemExit (code : Z)
| DanglingReference.

(** A value-parser spec: a [str] (the type tags ["str"], ["int"],
    ["float"], ["bool"]), a list of allowed strings, or a callable taking
    the token index, the switch alias or [None], and the raw value. *)
Inductive parser_spec : Type :=
| PStr (s : string)
| PList (vals : list string)
| PCallable (f : nat -> option string -> option string -> exn + value).

(** The dictionaries built by [positional] and [switch]: the keys
    ["switches"] and ["default"] are present or not. *)
Record argdef : Type := ArgDef {
  arg_name : string;
  arg_description : string;
  arg_parser : parser_spec;
  arg_optional : bool;
  arg_switches : option (list string);
  arg_default : option value
}.

Record Command : Type := MkCommand {
  description : string;
  positionals : list argdef;
  upcoming_positionals_optional : bool;
  switches : list (string * argdef);
  subcommands : list (string * loc);
  subcommands_optional : bool
}.

(** ** Interpreter state and the monad of statements *)

Record world : Type := World {
  sys_argv : list string;
  heap : gmap loc Command;
  (** one entry per [print] call *)
  stdout : list string;
  (** one entry per invocation of a callable spec, with its arguments *)
  calls : list (nat * option string * option string)
}.

Inductive res (A : Type) : Type :=
| Ok (a : A)
| Raise (e : exn)
| OutOfFuel.
Arguments Ok {A} a.
Arguments Raise {A} e.
Arguments OutOfFuel {A}.

Definition M (A : Type) : Type := world -> res A * world.

Definition ret {A} (a : A) : M A := fun w => (Ok a, w).

Definition bind {A B} (m : M A) (k : A -> M B) : M B :=
  fun w =>
    match m w with
    | (Ok a, w') => k a w'
    | (Raise e, w') => (Raise e, w')
    | (OutOfFuel, w') => (OutOfFuel, w')
    end.

Declare Scope py_scope.
Delimit Scope py_scope with py.
Notation "x <- m ;; k" := (bind m (fun x => k))
  (at level 100, m at next level, right associativity) : py_scope.
Notation "m ;; k" := (bind m (fun _ => k))
  (at level 100, right associativity) : py_scope.
Local Open Scope py_scope.

Definition raise {A} (e : exn) : M A := fun w => (Raise e, w).
Definition out_of_fuel {A} : M A := fun w => (OutOfFuel, w).

Definition assert (b : bool) (msg : string) : M unit :=
  if b then ret tt else raise (AssertionError msg).

Definition get_argv : M (list string) := fun w => (Ok (sys_argv w), w).

Definition print (s : string) : M unit :=
  fun w => (Ok tt, World (sys_argv w) (heap w) (stdout w ++ [s]) (calls w)).

Definition load (self : loc) : M Command :=
  fun w =>
    match heap w !! self with
    | Some c => (Ok c, w)
    | None => (Raise DanglingReference, w)
    end.

Definition store (self : loc) (c : Command) : M unit :=
  fun w => (Ok tt, World (sys_argv w) (<[self := c]> (heap w)) (stdout w) (calls w)).

(** [f(i, arg, val)] for a callable spec. *)
Definition call (f : nat -> option string -> option string -> exn + value)
    (i : nat) (arg val : option string) : M value :=
  fun w =>
    let w' := World (sys_argv w) (heap w) (stdout w) (calls w ++ [(i, arg, val)]) in
    match f i arg val with
    | inr v => (Ok v, w')
    | inl e => (Raise e, w')
    end.

(** The object of a method call [v.method(...)]: [None] has no methods. *)
Definition receiver (v : value) : M loc :=
  match v with
  | VCommand self => ret self
  | _ => raise AttributeError
  end.

(** [try: m except CommandLineError as e: h e] *)
Definition try_except {A} (m : M A) (h : CommandLineError -> M A) : M A :=
  fun w =>
    match m w with
    | (Raise (CLE e), w') => h e w'
    | r => r
    end.

Definition sys_exit {A} (code : Z) : M A := raise (SystemExit code).

(** [for x in l: body x] *)
Fixpoint for_ {A} (l : list A) (body : A -> M unit) : M unit :=
  match l with
  | [] => ret tt
  | x :: l' => body x ;; for_ l' body
  end.

(** ** The schema builder *)

(** Attribute assignments [self.f = v] on a [Command] object. *)
Definition with_positionals (c : Command) (v : list argdef) : Command :=
  MkCommand (description c) v (upcoming_positionals_optional c) (switches c)
    (subcommands c) (subcommands_optional c).

Definition with_upcoming_positionals_optional (c : Command) (v : bool) : Command :=
  MkCommand (description c) (positionals c) v (switches c) (subcommands c)
    (subcommands_optional c).

Definition with_switches (c : Command) (v : list (string * argdef)) : Command :=
  MkCommand (description c) (positionals c) (upcoming_positionals_optional c) v
    (subcommands c) (subcommands_optional c).

Definition with_subcommands (c : Command) (v : list (string * loc)) : Command :=
  MkCommand (description c) (positionals c) (upcoming_positionals_optional c)
    (switches c) v (subcommands_optional c).

Definition with_subcommands_optional (c : Command) (v : bool) : Command :=
  MkCommand (description c) (positionals c) (upcoming_positionals_optional c)
    (switches c) (subcommands c) v.

Definition reserved : string := "name 'command' is reserved for subcommands".

(** [Command(description)]: a new instance, at a reference not yet in use. *)
Definition Command_new (description : string) : M loc :=
  fun w =>
    let self := fresh (dom (heap w)) in
    (Ok self,
     World (sys_argv w)
       (<[self := MkCommand description [] false [] [] false]> (heap w))
       (stdout w) (calls w)).

Definition positional (self : loc) (name description : string)
    (parser : parser_spec) : M value :=
  assert (negb (String.eqb name "command")) reserved ;;
  c <- load self ;;
  store self
    (with_positionals c
       (positionals c ++
          [ArgDef name description parser (upcoming_positionals_optional c)
             None None])) ;;
  ret (VCommand self).

Definition optional_positionals (self : loc) : M value :=
  c <- load self ;;
  store self (with_upcoming_positionals_optional c true) ;;
  ret VNone.

Definition optional_subcommands (self : loc) : M value :=
  c <- load self ;;
  store self (with_subcommands_optional c true) ;;
  ret VNone.

(** [switch(switches, name, description, parser, optional=..., **kwargs)];
    [default] is [kwargs["default"]] when that key was passed.  Every alias
    is bound to the one [switch_info]. *)
Definition switch (self : loc) (aliases : list string)
    (name description : string) (parser : parser_spec) (optional : bool)
    (default : option value) : M value :=
  assert (negb (String.eqb name "command")) reserved ;;
  let switch_info :=
    ArgDef name description parser optional (Some aliases) default in
  for_ aliases (fun alias =>
    c <- load self ;;
    store self (with_switches c (Dict.set alias switch_info (switches c)))) ;;
  ret (VCommand self).

Definition subcommand (self : loc) (name : string) (cmd : loc) : M value :=
  c <- load self ;;
  store self (with_subcommands c (Dict.set name cmd (subcommands c))) ;;
  ret (VCommand self).

(** ** Utilities *)

Definition esc : string := String (ascii_of_nat 27) EmptyString.

Definition _red (s : string) : string :=
  let bright_red := esc +:+ "[0;91m" in
  let reset_colour := esc +:+ "[0m" in
  bright_red +:+ s +:+ reset_colour.

Definition _bold (s : string) : string :=
  let bold := esc +:+ "[1m" in
  let reset_colour := esc +:+ "[0m" in
  bold +:+ s +:+ reset_colour.

Definition newline : string := String (ascii_of_nat 10) EmptyString.

Definition _pad (s : string) (x indent : nat) : string :=
  if String.length s <? x
  then Py.spaces indent +:+ s +:+ Py.spaces (x - String.length s)
  else Py.spaces indent +:+ s +:+ newline +:+ Py.spaces (indent + x).

(** [argv[0]] and [argv[incorrect_index]] raise [IndexError] out of range;
    the slices [argv[1:incorrect_index]] and [argv[incorrect_index + 1:]]
    do not. *)
Definition _highlight_incorrect (argv : list string) (incorrect_index : nat)
  : M string :=
  match argv !! 0 with
  | None => raise IndexError
  | Some binary =>
      let sep := " " in
      let correct_part_1 := Py.join sep (take (incorrect_index - 1) (drop 1 argv)) in
      match argv !! incorrect_index with
      | None => raise IndexError
      | Some wrong_part =>
          let correct_part_2 := Py.join sep (drop (incorrect_index + 1) argv) in
          ret (binary +:+ sep +:+
               Py.join sep [correct_part_1; _red wrong_part; correct_part_2])
      end
  end.

Definition render_message (e : CommandLineError) (args : list string)
  : M string :=
  correction <-
    match e_index e with
    | Some index => _highlight_incorrect args index
    | None => ret EmptyString
    end ;;
  ret (_red "Error: " +:+ message e +:+ " " +:+ newline +:+ newline +:+ correction).

(** ** Value dispatch *)

(** [parser == tag] for a string literal [tag] *)
Definition parser_is (parser : parser_spec) (tag : string) : bool :=
  match parser with
  | PStr s => String.eqb s tag
  | _ => false
  end.

Definition is_None {A} (val : option A) : bool :=
  match val with None => true | Some _ => false end.

Definition parse_arg (i : nat) (arg val : option string) (argdef : argdef)
  : M (list (string * value)) :=
  let name := arg_name argdef in
  let parser := arg_parser argdef in
  if negb (parser_is parser "bool") && is_None val then
    raise (CLE (ValueNotProvided i))
  else
    parsed_val <-
      (if parser_is parser "str" then
         ret (match val with Some s => VStr s | None => VNone end)
       else if parser_is parser "int" then
         match val with
         | Some s =>
             match Py.int s with
             | Some z => ret (VInt z)
             | None => raise (CLE (InvalidOption i "int" val))
             end
         | None => raise TypeError
         end
       else if parser_is parser "float" then
         match val with
         | Some s =>
             match Py.float s with
             | Some f => ret (VFloat f)
             | None => raise (CLE (InvalidOption i "float" val))
             end
         | None => raise TypeError
         end
       else if parser_is parser "bool" then
         match val with
         | None => ret (VBool true)
         | Some s =>
             if Py.contains (Py.lower s) ["1"; "true"] then ret (VBool true)
             else if Py.contains (Py.lower s) ["0"; "false"] then ret (VBool false)
             else raise (CLE (InvalidOption i "bool switch" val))
         end
       else
         match parser with
         | PList vals =>
             match val with
             | Some s =>
                 if Py.contains s vals then ret (VStr s)
                 else raise (CLE (InvalidOption i (Py.join "/" vals) val))
             | None => raise (CLE (InvalidOption i (Py.join "/" vals) val))
             end
         | PCallable f => call f i arg val
         | PStr _ => raise TypeError
         end) ;;
    ret [(name, parsed_val)].

(** ** Usage rendering *)

Definition nonempty (s : string) : bool := negb (String.eqb s EmptyString).

(** The module-level [print_usage(arg, indent)] *)
Definition print_usage (arg : argdef) (indent : nat) : M unit :=
  let value :=
    match arg_parser arg with
    | PStr s => Some s
    | PList vals => Some (Py.join "/" vals)
    | PCallable _ => None
    end in
  let name :=
    match arg_switches arg with
    | Some aliases => Py.join ", " (Py.sorted_by_len aliases)
    | None => arg_name arg
    end in
  print (_pad name 8 indent +:+ arg_description arg) ;;
  match value with
  | Some v => if nonempty v then print (_pad EmptyString 8 indent +:+ v) else ret tt
  | None => ret tt
  end.

(** [{s["name"]: s for s in self.switches.values()}.values()] *)
Definition distinct_switches (c : Command) : list argdef :=
  Dict.values
    (fold_left (fun acc s => Dict.set (arg_name s) s acc)
       (Dict.values (switches c)) []).

Definition bracket (optional : bool) (s1 : string) : string :=
  if optional then " [" +:+ s1 +:+ "]" else " " +:+ s1.

(** The piece of the summary line for one switch; [arg["switches"]] raises
    [KeyError] on a definition without that key. *)
Definition switch_summary (arg : argdef) : M string :=
  match arg_switches arg with
  | None => raise KeyError
  | Some aliases =>
      let s1 := Py.join "/" aliases in
      let s1 :=
        match arg_parser arg with
        | PStr p => if negb (String.eqb p "bool") then s1 +:+ "=" +:+ p else s1
        | PList vals => s1 +:+ "=" +:+ Py.join "/" vals
        | PCallable _ => s1
        end in
      ret (bracket (arg_optional arg) s1)
  end.

Fixpoint switch_summaries (args : list argdef) (s : string) : M string :=
  match args with
  | [] => ret s
  | arg :: args' => s1 <- switch_summary arg ;; switch_summaries args' (s +:+ s1)
  end.

Section _print_usage.
(** The method [_print_usage] of the subcommands, for the recursive call. *)
Variable _print_usage : loc -> string -> nat -> nat -> M unit.

Definition _print_usage_body (self : loc) (name : string)
    (indent_start indent_incr : nat) : M unit :=
  c <- load self ;;
  let s := _bold name in
  let s :=
    fold_left
      (fun s arg => s +:+ bracket (arg_optional arg) (arg_name arg))
      (positionals c) s in
  s <- switch_summaries (distinct_switches c) s ;;
  let s :=
    match subcommands c with
    | [] => s
    | _ => if subcommands_optional c then s +:+ " [command]"
           else s +:+ " command"
    end in
  let sp := Py.spaces indent_start in
  print (sp +:+ s) ;;
  for_ (positionals c) (fun arg => print_usage arg (indent_start + indent_incr)) ;;
  for_ (distinct_switches c)
    (fun arg => print_usage arg (indent_start + indent_incr)) ;;
  match subcommands c with
  | [] => ret tt
  | _ =>
      for_ (subcommands c) (fun item =>
        print EmptyString ;;
        _print_usage item.2 item.1 (indent_start + indent_incr) indent_incr) ;;
      print EmptyString
  end.
End _print_usage.

(** [_print_usage(self, name, indent_start, indent_incr)].  [fuel] bounds
    the depth of nested method activations. *)
Fixpoint _print_usage (fuel : nat) (self : loc) (name : string)
    (indent_start indent_incr : nat) : M unit :=
  match fuel with
  | O => out_of_fuel
  | S fuel' =>
      _print_usage_body (_print_usage fuel') self name indent_start indent_incr
  end.

(** The method [Command.print_usage(self, binary, indent=2)] *)
Definition Command_print_usage (fuel : nat) (self : loc) (binary : string)
    (indent : nat) : M unit :=
  print EmptyString ;;
  _print_usage fuel self binary 0 indent.

(** ** The parser *)

(** What [parse] receives as [binary]: a string (its documented use), or
    the iterator that [_parse] hands to a subcommand's [parse]. *)
Inductive binary_arg : Type :=
| BinStr (s : string)
| BinIter (argv_iter : list (nat * string)).

Section _parse.
(** The method [parse] of the subcommands, for the recursive call. *)
Variable parse : loc -> binary_arg -> M (list (string * value)).
Variable self : loc.

(** One iteration of [for i, arg in argv_iter]; [argv_iter] is the
    iterator after it has yielded [(i, arg)]. *)
Definition _parse_token (argv_iter : list (nat * string))
    (out : list (string * value)) (positional_index : nat)
    (i : nat) (arg : string) : M (list (string * value) * nat) :=
  c <- load self ;;
  if Py.startswith arg "-" then
    let '(arg, eq, val) := Py.partition "=" arg in
    let val := if String.eqb eq EmptyString then None else Some val in
    match Dict.get arg (switches c) with
    | Some argdef =>
        r <- parse_arg i (Some arg) val argdef ;;
        ret (Dict.merge out r, positional_index)
    | None => raise (CLE (UnknownSwitch i arg))
    end
  else
    match Dict.get arg (subcommands c) with
    | Some cmd =>
        r <- parse cmd (BinIter argv_iter) ;;
        (* the literal [{"command": arg, arg: r}]; a second entry under
           the same key replaces the first *)
        ret (Dict.merge out (Dict.set arg (VDict r) [("command", VStr arg)]),
             positional_index)
    | None =>
        if length (positionals c) <=? positional_index then
          raise (CLE (TooManyPositionals i arg))
        else
          match positionals c !! positional_index with
          | Some argdef =>
              r <- parse_arg i None (Some arg) argdef ;;
              ret (Dict.merge out r, positional_index + 1)
          | None => raise IndexError
          end
    end.

Fixpoint _parse_loop (argv_iter : list (nat * string))
    (out : list (string * value)) (positional_index : nat)
  : M (list (string * value) * nat) :=
  match argv_iter with
  | [] => ret (out, positional_index)
  | (i, arg) :: argv_iter' =>
      st <- _parse_token argv_iter' out positional_index i arg ;;
      _parse_loop argv_iter' st.1 st.2
  end.

Definition check_positionals (c : Command) (out : list (string * value))
  : M unit :=
  for_ (positionals c) (fun positional =>
    if negb (arg_optional positional)
       && negb (Dict.mem (arg_name positional) out)
    then raise (CLE (MissingOption (arg_name positional)))
    else ret tt).

Fixpoint fill_defaults (l : list argdef) (out : list (string * value))
  : M (list (string * value)) :=
  match l with
  | [] => ret out
  | switch :: l' =>
      if negb (arg_optional switch) && negb (Dict.mem (arg_name switch) out)
      then
        let name := arg_name switch in
        match arg_default switch with
        | Some default => fill_defaults l' (Dict.set name default out)
        | None =>
            match arg_switches switch with
            | Some aliases =>
                let switches := Py.join ", " aliases in
                raise (CLE (MissingOption (name +:+ " (" +:+ switches +:+ ")")))
            | None => raise KeyError
            end
        end
      else fill_defaults l' out
  end.

Definition check_subcommands (c : Command) (out : list (string * value))
  : M unit :=
  if (0 <? length (subcommands c))
     && negb (subcommands_optional c)
     && negb (Dict.mem "command" out)
  then
    let subcommands := Py.join ", " (Dict.keys (subcommands c)) in
    raise (CLE (MissingOption ("command (" +:+ subcommands +:+ ")")))
  else ret tt.

Definition _parse_body (argv_iter : list (nat * string))
  : M (list (string * value)) :=
  st <- _parse_loop argv_iter [] 0 ;;
  let out := st.1 in
  c <- load self ;;
  check_positionals c out ;;
  out <- fill_defaults (Dict.values (switches c)) out ;;
  check_subcommands c out ;;
  ret out.
End _parse.

Section parse.
(** The methods [print_usage] of this [Command] and [parse] of its
    subcommands. *)
Variable Command_print_usage : loc -> string -> nat -> M unit.
Variable parse : loc -> binary_arg -> M (list (string * value)).

Definition parse_body (self : loc) (binary : binary_arg)
  : M (list (string * value)) :=
  argv <- get_argv ;;
  match Py.enumerate argv with
  | (_, binary) :: argv_iter =>
      if (length argv <=? 1) || Py.contains "--help" argv then
        Command_print_usage self binary 2 ;;
        sys_exit (-1)
      else
        try_except (_parse_body parse self argv_iter)
          (fun e =>
             print EmptyString ;;
             argv <- get_argv ;;
             msg <- render_message e argv ;;
             print msg ;;
             sys_exit (-1))
  | [] =>
      (* [next] returns the default, which is then unpacked *)
      match binary with
      | BinStr (String _ (String c EmptyString)) =>
          Command_print_usage self (String c EmptyString) 2 ;;
          sys_exit (-1)
      | BinIter [_; _] =>
          (* [print_usage] prints a blank line, then [_bold] is given a
             tuple *)
          print EmptyString ;;
          raise TypeError
      | _ => raise ValueError
      end
  end.
End parse.

(** [parse(self, binary)].  [fuel] bounds the depth of nested method
    activations. *)
Fixpoint parse (fuel : nat) (self : loc) (binary : binary_arg)
  : M (list (string * value)) :=
  match fuel with
  | O => out_of_fuel
  | S fuel' =>
      parse_body (Command_print_usage fuel) (parse fuel') self binary
  end.

(** [_parse(self, argv_iter)] *)
Definition _parse (fuel : nat) (self : loc) (argv_iter : list (nat * string))
  : M (list (string * value)) :=
  _parse_body (parse fuel) self argv_iter.

(** * Vocabulary of the properties *)

Section assigned.
Context {V : Type}.

(** The value a key has after the assignments of [b], made left to
    right, on top of a previous value [o]. *)
Definition assigned (k : string) (b : list (string * V)) (o : option V) : option V :=
  fold_left (fun acc kv => if String.eqb k kv.1 then Some kv.2 else acc) b o.

End assigned.

(** What a run may change.
    [extends w w']: between [w] and [w'], [sys.argv] and every [Command]
    are the same, output was only appended, and every callable that was
    invoked got a raw value. *)
Definition extends (w w' : world) : Prop :=
  sys_argv w' = sys_argv w ∧
  heap w' = heap w ∧
  (∃ l, stdout w' = stdout w ++ l) ∧
  (∃ cs, calls w' = calls w ++ cs ∧ Forall (fun c => c.2 ≠ None) cs).

(** A statement that changes the state only so. *)
Definition framed {A} (m : M A) : Prop := ∀ w, extends w (m w).2.

Section loop_vocabulary.
Variable parse : loc -> binary_arg -> M (list (string * value)).
Variable self : loc.

(** The iterations of the loop over [pre ++ post] that consume [pre]:
    each token sees the iterator with what follows it, [post] included. *)
Fixpoint _parse_prefix (pre post : list (nat * string))
    (out : list (string * value)) (positional_index : nat)
  : M (list (string * value) * nat) :=
  match pre with
  | [] => ret (out, positional_index)
  | (i, arg) :: pre' =>
      st <- _parse_token parse self (pre' ++ post) out positional_index i arg ;;
      _parse_prefix pre' post st.1 st.2
  end.

(** The dictionaries that the tokens of a successful loop yield, in
    order, with the positional index and the state it ends in. *)
Inductive yields :
  list (nat * string) → nat → world →
  list (list (string * value)) → nat → world → Prop :=
| yields_nil positional_index w :
    yields [] positional_index w [] positional_index w
| yields_cons i arg argv_iter positional_index w r pi1 w1 rs pi2 w2 :
    _parse_token parse self argv_iter [] positional_index i arg w
      = (Ok (r, pi1), w1) →
    yields argv_iter pi1 w1 rs pi2 w2 →
    yields ((i, arg) :: argv_iter) positional_index w (r :: rs) pi2 w2.

End loop_vocabulary.

(** The [Command] at [self] is the root of a tree of subcommands at most
    [d] levels deep, all of them in the heap. *)
#[warnings="-register-all"]
Inductive nesting (h : gmap loc Command) : nat -> loc -> Prop :=
| nesting_node d self c :
    h !! self = Some c ->
    Forall (fun item => nesting h d item.2) (subcommands c) ->
    nesting h (S d) self.

(** A token without [=]: nothing is split off it. *)
Definition bare (tok : string) : Prop :=
  Py.partition "=" tok = (tok, EmptyString, EmptyString).

(** The built-in type tags other than ["bool"]. *)
Definition builtin_non_bool (parser : parser_spec) : Prop :=
  parser = PStr "str" \/ parser = PStr "int" \/ parser = PStr "float".

(** A statement that does not run out of fuel from a state whose heap is
    [h]. *)
Definition total (h : gmap loc Command) {A} (m : M A) : Prop :=
  forall w, heap w = h -> (m w).1 <> OutOfFuel.

(** [m'] does what [m] does wherever [m] does not run out of fuel. *)
Definition refines {A} (m m' : M A) : Prop :=
  forall w, (m w).1 <> OutOfFuel -> m' w = m w.

(** A [Command] that is its own subcommand [x]. *)
Definition cyclic_schema : M loc :=
  c <- Command_new "c" ;;
  v <- subcommand c "x" c ;;
  receiver v.

(** What the last of the dictionaries [rs] that assigns [k] gives it. *)
Definition last_assigned {V} (k : string) (rs : list (list (string * V)))
  : option V :=
  fold_left (fun o r => assigned k r o) rs None.

(** Every switch definition has its list of aliases, as [switch] builds
    it. *)
Definition switches_built (c : Command) : Prop :=
  forall s, s ∈ Dict.values (switches c) -> arg_switches s <> None.

(** Switch definitions of one name are one definition, as when [switch]
    is called once per name. *)
Definition switch_names_unique (c : Command) : Prop :=
  forall s s', s ∈ Dict.values (switches c) ->
    s' ∈ Dict.values (switches c) ->
    arg_name s = arg_name s' -> s = s'.

(** ** Concrete schemas *)

(** The interpreter at start-up: no [Command] yet, nothing printed. *)
Definition boot (argv : list string) : world := World argv ∅ [] [].

(** The schema of the specification's example, built by chained calls: a
    required string positional [name], an integer switch [--count] with
    default 5 (declared with [optional=True] or, the default filling in for
    it, with [optional=False]), a subcommand [run] without arguments. *)
Definition example_schema (optional : bool) : M loc :=
  run <- Command_new "run" ;;
  root <- Command_new "example" ;;
  v <- positional root "name" "a name" (PStr "str") ;;
  root <- receiver v ;;
  v <- switch root ["--count"] "count" "a count" (PStr "int") optional
         (Some (VInt 5)) ;;
  root <- receiver v ;;
  v <- subcommand root "run" run ;;
  receiver v.

(** A [Command] with the one switch [x], aliased to [--x]: the schema,
    the state after building it, and the objects built. *)
Definition x_schema (parser : parser_spec) (optional : bool)
    (default : option value) : M loc :=
  c <- Command_new "c" ;;
  v <- switch c ["--x"] "x" "" parser optional default ;;
  receiver v.

Definition x_world (parser : parser_spec) (argv : list string) : world :=
  (x_schema parser false None (boot argv)).2.

Definition x_switch (parser : parser_spec) : argdef :=
  ArgDef "x" "" parser false (Some ["--x"]) None.

Definition x_command (parser : parser_spec) : Command :=
  MkCommand "c" [] false [("--x", x_switch parser)] [] false.

(** A [Command] with a required string positional [name] and an integer
    switch [count], aliased to [--count], with default 5, optional or
    required: the schema, the state after building it, the objects built. *)
Definition count_schema (optional : bool) : M loc :=
  c <- Command_new "c" ;;
  v <- positional c "name" "" (PStr "str") ;;
  c <- receiver v ;;
  v <- switch c ["--count"] "count" "" (PStr "int") optional (Some (VInt 5)) ;;
  receiver v.

Definition count_world (optional : bool) (argv : list string) : world :=
  (count_schema optional (boot argv)).2.

Definition count_switch (optional : bool) : argdef :=
  ArgDef "count" "" (PStr "int") optional (Some ["--count"]) (Some (VInt 5)).

Definition count_command (optional : bool) : Command :=
  MkCommand "c" [ArgDef "name" "" (PStr "str") false None None] false
    [("--count", count_switch optional)] [] false.

(** The state after building the example schema; its root is at
    reference 1, the subcommand [run] at 0. *)
Definition example_world (optional : bool) (argv : list string) : world :=
  (example_schema optional (boot argv)).2.

(** Building the example schema, then parsing [script.py alice run]. *)
Definition example_run (optional : bool) (fuel : nat)
  : res (list (string * value)) * world :=
  (root <- example_schema optional ;; parse fuel root (BinStr "script.py"))
    (boot ["script.py"; "alice"; "run"]).

(** A callable spec that returns the raw value as it is. *)
Definition echo (i : nat) (arg val : option string) : exn + value :=
  match val with
  | Some s => inr (VStr s)
  | None => inr VNone
  end.

(** ** Vocabulary of the further properties *)

(** A [Command] as the builder leaves it: no definition is named
    ["command"], a positional has neither aliases nor default, and every
    alias leads to a switch definition that lists it. *)
Definition well_built (c : Command) : Prop :=
  (forall p, p ∈ positionals c ->
     arg_name p <> "command" /\ arg_switches p = None /\ arg_default p = None) /\
  (forall alias s, Dict.get alias (switches c) = Some s ->
     arg_name s <> "command" /\
     exists aliases, arg_switches s = Some aliases /\ alias ∈ aliases).

(** The state in which [self] has become [c] and nothing else has
    changed. *)
Definition updated (w : world) (self : loc) (c : Command) : world :=
  World (sys_argv w) (<[self := c]> (heap w)) (stdout w) (calls w).

(** A token that is neither a switch nor the name of a subcommand of [c]:
    the value of a positional. *)
Definition plain (c : Command) (tok : string) : bool :=
  negb (Py.startswith tok "-") && negb (Dict.mem tok (subcommands c)).

(** The keys a result of parsing against [c] may have. *)
Definition declared (c : Command) (k : string) : Prop :=
  k = "command" \/
  k ∈ map arg_name (positionals c) \/
  k ∈ map arg_name (Dict.values (switches c)) \/
  k ∈ Dict.keys (subcommands c).

(** A statement that raises no [CommandLineError]. *)
Definition never_cle {A} (m : M A) : Prop :=
  forall w e, (m w).1 <> Raise (CLE e).

(** A statement that invokes no callable. *)
Definition quiet {A} (m : M A) : Prop :=
  forall w, calls (m w).2 = calls w.

(** From a state with heap [h] and command line [argv], the outcome of
    the statement satisfies [Q]. *)
Definition post (h : gmap loc Command) (argv : list string) {A}
    (Q : res A -> Prop) (m : M A) : Prop :=
  forall w, heap w = h -> sys_argv w = argv -> Q (m w).1.

(** The value-parser specs that involve no callable and no unknown tag. *)
Definition static_spec (parser : parser_spec) : Prop :=
  parser = PStr "str" \/ parser = PStr "int" \/ parser = PStr "float" \/
  parser = PStr "bool" \/ exists vals, parser = PList vals.

(** A [Command] with switches as [switch] builds them and static specs
    only. *)
Definition static_command (c : Command) : Prop :=
  switches_built c /\
  (forall p, p ∈ positionals c -> static_spec (arg_parser p)) /\
  (forall s, s ∈ Dict.values (switches c) -> static_spec (arg_parser s)).

(** The outcomes of a step of [_parse] on a command line of [n] entries:
    a value, an exit with status -1, or an error whose index, if it has
    one, is within the command line. *)
Definition step_outcome (n : nat) {A} (r : res A) : Prop :=
  (exists a, r = Ok a) \/ r = Raise (SystemExit (-1)) \/
  exists e, r = Raise (CLE e) /\ forall i, e_index e = Some i -> i < n.

(** The outcomes of [parse] on a static schema: a result, or an exit with
    status -1. *)
Definition parse_outcome {A} (r : res A) : Prop :=
  (exists a, r = Ok a) \/ r = Raise (SystemExit (-1)).

(** A value is returned. *)
Definition returned {A} (r : res A) : Prop := exists a, r = Ok a.

(** The two [Command]s of the example schema, as built. *)
Definition example_root (optional : bool) : Command :=
  MkCommand "example" [ArgDef "name" "a name" (PStr "str") false None None]
    false
    [("--count",
      ArgDef "count" "a count" (PStr "int") optional (Some ["--count"])
        (Some (VInt 5)))]
    [("run", 0)] false.

Definition example_run_command : Command := MkCommand "run" [] false [] [] false.

(** Two dictionaries with the same value under every key. *)
Definition same_items (d1 d2 : list (string * value)) : Prop :=
  forall k, Dict.get k d1 = Dict.get k d2.

(** A [Command] in which no positional shares its name with a switch. *)
Definition names_apart (c : Command) : Prop :=
  forall p s, p ∈ positionals c -> s ∈ Dict.values (switches c) ->
    arg_name p <> arg_name s.

(** A value of the kind that a value-parser spec produces: the built-in
    tags name the type, a list of strings the admitted strings; a callable
    may produce anything. *)
Definition conforms (parser : parser_spec) (v : value) : Prop :=
  match parser, v with
  | PStr tag, VStr _ => tag = "str"
  | PStr tag, VInt _ => tag = "int"
  | PStr tag, VFloat _ => tag = "float"
  | PStr tag, VBool _ => tag = "bool"
  | PList vals, VStr s => s ∈ vals
  | PCallable _, _ => True
  | _, _ => False
  end.

(** The column at which the text after [s] begins, when [s] begins at
    column [col]. *)
Fixpoint column_from (col : nat) (s : string) : nat :=
  match s with
  | EmptyString => col
  | String ch s' =>
      if Ascii.eqb ch (ascii_of_nat 10) then column_from 0 s'
      else column_from (S col) s'
  end.

(** A text without a line break. *)
Fixpoint single_line (s : string) : bool :=
  match s with
  | EmptyString => true
  | String ch s' => negb (Ascii.eqb ch (ascii_of_nat 10)) && single_line s'
  end.

(** A statement that prints nothing when it returns. *)
Definition silent {A} (m : M A) : Prop :=
  forall w a w', m w = (Ok a, w') -> stdout w' = stdout w.

(** A statement that does not return. *)
Definition diverted {A} (m : M A) : Prop :=
  forall w a w', m w <> (Ok a, w').

(** * Properties *)

(** ** Dictionaries *)
Section dict_facts.
Context {V : Type}.
Implicit Types (d a b : list (string * V)) (k : string) (v : V).

Lemma get_set_eq k v d : Dict.get k (Dict.set k v d) = Some v.
Proof.
  induction d as [|[k' v'] d IH]; simpl.
  - by rewrite String.eqb_refl.
  - destruct (String.eqb k k') eqn:E; simpl; rewrite E; auto.
Qed.

Lemma get_set_ne k k' v d :
  k ≠ k' → Dict.get k (Dict.set k' v d) = Dict.get k d.
Proof.
  intros Hne. induction d as [|[k0 v0] d IH]; simpl.
  - by apply String.eqb_neq in Hne as ->.
  - destruct (String.eqb k' k0) eqn:E; simpl.
    + apply String.eqb_eq in E as ->.
      by apply String.eqb_neq in Hne as ->.
    + by rewrite IH.
Qed.

Lemma get_set k k' v d :
  Dict.get k (Dict.set k' v d) =
  if String.eqb k k' then Some v else Dict.get k d.
Proof.
  destruct (String.eqb k k') eqn:E.
  - apply String.eqb_eq in E as ->. apply get_set_eq.
  - apply String.eqb_neq in E. by apply get_set_ne.
Qed.

(** [a | b] is right-biased. *)
Lemma get_merge k a b :
  Dict.get k (Dict.merge a b) = assigned k b (Dict.get k a).
Proof.
  unfold Dict.merge, assigned. revert a.
  induction b as [|[k' v'] b IH]; intros a; simpl; [done|].
  by rewrite IH, get_set.
Qed.

Lemma assigned_singleton k k' v o :
  assigned k [(k', v)] o = if String.eqb k k' then Some v else o.
Proof. done. Qed.

Lemma mem_get k d : Dict.mem k d = bool_decide (is_Some (Dict.get k d)).
Proof.
  unfold Dict.mem. destruct (Dict.get k d); symmetry.
  - by apply bool_decide_eq_true.
  - apply bool_decide_eq_false. by intros [? ?].
Qed.

Lemma mem_false k d : Dict.mem k d = false ↔ Dict.get k d = None.
Proof. unfold Dict.mem. by destruct (Dict.get k d). Qed.

Lemma get_values k d v : Dict.get k d = Some v → v ∈ Dict.values d.
Proof.
  induction d as [|[k' v'] d IH]; simpl; [done|].
  destruct (String.eqb k k'); intros H.
  - injection H as ->. apply list_elem_of_here.
  - apply list_elem_of_further. auto.
Qed.
End dict_facts.

(** ** The monad *)

Lemma bind_assoc {A B C} (m : M A) (k : A → M B) (k' : B → M C) w :
  bind (bind m k) k' w = bind m (fun a => bind (k a) k') w.
Proof. unfold bind. by destruct (m w) as [[a|e|] w1]. Qed.

Lemma bind_ext {A B} (m : M A) (k k' : A → M B) w :
  (∀ a w1, k a w1 = k' a w1) → bind m k w = bind m k' w.
Proof. intros H. unfold bind. by destruct (m w) as [[a|e|] w1]. Qed.

Lemma bind_ret {A B} (a : A) (k : A → M B) w : bind (ret a) k w = k a w.
Proof. done. Qed.

Lemma bind_raise_l {A B} e (k : A → M B) w : bind (raise e) k w = (Raise e, w).
Proof. done. Qed.

Lemma bind_ok {A B} (m : M A) (k : A → M B) w a w1 :
  m w = (Ok a, w1) → bind m k w = k a w1.
Proof. unfold bind. by intros ->. Qed.

Lemma bind_raise {A B} (m : M A) (k : A → M B) w e w1 :
  m w = (Raise e, w1) → bind m k w = (Raise e, w1).
Proof. unfold bind. by intros ->. Qed.

Lemma bind_out_of_fuel {A B} (m : M A) (k : A → M B) w :
  (m w).1 = OutOfFuel → (bind m k w).1 = OutOfFuel.
Proof. unfold bind. by destruct (m w) as [[a|e|] w1]. Qed.

Lemma bind_inv_ok {A B} (m : M A) (k : A → M B) w b w2 :
  bind m k w = (Ok b, w2) →
  ∃ a w1, m w = (Ok a, w1) ∧ k a w1 = (Ok b, w2).
Proof. unfold bind. destruct (m w) as [[a|e|] w1]; [eauto|done..]. Qed.

(** ** What a run may change *)

#[local] Instance extends_preorder : PreOrder extends.
Proof.
  split.
  - intros w. repeat split; [by exists []; rewrite app_nil_r|].
    exists []. by rewrite app_nil_r.
  - intros w1 w2 w3 (Ha & Hh & [l Hl] & cs & Hc & Hcs)
      (Ha' & Hh' & [l' Hl'] & cs' & Hc' & Hcs').
    split; [congruence|]. split; [congruence|]. split.
    + exists (l ++ l'). by rewrite Hl', Hl, app_assoc.
    + exists (cs ++ cs'). split; [by rewrite Hc', Hc, app_assoc|].
      by apply Forall_app.
Qed.

Lemma framed_ret {A} (a : A) : framed (ret a).
Proof. intros w. simpl. reflexivity. Qed.

Lemma framed_raise {A} e : framed (@raise A e).
Proof. intros w. simpl. reflexivity. Qed.

Lemma framed_out_of_fuel {A} : framed (@out_of_fuel A).
Proof. intros w. simpl. reflexivity. Qed.

Lemma framed_bind {A B} (m : M A) (k : A → M B) :
  framed m → (∀ a, framed (k a)) → framed (bind m k).
Proof.
  intros Hm Hk w. specialize (Hm w). unfold bind.
  destruct (m w) as [[a|e|] w1]; simpl in *; [|done..].
  etrans; [exact Hm|apply Hk].
Qed.

Lemma framed_try_except {A} (m : M A) h :
  framed m → (∀ e, framed (h e)) → framed (try_except m h).
Proof.
  intros Hm Hh w. specialize (Hm w). unfold try_except.
  destruct (m w) as [[a|[]|] w1]; simpl in *; try done.
  etrans; [exact Hm|apply Hh].
Qed.

Lemma framed_print s : framed (print s).
Proof.
  intros w. repeat split; simpl; [by eexists|].
  exists []. by rewrite app_nil_r.
Qed.

Lemma framed_get_argv : framed get_argv.
Proof. intros w. simpl. reflexivity. Qed.

Lemma framed_load self : framed (load self).
Proof. intros w. unfold load. destruct (heap w !! self); simpl; reflexivity. Qed.

Lemma framed_assert b msg : framed (assert b msg).
Proof. destruct b; [apply framed_ret|apply framed_raise]. Qed.

Lemma framed_call f i arg s : framed (call f i arg (Some s)).
Proof.
  intros w. unfold call.
  assert (extends w (World (sys_argv w) (heap w) (stdout w)
                       (calls w ++ [(i, arg, Some s)]))) as H.
  { repeat split; simpl; [exists []; by rewrite app_nil_r|].
    eexists. split; [done|]. by repeat constructor. }
  by destruct (f i arg (Some s)).
Qed.

Lemma framed_for {A} (l : list A) body :
  (∀ x, framed (body x)) → framed (for_ l body).
Proof.
  intros H. induction l; simpl; [apply framed_ret|].
  apply framed_bind; auto.
Qed.

Create HintDb framed.
#[local] Hint Resolve framed_ret framed_raise framed_out_of_fuel framed_print
  framed_get_argv framed_load framed_assert framed_call framed_for : framed.

(** Splits a statement into its primitives. *)
Ltac framed :=
  repeat first
    [ progress eauto with framed
    | apply framed_bind; [|intros ?]
    | apply framed_try_except; [|intros ?]
    | apply framed_for; intros ?
    | match goal with
      | |- framed (if ?b then _ else _) => destruct b
      | |- framed (match ?x with _ => _ end) => destruct x
      | |- framed (let '(_, _) := ?x in _) => destruct x
      end ].

Lemma framed_parse_arg i arg val argdef : framed (parse_arg i arg val argdef).
Proof.
  unfold parse_arg. destruct val as [s|].
  - framed.
  - destruct (arg_parser argdef) as [p| |]; simpl; [|framed..].
    destruct (String.eqb p "bool") eqn:E; simpl; [|framed].
    apply String.eqb_eq in E as ->. simpl. framed.
Qed.

Lemma framed_print_usage arg indent : framed (print_usage arg indent).
Proof. unfold print_usage. framed. Qed.

Lemma framed_switch_summaries args s : framed (switch_summaries args s).
Proof.
  revert s. induction args; intros s; simpl; [framed|].
  apply framed_bind; [unfold switch_summary; framed|auto].
Qed.

Lemma framed__print_usage_body rec self name indent_start indent_incr :
  (∀ self name indent_start indent_incr,
     framed (rec self name indent_start indent_incr)) →
  framed (_print_usage_body rec self name indent_start indent_incr).
Proof.
  intros Hrec. unfold _print_usage_body.
  pose proof framed_print_usage. pose proof framed_switch_summaries.
  framed.
Qed.

Lemma framed__print_usage fuel self name indent_start indent_incr :
  framed (_print_usage fuel self name indent_start indent_incr).
Proof.
  revert self name indent_start indent_incr.
  induction fuel as [|fuel IH]; intros; simpl; [framed|].
  by apply framed__print_usage_body.
Qed.

Lemma framed_Command_print_usage fuel self binary indent :
  framed (Command_print_usage fuel self binary indent).
Proof.
  unfold Command_print_usage. pose proof framed__print_usage. framed.
Qed.

Lemma framed__highlight_incorrect argv i : framed (_highlight_incorrect argv i).
Proof. unfold _highlight_incorrect. framed. Qed.

Lemma framed_render_message e args : framed (render_message e args).
Proof.
  unfold render_message. pose proof framed__highlight_incorrect. framed.
Qed.

Section framed__parse.
Variable parse : loc → binary_arg → M (list (string * value)).
Hypothesis framed_rec : ∀ self binary, framed (parse self binary).

Lemma framed__parse_token self argv_iter out positional_index i arg :
    framed (_parse_token parse self argv_iter out positional_index i arg).
  Proof.
    unfold _parse_token. pose proof framed_parse_arg.
    apply framed_bind; [framed|]. intros c.
    destruct (Py.startswith arg "-").
    - destruct (Py.partition "=" arg) as [[a e] v]. framed.
    - framed.
  Qed.

Lemma framed__parse_loop self argv_iter out positional_index :
    framed (_parse_loop parse self argv_iter out positional_index).
  Proof.
    revert out positional_index.
    induction argv_iter as [|[i arg] it IH]; intros; simpl; [framed|].
    apply framed_bind; [apply framed__parse_token|auto].
  Qed.

Lemma framed_fill_defaults l out : framed (fill_defaults l out).
  Proof. revert out. induction l; intros; simpl; framed. Qed.

Lemma framed__parse_body self argv_iter :
    framed (_parse_body parse self argv_iter).
  Proof.
    unfold _parse_body, check_positionals, check_subcommands.
    pose proof framed__parse_loop. pose proof framed_fill_defaults. framed.
  Qed.
End framed__parse.

Lemma framed_parse fuel self binary : framed (parse fuel self binary).
Proof.
  revert self binary. induction fuel as [|fuel IH]; intros; simpl; [framed|].
  pose proof framed_Command_print_usage. pose proof framed_render_message.
  pose proof (framed__parse_body _ IH).
  unfold parse_body. apply framed_bind; [framed|]. intros argv.
  destruct (Py.enumerate argv) as [|[? ?] ?].
  - destruct binary as [[|? [|? [|]]]|[|? [|? [|]]]]; unfold sys_exit; framed.
  - unfold sys_exit. framed.
Qed.

Lemma framed__parse fuel self argv_iter : framed (_parse fuel self argv_iter).
Proof. apply framed__parse_body, framed_parse. Qed.

(** ** The schema is only read *)

(** C8.  Parsing leaves every [Command] as it was (and [sys.argv] too),
    whatever the outcome: the heap after [parse], and after [_parse], is
    the heap before. *)
Theorem C8_schema_read_only fuel self binary argv_iter w :
  heap (parse fuel self binary w).2 = heap w ∧
  heap (_parse fuel self argv_iter w).2 = heap w ∧
  sys_argv (parse fuel self binary w).2 = sys_argv w.
Proof.
  destruct (framed_parse fuel self binary w) as (Ha & Hh & _).
  destruct (framed__parse fuel self argv_iter w) as (_ & Hh' & _).
  done.
Qed.

(** ** The token loop *)

Lemma load_ok self w c : heap w !! self = Some c → load self w = (Ok c, w).
Proof. unfold load. by intros ->. Qed.

Section _parse_facts.
Variable parse : loc → binary_arg → M (list (string * value)).
Variable self : loc.

Lemma _parse_loop_app pre post out positional_index w :
  _parse_loop parse self (pre ++ post) out positional_index w =
  (st <- _parse_prefix parse self pre post out positional_index ;;
   _parse_loop parse self post st.1 st.2) w.
Proof.
  revert out positional_index w.
  induction pre as [|[i arg] pre IH]; intros; simpl; [done|].
  rewrite bind_assoc. apply bind_ext. intros st w1. apply IH.
Qed.

Lemma _parse_prefix_all argv_iter out positional_index w :
  _parse_prefix parse self argv_iter [] out positional_index w =
  _parse_loop parse self argv_iter out positional_index w.
Proof.
  revert out positional_index w.
  induction argv_iter as [|[i arg] it IH]; intros; simpl; [done|].
  rewrite app_nil_r. apply bind_ext. intros st w1. apply IH.
Qed.

(** What a dash-prefixed token does, once split at its first [=]. *)
Lemma _parse_token_switch argv_iter out positional_index i tok w c a e v :
  heap w !! self = Some c →
  Py.startswith tok "-" = true →
  Py.partition "=" tok = (a, e, v) →
  _parse_token parse self argv_iter out positional_index i tok w =
  match Dict.get a (switches c) with
  | Some argdef =>
      (r <- parse_arg i (Some a)
              (if String.eqb e EmptyString then None else Some v) argdef ;;
       ret (Dict.merge out r, positional_index)) w
  | None => (Raise (CLE (UnknownSwitch i a)), w)
  end.
Proof.
  intros Hc Hdash Hpart. unfold _parse_token.
  rewrite (bind_ok _ _ _ _ _ (load_ok _ _ _ Hc)), Hdash, Hpart.
  by destruct (Dict.get a (switches c)).
Qed.

Lemma parse_arg_merge i arg val argdef (out : list (string * value))
    (positional_index : nat) w :
  (r <- parse_arg i arg val argdef ;;
   ret (Dict.merge out r, positional_index)) w =
  (st <- (r <- parse_arg i arg val argdef ;;
          ret (Dict.merge [] r, positional_index)) ;;
   ret (Dict.merge out st.1, st.2)) w.
Proof.
  unfold parse_arg. destruct (negb _ && is_None _); [done|].
  rewrite !bind_assoc. by apply bind_ext.
Qed.

(** A token's effect on [out] is [out | r] for a dictionary [r] that
    does not depend on [out]: the one the token yields from an empty
    [out]. *)
Lemma _parse_token_merge argv_iter out positional_index i arg w :
  _parse_token parse self argv_iter out positional_index i arg w =
  (st <- _parse_token parse self argv_iter [] positional_index i arg ;;
   ret (Dict.merge out st.1, st.2)) w.
Proof.
  unfold _parse_token. rewrite bind_assoc. apply bind_ext.
  intros c w1. destruct (Py.startswith arg "-").
  - destruct (Py.partition "=" arg) as [[a e] v].
    destruct (Dict.get a (switches c)) as [d|]; [|done].
    apply parse_arg_merge.
  - destruct (Dict.get arg (subcommands c)) as [cmd|].
    + rewrite bind_assoc. apply bind_ext. intros r w2.
      unfold ret, bind; simpl.
      destruct (String.eqb arg "command") eqn:E; [done|].
      unfold Dict.merge at 2; simpl. by rewrite E.
    + destruct (_ <=? _); [done|].
      destruct (positionals c !! positional_index) as [d|]; [|done].
      apply parse_arg_merge.
Qed.

(** A successful loop merges the tokens' dictionaries into [out], left
    to right. *)
Lemma _parse_loop_yields argv_iter out positional_index w out' pi' w' :
  _parse_loop parse self argv_iter out positional_index w
    = (Ok (out', pi'), w') ↔
  ∃ rs, yields parse self argv_iter positional_index w rs pi' w' ∧
        out' = fold_left Dict.merge rs out.
Proof.
  revert out positional_index w.
  induction argv_iter as [|[i arg] it IH]; intros; simpl.
  - split.
    + intros [= <- <- <-]. exists []. split; [constructor|done].
    + intros (rs & Hy & ->). by inversion Hy; subst.
  - split.
    + intros H. apply bind_inv_ok in H as ([out1 pi1] & w1 & Ht & Hl).
      rewrite _parse_token_merge in Ht.
      apply bind_inv_ok in Ht as ([r pi0] & w0 & Ht & [= <- <- <-]).
      apply IH in Hl as (rs & Hy & ->).
      exists (r :: rs). split; [|done]. econstructor; eauto.
    + intros (rs & Hy & ->).
      inversion Hy as [|? ? ? ? ? r pi1 w1 rs' ? ? Ht Hy']; subst.
      rewrite (bind_ok _ _ _ (Dict.merge out r, pi1) w1).
      * apply IH. eauto.
      * rewrite _parse_token_merge. by rewrite (bind_ok _ _ _ _ _ Ht).
Qed.

Lemma yields_length argv_iter positional_index w rs pi' w' :
  yields parse self argv_iter positional_index w rs pi' w' →
  length rs = length argv_iter.
Proof. induction 1; simpl; auto. Qed.
End _parse_facts.

(** ** Subcommands *)

(** With a non-empty [sys.argv], [parse] never looks at its [binary]
    argument: it enumerates [sys.argv] afresh. *)
Lemma parse_ignores_binary fuel self b1 b2 w :
  sys_argv w ≠ [] → parse fuel self b1 w = parse fuel self b2 w.
Proof.
  intros Hne. destruct fuel as [|fuel]; [done|]. simpl. unfold parse_body.
  rewrite !(bind_ok get_argv _ w (sys_argv w) w) by done.
  by destruct (sys_argv w) as [|a argv].
Qed.

(** What a token that names a subcommand does when the subcommand's
    [parse] returns. *)
Lemma _parse_token_subcommand parse self argv_iter out positional_index
    i tok w c cmd r w' :
  heap w !! self = Some c →
  Py.startswith tok "-" = false →
  Dict.get tok (subcommands c) = Some cmd →
  parse cmd (BinIter argv_iter) w = (Ok r, w') →
  _parse_token parse self argv_iter out positional_index i tok w =
  (Ok (Dict.merge out (Dict.set tok (VDict r) [("command", VStr tok)]),
       positional_index), w').
Proof.
  intros Hc Hdash Hget Hparse. unfold _parse_token.
  rewrite (bind_ok _ _ _ _ _ (load_ok _ _ _ Hc)), Hdash, Hget.
  by rewrite (bind_ok _ _ _ _ _ Hparse).
Qed.

(** C1 (code defect).  On the example schema, with [--count] declared
    either way, and the command line [script.py alice run], the
    subcommand [run] does not parse the tokens after [run]: its [parse]
    starts again at [alice], rejects it as a positional too many, reports
    the error and exits with status -1.  No dictionary is returned. *)
Theorem C1_subcommand_restarts_at_first_token : ∀ optional fuel,
  (example_run optional (S (S fuel))).1 = Raise (SystemExit (-1)) ∧
  stdout (example_run optional (S (S fuel))).2 =
    [ EmptyString;
      _red "Error: " +:+ message (TooManyPositionals 1 "alice") +:+ " "
        +:+ newline +:+ newline +:+ "script.py  " +:+ _red "alice" +:+ " run" ].
Proof. intros [] fuel; vm_compute; done. Qed.

(** The subcommand's [parse] reads the command line from its start: with
    a subcommand [run] that declares one positional, the token [run] itself
    is taken as that positional's value. *)
Example subcommand_reads_its_own_name :
  ((run <- Command_new "run" ;;
    positional run "p" "" (PStr "str") ;;
    root <- Command_new "root" ;;
    subcommand root "run" run ;;
    parse 2 root (BinStr "script.py")) (boot ["script.py"; "run"])).1
  = Ok [("command", VStr "run"); ("run", VDict [("p", VStr "run")])].
Proof. vm_compute. done. Qed.

(** ** The builder's return values *)

Lemma positional_returns_self self name description parser w c :
  name ≠ "command" → heap w !! self = Some c →
  (positional self name description parser w).1 = Ok (VCommand self).
Proof.
  intros Hname Hc. unfold positional.
  apply String.eqb_neq in Hname as ->. simpl.
  rewrite bind_ret, (bind_ok _ _ _ _ _ (load_ok _ _ _ Hc)). done.
Qed.

Lemma subcommand_returns_self self name cmd w c :
  heap w !! self = Some c →
  (subcommand self name cmd w).1 = Ok (VCommand self).
Proof.
  intros Hc. unfold subcommand.
  by rewrite (bind_ok _ _ _ _ _ (load_ok _ _ _ Hc)).
Qed.

Lemma switch_aliases_ok self info aliases w c :
  heap w !! self = Some c →
  ∃ w' c',
    for_ aliases (fun alias =>
      c <- load self ;;
      store self (with_switches c (Dict.set alias info (switches c)))) w
    = (Ok tt, w') ∧ heap w' !! self = Some c'.
Proof.
  revert w c. induction aliases as [|alias aliases IH]; intros w c Hc; simpl.
  - by exists w, c.
  - rewrite bind_assoc, (bind_ok _ _ _ _ _ (load_ok _ _ _ Hc)).
    unfold store at 1, bind at 1. simpl.
    eapply IH. simpl. apply lookup_insert_eq.
Qed.

Lemma switch_returns_self self aliases name description parser optional
    default w c :
  name ≠ "command" → heap w !! self = Some c →
  (switch self aliases name description parser optional default w).1
  = Ok (VCommand self).
Proof.
  intros Hname Hc. unfold switch.
  apply String.eqb_neq in Hname as ->. simpl. rewrite bind_ret.
  destruct (switch_aliases_ok self
              (ArgDef name description parser optional (Some aliases) default)
              aliases w c Hc) as (w' & c' & -> %(bind_ok _ _ _ _ _ ) & _).
  done.
Qed.

(** C2 (code defect).  [optional_positionals] and [optional_subcommands]
    have no [return self]: on every [Command] they return [None], never
    the node, so a call chained on their result fails. *)
Theorem C2_optional_builders_return_None :
  (∀ self w,
     (optional_positionals self w).1 ≠ Ok (VCommand self) ∧
     (optional_subcommands self w).1 ≠ Ok (VCommand self)) ∧
  ((c <- Command_new "c" ;; optional_positionals c) (boot [])).1 = Ok VNone ∧
  ((c <- Command_new "c" ;; optional_subcommands c) (boot [])).1 = Ok VNone ∧
  ((c <- Command_new "c" ;;
    v <- optional_positionals c ;;
    c <- receiver v ;;
    positional c "x" "" (PStr "str")) (boot [])).1 = Raise AttributeError.
Proof.
  split; [|by vm_compute].
  intros self w. unfold optional_positionals, optional_subcommands, bind, load.
  by destruct (heap w !! self).
Qed.

(** ** Accumulation of the result *)

Section accumulation.
Context {V : Type}.
Implicit Types (r : list (string * V)) (rs : list (list (string * V))).

Lemma assigned_snoc k r x o :
  assigned k (r ++ [x]) o = if String.eqb k x.1 then Some x.2 else assigned k r o.
Proof. unfold assigned. by rewrite fold_left_app. Qed.

(** The assignments of [r] override a previous value or keep it. *)
Lemma assigned_or k r o :
  assigned k r o = from_option Some o (assigned k r None).
Proof.
  induction r as [|x r IH] using rev_ind; [done|].
  rewrite !assigned_snoc. by destruct (String.eqb k x.1).
Qed.

Lemma get_fold_merge k rs (out : list (string * V)) :
  Dict.get k (fold_left Dict.merge rs out) =
  fold_left (fun o r => assigned k r o) rs (Dict.get k out).
Proof.
  revert out. induction rs as [|r rs IH]; intros out; simpl; [done|].
  by rewrite IH, get_merge.
Qed.

Lemma fold_assigned_None k rs o :
  Forall (fun r => assigned k r None = None) rs →
  fold_left (fun o r => assigned k r o) rs o = o.
Proof.
  intros H. revert o. induction H as [|r rs Hr _ IH]; intros o; simpl; [done|].
  by rewrite IH, assigned_or, Hr.
Qed.

(** The last writer wins. *)
Lemma last_assigned_app k before r after v :
  assigned k r None = Some v →
  Forall (fun r' => assigned k r' None = None) after →
  last_assigned k (before ++ r :: after) = Some v.
Proof.
  intros Hr Hafter. unfold last_assigned.
  rewrite fold_left_app. simpl.
  by rewrite (fold_assigned_None _ _ _ Hafter), assigned_or, Hr.
Qed.
End accumulation.

(** ** Validation at the end of the stream *)

Lemma check_positionals_spec c out w :
  (check_positionals c out w = (Ok tt, w) ∧
   ∀ p, p ∈ positionals c → arg_optional p = false →
        Dict.mem (arg_name p) out = true) ∨
  (∃ option, check_positionals c out w = (Raise (CLE (MissingOption option)), w)).
Proof.
  unfold check_positionals.
  induction (positionals c) as [|p ps IH]; simpl.
  - left. split; [done|]. by intros p Hp%elem_of_nil.
  - destruct (arg_optional p) eqn:Eo; simpl.
    + rewrite bind_ret. destruct IH as [[-> IH]|[o ->]]; [left|right; eauto].
      split; [done|]. intros q [->|Hq]%elem_of_cons; [congruence|auto].
    + destruct (Dict.mem (arg_name p) out) eqn:Em; simpl.
      * rewrite bind_ret. destruct IH as [[-> IH]|[o ->]]; [left|right; eauto].
        split; [done|]. intros q [->|Hq]%elem_of_cons; auto.
      * right. eauto.
Qed.

Lemma check_subcommands_spec c out w :
  check_subcommands c out w = (Ok tt, w) ∨
  ∃ option, check_subcommands c out w = (Raise (CLE (MissingOption option)), w).
Proof.
  unfold check_subcommands. destruct (_ && _); [right|left]; eauto.
Qed.

(** [fill_defaults] raises [MissingOption], or returns [out] with defaults
    added: what was there stays, every required switch is then present,
    and what is new is the default of a required switch of that name. *)
Lemma fill_defaults_spec l out w :
  Forall (fun s => arg_switches s ≠ None) l →
  (∃ option, fill_defaults l out w = (Raise (CLE (MissingOption option)), w)) ∨
  (∃ out', fill_defaults l out w = (Ok out', w) ∧
     (∀ k v, Dict.get k out = Some v → Dict.get k out' = Some v) ∧
     (∀ s, s ∈ l → arg_optional s = false →
           is_Some (Dict.get (arg_name s) out')) ∧
     (∀ k v, Dict.get k out = None → Dict.get k out' = Some v →
             ∃ s, s ∈ l ∧ arg_name s = k ∧ arg_optional s = false ∧
                  arg_default s = Some v)).
Proof.
  intros Hbuilt. revert out.
  induction Hbuilt as [|s l Hs _ IH]; intros out; simpl.
  { right. exists out. repeat split; [done| |].
    - by intros s Hs%elem_of_nil.
    - intros k v H1 H2. congruence. }
  destruct (arg_optional s) eqn:Eo; simpl.
  - destruct (IH out) as [[o ->]|(out' & -> & Hkeep & Hreq & Hnew)];
      [left; eauto|right].
    exists out'. repeat split; [done| |].
    + intros s' [->|Hs']%elem_of_cons; [congruence|auto].
    + intros k v H1 H2. destruct (Hnew k v H1 H2) as (s' & ? & ?).
      exists s'. split; [by right|done].
  - destruct (Dict.mem (arg_name s) out) eqn:Em; simpl.
    + destruct (IH out) as [[o ->]|(out' & -> & Hkeep & Hreq & Hnew)];
        [left; eauto|right].
      exists out'. repeat split; [done| |].
      * intros s' [->|Hs']%elem_of_cons; [|auto].
        intros _. unfold Dict.mem in Em.
        destruct (Dict.get (arg_name s) out) as [v|] eqn:Eg; [|done].
        rewrite (Hkeep _ _ Eg). eauto.
      * intros k v H1 H2. destruct (Hnew k v H1 H2) as (s' & ? & ?).
        exists s'. split; [by right|done].
    + destruct (arg_default s) as [d|] eqn:Ed.
      * apply mem_false in Em.
        destruct (IH (Dict.set (arg_name s) d out))
          as [[o ->]|(out' & -> & Hkeep & Hreq & Hnew)]; [left; eauto|right].
        exists out'. repeat split; [| |].
        -- intros k v Hk. apply Hkeep. rewrite get_set_ne; [done|].
           intros ->. congruence.
        -- intros s' [->|Hs']%elem_of_cons; [|auto].
           intros _. rewrite (Hkeep (arg_name s) d); [eauto|apply get_set_eq].
        -- intros k v H1 H2.
           destruct (decide (k = arg_name s)) as [->|Hne].
           ++ exists s. rewrite (Hkeep (arg_name s) d) in H2 by apply get_set_eq.
              injection H2 as <-. repeat split; [by left|done..].
           ++ destruct (Hnew k v) as (s' & ? & ?); [by rewrite get_set_ne|done|].
              exists s'. split; [by right|done].
      * destruct (arg_switches s) as [aliases|]; [left; eauto|done].
Qed.

(** What [_parse] does once the loop has returned. *)
Lemma _parse_after_loop fuel self argv_iter w c out0 pi w1 :
  heap w !! self = Some c →
  _parse_loop (parse fuel) self argv_iter [] 0 w = (Ok (out0, pi), w1) →
  _parse fuel self argv_iter w =
  (check_positionals c out0 ;;
   out <- fill_defaults (Dict.values (switches c)) out0 ;;
   check_subcommands c out ;;
   ret out) w1.
Proof.
  intros Hc Hloop. unfold _parse, _parse_body.
  rewrite (bind_ok _ _ _ _ _ Hloop). simpl.
  assert (heap w1 !! self = Some c) as Hc1.
  { pose proof (framed__parse_loop (parse fuel) (framed_parse fuel) self
                  argv_iter [] 0 w) as (_ & Hh & _).
    rewrite Hloop in Hh. simpl in Hh. by rewrite Hh. }
  by rewrite (bind_ok _ _ _ _ _ (load_ok _ _ _ Hc1)).
Qed.

(** The outcomes of the validation, for a schema as [switch] builds it. *)
Lemma _parse_validation fuel self argv_iter w c out0 pi w1 :
  heap w !! self = Some c →
  switches_built c →
  _parse_loop (parse fuel) self argv_iter [] 0 w = (Ok (out0, pi), w1) →
  (∃ option,
     _parse fuel self argv_iter w = (Raise (CLE (MissingOption option)), w1)) ∨
  (∃ out, _parse fuel self argv_iter w = (Ok out, w1) ∧
     (∀ p, p ∈ positionals c → arg_optional p = false →
           Dict.mem (arg_name p) out0 = true) ∧
     (∀ k v, Dict.get k out0 = Some v → Dict.get k out = Some v) ∧
     (∀ s, s ∈ Dict.values (switches c) → arg_optional s = false →
           is_Some (Dict.get (arg_name s) out)) ∧
     (∀ k v, Dict.get k out0 = None → Dict.get k out = Some v →
             ∃ s, s ∈ Dict.values (switches c) ∧ arg_name s = k ∧
                  arg_optional s = false ∧ arg_default s = Some v)).
Proof.
  intros Hc Hbuilt Hloop.
  rewrite (_parse_after_loop _ _ _ _ _ _ _ _ Hc Hloop).
  destruct (check_positionals_spec c out0 w1) as [[Hp Hpos]|[o Hp]];
    [|left; exists o; by apply bind_raise].
  rewrite (bind_ok _ _ _ _ _ Hp).
  destruct (fill_defaults_spec (Dict.values (switches c)) out0 w1)
    as [[o Hf]|(out & Hf & Hkeep & Hreq & Hnew)];
    [by apply Forall_forall|left; exists o; by apply bind_raise|].
  rewrite (bind_ok _ _ _ _ _ Hf).
  destruct (check_subcommands_spec c out w1) as [Hs|[o Hs]];
    [|left; exists o; by apply bind_raise].
  rewrite (bind_ok _ _ _ _ _ Hs). right. exists out. done.
Qed.

(** C3.  The result is accumulated by right-biased merges.  When
    [_parse] returns [out], the tokens have yielded dictionaries [rs], one
    each and in order, and for every key the dictionary that assigns it
    last decides its value in [out]: a later token's value overwrites an
    earlier one's.  For an integer switch [x] aliased to [--x], parsing
    [--x=1 --x=2] gives [x] the value 2. *)
Theorem C3_right_biased_merge :
  (∀ fuel self argv_iter w out w',
     _parse fuel self argv_iter w = (Ok out, w') →
     ∃ rs pi w1,
       yields (parse fuel) self argv_iter 0 w rs pi w1 ∧
       length rs = length argv_iter ∧
       (∀ k v, last_assigned k rs = Some v → Dict.get k out = Some v) ∧
       (∀ k before r after v,
          rs = before ++ r :: after →
          assigned k r None = Some v →
          Forall (fun r' => assigned k r' None = None) after →
          Dict.get k out = Some v)) ∧
  (∀ (a b : list (string * value)) k,
     Dict.get k (Dict.merge a b) = assigned k b (Dict.get k a)) ∧
  (∃ out w',
     parse 1 0 (BinStr "script.py")
       (x_world (PStr "int") ["script.py"; "--x=1"; "--x=2"]) = (Ok out, w') ∧
     Dict.get "x" out = Some (VInt 2)).
Proof.
  split; [|split; [intros; apply get_merge|by eexists _, _]].
  intros fuel self argv_iter w out w' Hparse.
  assert (∃ out0 pi w1,
            _parse_loop (parse fuel) self argv_iter [] 0 w = (Ok (out0, pi), w1) ∧
            ∀ k v, Dict.get k out0 = Some v → Dict.get k out = Some v)
    as (out0 & pi & w1 & Hloop & Hkeep).
  { unfold _parse, _parse_body in Hparse.
    apply bind_inv_ok in Hparse as ([out0 pi] & w1 & Hloop & Hrest).
    exists out0, pi, w1. split; [done|]. simpl in Hrest.
    apply bind_inv_ok in Hrest as (c & w2 & _ & Hrest).
    apply bind_inv_ok in Hrest as ([] & w3 & _ & Hrest).
    apply bind_inv_ok in Hrest as (out1 & w4 & Hfill & Hrest).
    apply bind_inv_ok in Hrest as ([] & w5 & _ & [= <- _]).
    clear -Hfill. revert out0 w3 Hfill.
    induction (Dict.values (switches c)) as [|s l IH]; intros out0 w3; simpl.
    - by intros [= <- _].
    - destruct (negb (arg_optional s) && negb (Dict.mem (arg_name s) out0))
        eqn:E; [|by apply IH].
      destruct (arg_default s) as [d|]; [|by destruct (arg_switches s)].
      intros Hfill k v Hk. apply (IH _ _ Hfill).
      rewrite get_set_ne; [done|]. intros ->.
      apply andb_prop in E as [_ E]. apply negb_true_iff, mem_false in E.
      congruence. }
  apply _parse_loop_yields in Hloop as (rs & Hy & ->).
  assert (∀ k v, last_assigned k rs = Some v → Dict.get k out = Some v) as Hlast.
  { intros k v Hk. apply Hkeep. by rewrite get_fold_merge. }
  exists rs, pi, w1. split; [done|].
  split; [by eapply yields_length|]. split; [done|].
  intros k before r after v -> Hr Hafter.
  by apply Hlast, last_assigned_app.
Qed.

Lemma C3_right_biased_merge_witness :
  ∃ rs pi w1,
    yields (parse 1) 0 [(1, "--x=1"); (2, "--x=2")] 0
      (x_world (PStr "int") ["script.py"; "--x=1"; "--x=2"]) rs pi w1 ∧
    length rs = length [(1, "--x=1"); (2, "--x=2")] ∧
    (∀ k v, last_assigned k rs = Some v →
            Dict.get k [("x", VInt 2)] = Some v) ∧
    (∀ k before r after v,
       rs = before ++ r :: after →
       assigned k r None = Some v →
       Forall (fun r' => assigned k r' None = None) after →
       Dict.get k [("x", VInt 2)] = Some v).
Proof.
  apply (proj1 C3_right_biased_merge 1 0 [(1, "--x=1"); (2, "--x=2")]
           (x_world (PStr "int") ["script.py"; "--x=1"; "--x=2"])
           [("x", VInt 2)]
           (x_world (PStr "int") ["script.py"; "--x=1"; "--x=2"])).
  reflexivity.
Defined.

Lemma mem_set_mono {V} k k' (v : V) d :
  Dict.mem k d = true → Dict.mem k (Dict.set k' v d) = true.
Proof.
  unfold Dict.mem. rewrite get_set.
  by destruct (String.eqb k k'), (Dict.get k d).
Qed.

Lemma check_positionals_returns c out w :
  (∀ p, p ∈ positionals c → arg_optional p = false →
        Dict.mem (arg_name p) out = true) →
  check_positionals c out w = (Ok tt, w).
Proof.
  unfold check_positionals.
  induction (positionals c) as [|p ps IH]; intros H; simpl; [done|].
  destruct (arg_optional p) eqn:Eo; simpl.
  - rewrite bind_ret. apply IH. intros q Hq. apply H. by right.
  - rewrite (H p); [|by left|done]. simpl. rewrite bind_ret.
    apply IH. intros q Hq. apply H. by right.
Qed.

Lemma fill_defaults_returns l out w :
  (∀ s, s ∈ l → arg_optional s = false →
        is_Some (arg_default s) ∨ Dict.mem (arg_name s) out = true) →
  ∃ out', fill_defaults l out w = (Ok out', w).
Proof.
  revert out. induction l as [|s l IH]; intros out H; simpl; [by eexists|].
  destruct (arg_optional s) eqn:Eo; simpl.
  { apply IH. intros s' Hs'. apply H. by right. }
  destruct (Dict.mem (arg_name s) out) eqn:Em; simpl.
  { apply IH. intros s' Hs'. apply H. by right. }
  destruct (H s) as [[d Hd]|?]; [by left|done| |congruence].
  rewrite Hd. apply IH. intros s' Hs' Hreq.
  destruct (H s') as [?|Hm]; [by right|done|by left|].
  right. by apply mem_set_mono.
Qed.

(** C4, as amended.  Let the loop over the tokens return [out0], on a
    schema as the builder makes it.  A required positional whose name is
    not in [out0] makes [_parse] raise [MissingOption]; so does a required
    switch without default whose name is not in [out0].  For a required
    switch with a default whose name is not in [out0], [_parse] raises
    [MissingOption] (for something else that is missing) or returns a
    result with the default under the switch's name.  An optional switch
    whose name is not in [out0] is left out of the result, default or
    not.  When no required positional is missing, every required switch
    that is missing has a default, and the subcommand is there if one is
    required, [_parse] returns a result. *)
Theorem C4_end_of_stream_validation fuel self argv_iter w c out0 pi w1 :
  heap w !! self = Some c →
  switches_built c →
  switch_names_unique c →
  _parse_loop (parse fuel) self argv_iter [] 0 w = (Ok (out0, pi), w1) →
  let missing :=
    ∃ option,
      _parse fuel self argv_iter w = (Raise (CLE (MissingOption option)), w1) in
  (∀ p, p ∈ positionals c → arg_optional p = false →
        Dict.get (arg_name p) out0 = None → missing) ∧
  (∀ s, s ∈ Dict.values (switches c) → arg_optional s = false →
        Dict.get (arg_name s) out0 = None →
        match arg_default s with
        | None => missing
        | Some v =>
            missing ∨
            ∃ out, _parse fuel self argv_iter w = (Ok out, w1) ∧
                   Dict.get (arg_name s) out = Some v
        end) ∧
  (∀ s, s ∈ Dict.values (switches c) → arg_optional s = true →
        Dict.get (arg_name s) out0 = None →
        ∀ out w', _parse fuel self argv_iter w = (Ok out, w') →
                  Dict.get (arg_name s) out = None) ∧
  ((∀ p, p ∈ positionals c → arg_optional p = false →
         Dict.mem (arg_name p) out0 = true) →
   (∀ s, s ∈ Dict.values (switches c) → arg_optional s = false →
         is_Some (arg_default s) ∨ Dict.mem (arg_name s) out0 = true) →
   subcommands c = [] ∨ subcommands_optional c = true
     ∨ Dict.mem "command" out0 = true →
   ∃ out, _parse fuel self argv_iter w = (Ok out, w1)).
Proof.
  intros Hc Hbuilt Huniq Hloop missing.
  assert ((∀ p, p ∈ positionals c → arg_optional p = false →
             Dict.mem (arg_name p) out0 = true) →
          (∀ s, s ∈ Dict.values (switches c) → arg_optional s = false →
             is_Some (arg_default s) ∨ Dict.mem (arg_name s) out0 = true) →
          subcommands c = [] ∨ subcommands_optional c = true
            ∨ Dict.mem "command" out0 = true →
          ∃ out, _parse fuel self argv_iter w = (Ok out, w1)) as Hreturns.
  { intros Hp Hs Hsub.
    rewrite (_parse_after_loop _ _ _ _ _ _ _ _ Hc Hloop).
    rewrite (bind_ok _ _ _ _ _ (check_positionals_returns _ _ w1 Hp)).
    destruct (fill_defaults_returns _ _ w1 Hs) as [out Hfill].
    rewrite (bind_ok _ _ _ _ _ Hfill). exists out.
    assert (check_subcommands c out w1 = (Ok tt, w1)) as Hcheck;
      [|by rewrite (bind_ok _ _ _ _ _ Hcheck)].
    unfold check_subcommands.
    destruct Hsub as [-> | [-> | Hcmd]]; [done|by rewrite andb_false_r|].
    destruct (fill_defaults_spec (Dict.values (switches c)) out0 w1)
      as [[o Hf]|(out' & Hf & Hkeep & _)];
      [by apply Forall_forall|congruence|].
    assert (out' = out) as -> by congruence.
    unfold Dict.mem in *.
    destruct (Dict.get "command" out0) as [v|] eqn:Ev; [|done].
    rewrite (Hkeep _ _ Ev). simpl. by rewrite andb_false_r. }
  destruct (_parse_validation _ _ _ _ _ _ _ _ Hc Hbuilt Hloop)
    as [Hm|(out & Hout & Hpos & Hkeep & Hreq & Hnew)].
  { repeat split.
    - done.
    - intros s _ _ _. destruct (arg_default s); [by left|done].
    - intros s _ _ _ out w' Hout. destruct Hm as [o Hm]. congruence.
    - done. }
  repeat split; [| | |done].
  - intros p Hp Hreqp Habs. apply mem_false in Habs.
    specialize (Hpos p Hp Hreqp). congruence.
  - intros s Hs Hreqs Habs.
    destruct (Hreq s Hs Hreqs) as [v Hv].
    destruct (Hnew _ _ Habs Hv) as (s' & Hs' & Hname & _ & Hd).
    assert (s' = s) as -> by by apply Huniq.
    rewrite Hd. right. eauto.
  - intros s Hs Hopt Habs out' w' Hout'.
    assert (out' = out) as -> by congruence.
    destruct (Dict.get (arg_name s) out) as [v|] eqn:Hv; [|done].
    destruct (Hnew _ _ Habs Hv) as (s' & Hs' & Hname & Hreq' & _).
    assert (s' = s) as -> by by apply Huniq.
    congruence.
Qed.

Lemma C4_end_of_stream_validation_witness :
  (∃ option,
     _parse 1 0 [(1, "alice")] (count_world false ["script.py"; "alice"])
     = (Raise (CLE (MissingOption option)),
        count_world false ["script.py"; "alice"])) ∨
  (∃ out,
     _parse 1 0 [(1, "alice")] (count_world false ["script.py"; "alice"])
     = (Ok out, count_world false ["script.py"; "alice"]) ∧
     Dict.get "count" out = Some (VInt 5)).
Proof.
  assert (switches_built (count_command false)) as Hbuilt.
  { intros s Hs. apply list_elem_of_singleton in Hs. by subst. }
  assert (switch_names_unique (count_command false)) as Huniq.
  { intros s s' Hs Hs' _.
    apply list_elem_of_singleton in Hs, Hs'. by subst. }
  apply (proj1 (proj2
           (C4_end_of_stream_validation 1 0 [(1, "alice")]
              (count_world false ["script.py"; "alice"])
              (count_command false) [("name", VStr "alice")] 1
              (count_world false ["script.py"; "alice"])
              eq_refl Hbuilt Huniq eq_refl))
           (count_switch false)); [|reflexivity..].
  apply list_elem_of_singleton. reflexivity.
Defined.

(** C4 as stated fails: the optional switch [--count] has the default 5
    and is not supplied, and the result has no [count]. *)
Lemma C4_optional_default_not_filled :
  arg_default (count_switch true) = Some (VInt 5) ∧
  Dict.get "--count" (switches (count_command true)) = Some (count_switch true) ∧
  heap (count_world true ["script.py"; "alice"]) !! 0 = Some (count_command true) ∧
  parse 1 0 (BinStr "script.py") (count_world true ["script.py"; "alice"])
  = (Ok [("name", VStr "alice")], count_world true ["script.py"; "alice"]) ∧
  Dict.get "count" [("name", VStr "alice")] = (None : option value).
Proof. repeat split. Qed.

(** The same command line with the switch required: the default is
    filled in. *)
Example required_default_filled :
  parse 1 0 (BinStr "script.py") (count_world false ["script.py"; "alice"])
  = (Ok [("name", VStr "alice"); ("count", VInt 5)],
     count_world false ["script.py"; "alice"]).
Proof. reflexivity. Qed.

(** ** Tokens that end the parse, switches without a value *)

Lemma framed__parse_prefix parse self pre post out positional_index :
  (∀ self binary, framed (parse self binary)) →
  framed (_parse_prefix parse self pre post out positional_index).
Proof.
  intros Hrec. revert out positional_index.
  induction pre as [|[i arg] pre IH]; intros; simpl; [apply framed_ret|].
  apply framed_bind; [by apply framed__parse_token|auto].
Qed.

(** When the tokens before [(i, tok)] are accepted and [tok] raises,
    [_parse] raises the same. *)
Lemma _parse_raises_at fuel self pre i tok post w out1 pi1 w1 e w2 :
  _parse_prefix (parse fuel) self pre ((i, tok) :: post) [] 0 w
    = (Ok (out1, pi1), w1) →
  _parse_token (parse fuel) self post out1 pi1 i tok w1 = (Raise e, w2) →
  _parse fuel self (pre ++ (i, tok) :: post) w = (Raise e, w2).
Proof.
  intros Hpre Htok. unfold _parse, _parse_body.
  apply bind_raise. rewrite _parse_loop_app.
  rewrite (bind_ok _ _ _ _ _ Hpre). simpl.
  by apply bind_raise.
Qed.

(** When [tok] raises whenever the tokens before it are accepted,
    [_parse] does not return. *)
Lemma _parse_fails_at fuel self pre i tok post w :
  (∀ out1 pi1 w1,
     _parse_prefix (parse fuel) self pre ((i, tok) :: post) [] 0 w
       = (Ok (out1, pi1), w1) →
     ∃ e w2,
       _parse_token (parse fuel) self post out1 pi1 i tok w1 = (Raise e, w2)) →
  ∀ out, (_parse fuel self (pre ++ (i, tok) :: post) w).1 ≠ Ok out.
Proof.
  intros Htok out.
  destruct (_parse_prefix (parse fuel) self pre ((i, tok) :: post) [] 0 w)
    as [[[out1 pi1]|e|] w1] eqn:Hpre.
  - destruct (Htok _ _ _ eq_refl) as (e & w2 & He).
    by rewrite (_parse_raises_at _ _ _ _ _ _ _ _ _ _ _ _ Hpre He).
  - unfold _parse, _parse_body.
    rewrite (bind_raise _ _ w e w1); [done|].
    rewrite _parse_loop_app. by apply bind_raise.
  - unfold _parse, _parse_body. rewrite bind_out_of_fuel; [done|].
    rewrite _parse_loop_app. apply bind_out_of_fuel. by rewrite Hpre.
Qed.

(** The heap that the tokens before [(i, tok)] leave. *)
Lemma _parse_prefix_heap fuel self pre post out positional_index w st w1 c :
  heap w !! self = Some c →
  _parse_prefix (parse fuel) self pre post out positional_index w = (Ok st, w1) →
  heap w1 !! self = Some c.
Proof.
  intros Hc Hpre.
  pose proof (framed__parse_prefix (parse fuel) self pre post out
                positional_index (framed_parse fuel) w) as (_ & Hh & _).
  rewrite Hpre in Hh. simpl in Hh. by rewrite Hh.
Qed.

Lemma parse_arg_None i arg argdef w :
  parser_is (arg_parser argdef) "bool" = false →
  parse_arg i arg None argdef w = (Raise (CLE (ValueNotProvided i)), w).
Proof. intros H. unfold parse_arg. by rewrite H. Qed.

Lemma parse_arg_bool_None i arg argdef w :
  arg_parser argdef = PStr "bool" →
  parse_arg i arg None argdef w = (Ok [(arg_name argdef, VBool true)], w).
Proof. intros H. unfold parse_arg. by rewrite H. Qed.

Lemma _parse_token_bare_switch parse self argv_iter out positional_index
    i tok w c argdef :
  heap w !! self = Some c →
  Py.startswith tok "-" = true →
  bare tok →
  Dict.get tok (switches c) = Some argdef →
  _parse_token parse self argv_iter out positional_index i tok w =
  (r <- parse_arg i (Some tok) None argdef ;;
   ret (Dict.merge out r, positional_index)) w.
Proof.
  intros Hc Hdash Hbare Hget.
  rewrite (_parse_token_switch _ _ _ _ _ _ _ _ _ _ _ _ Hc Hdash Hbare).
  by rewrite Hget.
Qed.

Lemma _parse_bare_switch_non_bool fuel self pre i tok post w out1 pi1 w1 c argdef :
  heap w !! self = Some c →
  _parse_prefix (parse fuel) self pre ((i, tok) :: post) [] 0 w
    = (Ok (out1, pi1), w1) →
  Py.startswith tok "-" = true →
  bare tok →
  Dict.get tok (switches c) = Some argdef →
  parser_is (arg_parser argdef) "bool" = false →
  _parse fuel self (pre ++ (i, tok) :: post) w
    = (Raise (CLE (ValueNotProvided i)), w1).
Proof.
  intros Hc Hpre Hdash Hbare Hget Hnb.
  eapply _parse_raises_at; [exact Hpre|].
  pose proof (_parse_prefix_heap _ _ _ _ _ _ _ _ _ _ Hc Hpre) as Hc1.
  rewrite (_parse_token_bare_switch _ _ _ _ _ _ _ _ _ _ Hc1 Hdash Hbare Hget).
  apply bind_raise. by apply parse_arg_None.
Qed.

(** C5.  Let [tok], the token at index [i], be a registered switch alias
    with no [=value].  If the switch's spec is ["str"], ["int"] or
    ["float"], [_parse] does not return, and once the tokens before [tok]
    are accepted it raises [ValueNotProvided(i)].  If the spec is
    ["bool"], the token parses to [True]: it merges [{name: True}] into
    the result. *)
Theorem C5_switch_without_value fuel self pre i tok post w c argdef :
  heap w !! self = Some c →
  Py.startswith tok "-" = true →
  bare tok →
  Dict.get tok (switches c) = Some argdef →
  (builtin_non_bool (arg_parser argdef) →
   (∀ out1 pi1 w1,
      _parse_prefix (parse fuel) self pre ((i, tok) :: post) [] 0 w
        = (Ok (out1, pi1), w1) →
      _parse fuel self (pre ++ (i, tok) :: post) w
        = (Raise (CLE (ValueNotProvided i)), w1)) ∧
   (∀ out, (_parse fuel self (pre ++ (i, tok) :: post) w).1 ≠ Ok out)) ∧
  (arg_parser argdef = PStr "bool" →
   ∀ out1 pi1 w1,
     _parse_prefix (parse fuel) self pre ((i, tok) :: post) [] 0 w
       = (Ok (out1, pi1), w1) →
     _parse_token (parse fuel) self post out1 pi1 i tok w1
       = (Ok (Dict.merge out1 [(arg_name argdef, VBool true)], pi1), w1)).
Proof.
  intros Hc Hdash Hbare Hget. split.
  - intros Hb.
    assert (parser_is (arg_parser argdef) "bool" = false) as Hnb
      by by destruct Hb as [-> | [-> | ->]].
    split.
    + intros out1 pi1 w1 Hpre. eapply _parse_bare_switch_non_bool; eauto.
    + apply _parse_fails_at. intros out1 pi1 w1 Hpre.
      pose proof (_parse_prefix_heap _ _ _ _ _ _ _ _ _ _ Hc Hpre) as Hc1.
      rewrite (_parse_token_bare_switch _ _ _ _ _ _ _ _ _ _ Hc1 Hdash Hbare
                 Hget).
      eexists _, _. apply bind_raise. by apply parse_arg_None.
  - intros Hb out1 pi1 w1 Hpre.
    pose proof (_parse_prefix_heap _ _ _ _ _ _ _ _ _ _ Hc Hpre) as Hc1.
    rewrite (_parse_token_bare_switch _ _ _ _ _ _ _ _ _ _ Hc1 Hdash Hbare Hget).
    by rewrite (bind_ok _ _ _ _ _ (parse_arg_bool_None _ _ _ _ Hb)).
Qed.

Lemma C5_switch_without_value_witness :
  _parse 1 0 [(1, "--x")] (x_world (PStr "int") ["script.py"; "--x"])
    = (Raise (CLE (ValueNotProvided 1)),
       x_world (PStr "int") ["script.py"; "--x"]) ∧
  _parse_token (parse 1) 0 [] [] 0 1 "--x"
    (x_world (PStr "bool") ["script.py"; "--x"])
    = (Ok (Dict.merge [] [("x", VBool true)], 0),
       x_world (PStr "bool") ["script.py"; "--x"]).
Proof.
  split.
  - apply (proj1 (proj1 (C5_switch_without_value 1 0 [] 1 "--x" []
                    (x_world (PStr "int") ["script.py"; "--x"])
                    (x_command (PStr "int")) (x_switch (PStr "int"))
                    eq_refl eq_refl eq_refl eq_refl)
                    (or_intror (or_introl eq_refl)))
             [] 0 (x_world (PStr "int") ["script.py"; "--x"]) eq_refl).
  - apply (proj2 (C5_switch_without_value 1 0 [] 1 "--x" []
                    (x_world (PStr "bool") ["script.py"; "--x"])
                    (x_command (PStr "bool")) (x_switch (PStr "bool"))
                    eq_refl eq_refl eq_refl eq_refl) eq_refl
             [] 0 (x_world (PStr "bool") ["script.py"; "--x"]) eq_refl).
Defined.

(** C6.  Let [tok], the token at index [i], start with [-], and let the
    part of [tok] before its first [=] not be an alias of the [Command]
    being parsed.  Then [_parse] does not return, and once the tokens
    before [tok] are accepted it raises [UnknownSwitch] with index [i]
    (and that part as the switch). *)
Theorem C6_unknown_switch fuel self pre i tok post w c a e v :
  heap w !! self = Some c →
  Py.startswith tok "-" = true →
  Py.partition "=" tok = (a, e, v) →
  Dict.get a (switches c) = None →
  (∀ out1 pi1 w1,
     _parse_prefix (parse fuel) self pre ((i, tok) :: post) [] 0 w
       = (Ok (out1, pi1), w1) →
     _parse fuel self (pre ++ (i, tok) :: post) w
       = (Raise (CLE (UnknownSwitch i a)), w1)) ∧
  (∀ out, (_parse fuel self (pre ++ (i, tok) :: post) w).1 ≠ Ok out) ∧
  e_index (UnknownSwitch i a) = Some i.
Proof.
  intros Hc Hdash Hpart Hget.
  assert (∀ out1 pi1 w1,
            _parse_prefix (parse fuel) self pre ((i, tok) :: post) [] 0 w
              = (Ok (out1, pi1), w1) →
            _parse_token (parse fuel) self post out1 pi1 i tok w1
              = (Raise (CLE (UnknownSwitch i a)), w1)) as Htok.
  { intros out1 pi1 w1 Hpre.
    pose proof (_parse_prefix_heap _ _ _ _ _ _ _ _ _ _ Hc Hpre) as Hc1.
    rewrite (_parse_token_switch _ _ _ _ _ _ _ _ _ _ _ _ Hc1 Hdash Hpart).
    by rewrite Hget. }
  split; [|split; [|done]].
  - intros out1 pi1 w1 Hpre. eapply _parse_raises_at; eauto.
  - apply _parse_fails_at. intros out1 pi1 w1 Hpre. eauto.
Qed.

Lemma C6_unknown_switch_witness :
  _parse 1 0 [(1, "--x=1"); (2, "--y=2"); (3, "--x=3")]
    (x_world (PStr "int") ["script.py"; "--x=1"; "--y=2"; "--x=3"])
  = (Raise (CLE (UnknownSwitch 2 "--y")),
     x_world (PStr "int") ["script.py"; "--x=1"; "--y=2"; "--x=3"]).
Proof.
  apply (proj1 (C6_unknown_switch 1 0 [(1, "--x=1")] 2 "--y=2" [(3, "--x=3")]
           (x_world (PStr "int") ["script.py"; "--x=1"; "--y=2"; "--x=3"])
           (x_command (PStr "int")) "--y" "=" "2"
           eq_refl eq_refl eq_refl eq_refl)
           [("x", VInt 1)] 0
           (x_world (PStr "int") ["script.py"; "--x=1"; "--y=2"; "--x=3"])
           eq_refl).
Defined.

(** C10.  The absent-value check comes before the dispatch on the spec:
    for every spec other than ["bool"] (an enum list and a callable among
    them) [parse_arg] with an absent raw value raises [ValueNotProvided(i)]
    and changes nothing, no call is made; so does [_parse] at a registered
    switch token without [=value]; and every call of a callable that a run
    of [parse] makes has a raw value. *)
Theorem C10_absent_value_checked_first :
  (∀ i arg argdef w,
     parser_is (arg_parser argdef) "bool" = false →
     parse_arg i arg None argdef w = (Raise (CLE (ValueNotProvided i)), w)) ∧
  (∀ vals, parser_is (PList vals) "bool" = false) ∧
  (∀ f, parser_is (PCallable f) "bool" = false) ∧
  (∀ fuel self pre i tok post w out1 pi1 w1 c argdef,
     heap w !! self = Some c →
     _parse_prefix (parse fuel) self pre ((i, tok) :: post) [] 0 w
       = (Ok (out1, pi1), w1) →
     Py.startswith tok "-" = true →
     bare tok →
     Dict.get tok (switches c) = Some argdef →
     parser_is (arg_parser argdef) "bool" = false →
     _parse fuel self (pre ++ (i, tok) :: post) w
       = (Raise (CLE (ValueNotProvided i)), w1)) ∧
  (∀ fuel self binary w,
     ∃ cs, calls (parse fuel self binary w).2 = calls w ++ cs ∧
           Forall (fun c => c.2 ≠ None) cs).
Proof.
  split; [exact parse_arg_None|].
  split; [done|]. split; [done|].
  split; [exact _parse_bare_switch_non_bool|].
  intros fuel self binary w.
  by destruct (framed_parse fuel self binary w) as (_ & _ & _ & Hcs).
Qed.

Lemma C10_absent_value_checked_first_witness :
  parse_arg 1 (Some "--x") None (x_switch (PCallable echo))
    (x_world (PCallable echo) ["script.py"; "--x"])
  = (Raise (CLE (ValueNotProvided 1)),
     x_world (PCallable echo) ["script.py"; "--x"]) ∧
  _parse 1 0 [(1, "--x")] (x_world (PList ["a"; "b"]) ["script.py"; "--x"])
  = (Raise (CLE (ValueNotProvided 1)),
     x_world (PList ["a"; "b"]) ["script.py"; "--x"]).
Proof.
  split.
  - apply (proj1 C10_absent_value_checked_first 1 (Some "--x")
             (x_switch (PCallable echo))
             (x_world (PCallable echo) ["script.py"; "--x"]) eq_refl).
  - apply (proj1 (proj2 (proj2 (proj2 C10_absent_value_checked_first)))
             1 0 [] 1 "--x" []
             (x_world (PList ["a"; "b"]) ["script.py"; "--x"]) [] 0
             (x_world (PList ["a"; "b"]) ["script.py"; "--x"])
             (x_command (PList ["a"; "b"])) (x_switch (PList ["a"; "b"]))
             eq_refl eq_refl eq_refl eq_refl eq_refl eq_refl).
Defined.

(** ** A switch token that ends in [=] *)

Lemma partition_bare_eq a :
  bare a → Py.partition "=" (a +:+ "=") = (a, "=", EmptyString).
Proof.
  unfold bare. induction a as [|ch a IH]; [done|].
  change (String ch a +:+ "=") with (String ch (a +:+ "=")). simpl.
  destruct (Ascii.eqb ch "=") eqn:E; [done|].
  destruct (Py.partition "=" a) as [[x y] z] eqn:Ep.
  intros [= -> -> ->]. by rewrite IH.
Qed.

(** C9, as amended.  A switch token [a=] with nothing after the [=] has
    the empty string as its raw value.  With spec ["str"] it parses to
    the empty string; with ["int"], ["float"] or ["bool"] it raises
    [InvalidOption] at the token's index; with an enum list it raises
    [InvalidOption] at that index unless the list has the empty string
    among its members, and then it parses to the empty string.  Unless the
    spec is a callable, it does not raise [ValueNotProvided]. *)
Theorem C9_switch_ending_in_equals parse self argv_iter out positional_index
    i a w c argdef :
  heap w !! self = Some c →
  Py.startswith (a +:+ "=") "-" = true →
  bare a →
  Dict.get a (switches c) = Some argdef →
  let step :=
    _parse_token parse self argv_iter out positional_index i (a +:+ "=") w in
  let accepted :=
    (Ok (Dict.merge out [(arg_name argdef, VStr EmptyString)],
         positional_index), w) in
  let invalid expected :=
    (Raise (CLE (InvalidOption i expected (Some EmptyString))), w) in
  (arg_parser argdef = PStr "str" → step = accepted) ∧
  (arg_parser argdef = PStr "int" → step = invalid "int") ∧
  (arg_parser argdef = PStr "float" → step = invalid "float") ∧
  (arg_parser argdef = PStr "bool" → step = invalid "bool switch") ∧
  (∀ vals, arg_parser argdef = PList vals →
     step = if Py.contains EmptyString vals then accepted
            else invalid (Py.join "/" vals)) ∧
  ((∀ f, arg_parser argdef ≠ PCallable f) →
   ∀ j, step.1 ≠ Raise (CLE (ValueNotProvided j))).
Proof.
  intros Hc Hdash Hbare Hget step accepted invalid.
  assert (step = (r <- parse_arg i (Some a) (Some EmptyString) argdef ;;
                  ret (Dict.merge out r, positional_index)) w) as ->.
  { unfold step.
    rewrite (_parse_token_switch _ _ _ _ _ _ _ _ _ _ _ _ Hc Hdash
               (partition_bare_eq a Hbare)).
    by rewrite Hget. }
  unfold parse_arg, accepted, invalid. simpl is_None. rewrite andb_false_r.
  repeat split.
  - by intros ->.
  - by intros ->.
  - by intros ->.
  - by intros ->.
  - intros vals ->. simpl. by destruct (Py.contains _ vals).
  - intros Hnc j. destruct (arg_parser argdef) as [p|vals|f]; simpl.
    + unfold bind, ret, raise.
      repeat (match goal with
              | |- context [if ?b then _ else _] => destruct b
              end; simpl; try done).
    + by destruct (Py.contains _ vals).
    + by destruct (Hnc f).
Qed.

Lemma C9_switch_ending_in_equals_witness :
  _parse_token (parse 1) 0 [] [] 0 1 "--x="
    (x_world (PStr "str") ["script.py"; "--x="])
  = (Ok (Dict.merge [] [("x", VStr EmptyString)], 0),
     x_world (PStr "str") ["script.py"; "--x="]) ∧
  _parse_token (parse 1) 0 [] [] 0 1 "--x="
    (x_world (PStr "int") ["script.py"; "--x="])
  = (Raise (CLE (InvalidOption 1 "int" (Some EmptyString))),
     x_world (PStr "int") ["script.py"; "--x="]).
Proof.
  split.
  - apply (proj1 (C9_switch_ending_in_equals (parse 1) 0 [] [] 0 1 "--x"
                    (x_world (PStr "str") ["script.py"; "--x="])
                    (x_command (PStr "str")) (x_switch (PStr "str"))
                    eq_refl eq_refl eq_refl eq_refl) eq_refl).
  - apply (proj1 (proj2 (C9_switch_ending_in_equals (parse 1) 0 [] [] 0 1 "--x"
                    (x_world (PStr "int") ["script.py"; "--x="])
                    (x_command (PStr "int")) (x_switch (PStr "int"))
                    eq_refl eq_refl eq_refl eq_refl)) eq_refl).
Defined.

(** C9 as stated fails: with the enum list [["", "a"]] the token [--x=] is
    accepted and parses to the empty string; no [InvalidOption] is raised. *)
Lemma C9_enum_with_empty_member_accepts :
  _parse 1 0 [(1, "--x=")] (x_world (PList [EmptyString; "a"]) ["script.py"; "--x="])
  = (Ok [("x", VStr EmptyString)],
     x_world (PList [EmptyString; "a"]) ["script.py"; "--x="]) ∧
  ¬ ∃ expected got,
      (_parse 1 0 [(1, "--x=")]
         (x_world (PList [EmptyString; "a"]) ["script.py"; "--x="])).1
      = Raise (CLE (InvalidOption 1 expected got)).
Proof.
  split; [reflexivity|]. by intros (expected & got & H).
Qed.

(** ** How [parse] reports an error *)

(** With arguments on the command line and no [--help], an error that
    [_parse] raises is printed by [parse], which then exits. *)
Lemma parse_reports_error fuel self binary w a argv e w1 :
  sys_argv w = a :: argv →
  (length (a :: argv) <=? 1) || Py.contains "--help" (a :: argv) = false →
  _parse fuel self (tail (Py.enumerate (a :: argv))) w = (Raise (CLE e), w1) →
  parse (S fuel) self binary w =
  (print EmptyString ;;
   msg <- render_message e (a :: argv) ;;
   print msg ;;
   sys_exit (-1)) w1.
Proof.
  intros Hargv Hcond Hparse. simpl parse. unfold parse_body.
  rewrite (bind_ok get_argv _ w (a :: argv) w) by (unfold get_argv; by rewrite Hargv).
  assert (sys_argv w1 = a :: argv) as Hargv1.
  { pose proof (framed__parse fuel self (tail (Py.enumerate (a :: argv))) w)
      as (Ha & _).
    rewrite Hparse in Ha. simpl in Ha. congruence. }
  change (Py.enumerate (a :: argv))
    with ((0, a) :: tail (Py.enumerate (a :: argv))).
  cbv iota beta. rewrite Hcond.
  unfold try_except, _parse in *. rewrite Hparse.
  unfold print at 1 3, bind at 1 5. unfold bind at 1 4, get_argv. simpl.
  by rewrite Hargv1.
Qed.

(** ** Termination *)

Section total.
Variable h : gmap loc Command.

Lemma total_ret {A} (a : A) : total h (ret a).
Proof. by intros w _. Qed.

Lemma total_raise {A} e : total h (@raise A e).
Proof. by intros w _. Qed.

Lemma total_bind {A B} (m : M A) (k : A → M B) :
  framed m → total h m → (∀ a, total h (k a)) → total h (bind m k).
Proof.
  intros Hf Hm Hk w Hw. specialize (Hf w). specialize (Hm w Hw).
  unfold bind. destruct (m w) as [[a|e|] w1]; simpl in *; [|done..].
  apply Hk. destruct Hf as (_ & Hh & _). congruence.
Qed.

Lemma total_load_bind {B} self (k : Command → M B) :
  (∀ c, h !! self = Some c → total h (k c)) → total h (bind (load self) k).
Proof.
  intros Hk w Hw. unfold bind, load.
  destruct (heap w !! self) as [c|] eqn:E; [|done].
  apply Hk; [|done]. by rewrite <- Hw.
Qed.

Lemma total_try_except {A} (m : M A) handler :
  framed m → total h m → (∀ e, total h (handler e)) →
  total h (try_except m handler).
Proof.
  intros Hf Hm Hh w Hw. specialize (Hf w). specialize (Hm w Hw).
  unfold try_except. destruct (m w) as [[a|[]|] w1]; simpl in *; try done.
  apply Hh. destruct Hf as (_ & Hheap & _). congruence.
Qed.

Lemma total_for {A} (l : list A) body :
  (∀ x, framed (body x)) → (∀ x, x ∈ l → total h (body x)) →
  total h (for_ l body).
Proof.
  intros Hf. induction l as [|x l IH]; intros Hb; simpl; [apply total_ret|].
  apply total_bind; [apply Hf|apply Hb; left|].
  intros _. apply IH. intros y Hy. apply Hb. by right.
Qed.

Lemma total_print s : total h (print s).
Proof. by intros w _. Qed.

Lemma total_get_argv : total h get_argv.
Proof. by intros w _. Qed.

Lemma total_call f i arg val : total h (call f i arg val).
Proof. intros w _. unfold call. by destruct (f i arg val). Qed.

Lemma total_parse_arg i arg val argdef : total h (parse_arg i arg val argdef).
Proof.
  intros w _. unfold parse_arg. destruct (negb _ && _); [done|].
  unfold bind.
  repeat match goal with
         | |- context [if ?b then _ else _] => destruct b
         | |- context [match ?x with _ => _ end] =>
             lazymatch type of x with
             | parser_spec => destruct x
             | option _ => destruct x
             end
         end; simpl; try done.
  unfold call. by destruct (_ i arg _).
Qed.
End total.

Section total_parser.
Variable h : gmap loc Command.

(** Splits a statement whose parts never call a method recursively. *)
Ltac total :=
  repeat first
    [ progress eauto using total_ret, total_raise, total_print,
        total_get_argv, total_parse_arg
    | apply total_bind; [framed| |intros ?]
    | apply total_for; [intros ?; framed|intros ? _]
    | match goal with
      | |- total _ (if ?b then _ else _) => destruct b
      | |- total _ (match ?x with _ => _ end) => destruct x
      end ].

Lemma total_print_usage arg indent : total h (print_usage arg indent).
Proof. unfold print_usage. total. Qed.

Lemma total_switch_summaries args s : total h (switch_summaries args s).
Proof.
  revert s. induction args as [|arg args IH]; intros s; simpl; [total|].
  apply total_bind; [unfold switch_summary; framed|unfold switch_summary; total|].
  auto.
Qed.

Lemma total__print_usage d fuel self name indent_start indent_incr :
  nesting h d self → d ≤ fuel →
  total h (_print_usage fuel self name indent_start indent_incr).
Proof.
  revert d self name indent_start.
  induction fuel as [|fuel IH]; intros d self name indent_start Hn Hd.
  { inversion Hn; subst. lia. }
  inversion Hn as [d0 ? c Hc Hsub]; subst. simpl. unfold _print_usage_body.
  apply total_load_bind. intros c' Hc'. assert (c' = c) as -> by congruence.
  pose proof framed_print_usage. pose proof framed_switch_summaries.
  pose proof total_print_usage. pose proof total_switch_summaries.
  pose proof framed__print_usage.
  apply total_bind; [framed|total|]. intros s.
  apply total_bind; [framed|total|]. intros _.
  apply total_bind; [framed|total|]. intros _.
  apply total_bind; [framed|total|]. intros _.
  destruct (subcommands c) as [|item items] eqn:E; [total|].
  rewrite <- E in Hsub |- *. clear E.
  apply total_bind; [framed| |intros; total].
  apply total_for.
  - intros x. framed.
  - intros x Hx. apply total_bind; [framed|total|]. intros _.
    apply (IH d0); [|lia].
    rewrite Forall_forall in Hsub. by apply Hsub.
Qed.

Lemma total_Command_print_usage d fuel self binary indent :
  nesting h d self → d ≤ fuel →
  total h (Command_print_usage fuel self binary indent).
Proof.
  intros Hn Hd. unfold Command_print_usage.
  apply total_bind; [framed|total|]. intros _.
  by apply (total__print_usage d).
Qed.

Lemma total_render_message e args : total h (render_message e args).
Proof.
  unfold render_message, _highlight_incorrect.
  pose proof framed__highlight_incorrect. total.
Qed.

Lemma total_fill_defaults l out : total h (fill_defaults l out).
Proof. revert out. induction l; intros; simpl; total. Qed.

Section total__parse.
Variable parse : loc → binary_arg → M (list (string * value)).
Variable d : nat.
Hypothesis framed_rec : ∀ self binary, framed (parse self binary).
Hypothesis total_rec :
  ∀ cmd binary, nesting h d cmd → total h (parse cmd binary).

Lemma total__parse_token self argv_iter out positional_index i arg :
  nesting h (S d) self →
  total h (_parse_token parse self argv_iter out positional_index i arg).
Proof.
  intros Hn. inversion Hn as [? ? c Hc Hsub]; subst.
  unfold _parse_token.
  apply total_load_bind. intros c' Hc'. assert (c' = c) as -> by congruence.
  pose proof framed_parse_arg.
  destruct (Py.startswith arg "-").
  - destruct (Py.partition "=" arg) as [[a e] v]. total.
  - destruct (Dict.get arg (subcommands c)) as [cmd|] eqn:E; [|total].
    apply total_bind; [apply framed_rec| |intros; total].
    apply total_rec. apply get_values in E.
    apply list_elem_of_fmap in E as (item & -> & Hitem).
    rewrite Forall_forall in Hsub. by apply Hsub.
Qed.

Lemma total__parse_loop self argv_iter out positional_index :
  nesting h (S d) self →
  total h (_parse_loop parse self argv_iter out positional_index).
Proof.
  intros Hn. revert out positional_index.
  induction argv_iter as [|[i arg] it IH]; intros; simpl; [total|].
  apply total_bind;
    [by apply framed__parse_token|by apply total__parse_token|auto].
Qed.

Lemma total__parse_body self argv_iter :
  nesting h (S d) self → total h (_parse_body parse self argv_iter).
Proof.
  intros Hn. unfold _parse_body.
  apply total_bind;
    [by apply framed__parse_loop|by apply total__parse_loop|].
  intros st. unfold check_positionals, check_subcommands.
  pose proof framed_fill_defaults. pose proof total_fill_defaults.
  total.
  - unfold load. intros w _. by destruct (heap w !! self).
Qed.
End total__parse.

Lemma total_parse d fuel self binary :
  nesting h d self → d ≤ fuel → total h (parse fuel self binary).
Proof.
  revert d self binary.
  induction fuel as [|fuel IH]; intros d self binary Hn Hd.
  { inversion Hn; subst. lia. }
  simpl. unfold parse_body. apply total_bind; [framed|total|]. intros argv.
  pose proof framed_Command_print_usage. pose proof framed_render_message.
  pose proof total_render_message.
  pose proof (total_Command_print_usage d (S fuel) self) as Husage.
  destruct (Py.enumerate argv) as [|[? b] argv_iter].
  - destruct binary as [[|? [|? [|]]]|[|? [|? [|]]]]; unfold sys_exit; total.
  - destruct (_ || _).
    + unfold sys_exit. total.
    + inversion Hn as [d0 ? c Hc Hsub]; subst.
      assert (∀ cmd binary, nesting h d0 cmd → total h (parse fuel cmd binary))
        as Hrec by (intros; apply (IH d0); [done|lia]).
      apply total_try_except.
      * apply framed__parse_body, framed_parse.
      * apply (total__parse_body _ d0); [apply framed_parse|done|done].
      * intros e. unfold sys_exit. total.
Qed.
End total_parser.

(** ** More fuel changes nothing *)

Lemma refines_refl {A} (m : M A) : refines m m.
Proof. by intros w _. Qed.

Lemma refines_trans {A} (m1 m2 m3 : M A) :
  refines m1 m2 → refines m2 m3 → refines m1 m3.
Proof.
  intros H12 H23 w Hw. rewrite <- (H12 w Hw). apply H23.
  by rewrite (H12 w Hw).
Qed.

Lemma refines_bind {A B} (m m' : M A) (k k' : A → M B) :
  refines m m' → (∀ a, refines (k a) (k' a)) →
  refines (bind m k) (bind m' k').
Proof.
  intros Hm Hk w Hw. unfold bind in *.
  destruct (m w) as [[a|e|] w1] eqn:E.
  - rewrite (Hm w), E; [|by rewrite E]. by apply Hk.
  - rewrite (Hm w), E; [done|by rewrite E].
  - done.
Qed.

Lemma refines_try_except {A} (m m' : M A) handler :
  refines m m' → refines (try_except m handler) (try_except m' handler).
Proof.
  intros Hm w Hw. unfold try_except in *.
  destruct (m w) as [[a|e|] w1] eqn:E.
  - rewrite (Hm w), E; [done|by rewrite E].
  - rewrite (Hm w), E; [done|by rewrite E].
  - done.
Qed.

Lemma refines_for {A} (l : list A) body body' :
  (∀ x, refines (body x) (body' x)) → refines (for_ l body) (for_ l body').
Proof.
  intros H. induction l; simpl; [apply refines_refl|].
  apply refines_bind; auto.
Qed.

(** Splits two statements that differ in their recursive calls only. *)
Ltac refines :=
  repeat first
    [ apply refines_refl
    | solve [eauto]
    | apply refines_bind; [|intros ?]
    | apply refines_try_except
    | apply refines_for; intros ?
    | match goal with
      | |- refines (if ?b then _ else _) _ => destruct b
      | |- refines (match ?x with _ => _ end) _ => destruct x
      | |- refines (let '(_, _) := ?x in _) _ => destruct x
      end ].

Lemma _print_usage_fuel_S fuel self name indent_start indent_incr :
  refines (_print_usage fuel self name indent_start indent_incr)
          (_print_usage (S fuel) self name indent_start indent_incr).
Proof.
  revert self name indent_start.
  induction fuel as [|fuel IH]; intros self name indent_start; [by intros w|].
  change (refines
    (_print_usage_body (_print_usage fuel) self name indent_start indent_incr)
    (_print_usage_body (_print_usage (S fuel)) self name indent_start
       indent_incr)).
  unfold _print_usage_body. refines.
Qed.

Section refines__parse.
Variables parse parse' : loc → binary_arg → M (list (string * value)).
Hypothesis refines_rec : ∀ self binary, refines (parse self binary) (parse' self binary).

Lemma refines__parse_loop self argv_iter out positional_index :
  refines (_parse_loop parse self argv_iter out positional_index)
          (_parse_loop parse' self argv_iter out positional_index).
Proof.
  revert out positional_index.
  induction argv_iter as [|[i arg] it IH]; intros; simpl; [refines|].
  apply refines_bind; [|auto]. unfold _parse_token. refines.
Qed.

Lemma refines__parse_body self argv_iter :
  refines (_parse_body parse self argv_iter) (_parse_body parse' self argv_iter).
Proof.
  unfold _parse_body. pose proof refines__parse_loop. refines.
Qed.
End refines__parse.

Lemma parse_fuel_S fuel self binary :
  refines (parse fuel self binary) (parse (S fuel) self binary).
Proof.
  revert self binary.
  induction fuel as [|fuel IH]; intros self binary; [by intros w|].
  pose proof _print_usage_fuel_S. pose proof (refines__parse_body _ _ IH).
  change (refines
    (parse_body (Command_print_usage (S fuel)) (parse fuel) self binary)
    (parse_body (Command_print_usage (S (S fuel))) (parse (S fuel)) self
       binary)).
  unfold parse_body, Command_print_usage.
  apply refines_bind; [refines|]. intros argv.
  destruct (Py.enumerate argv) as [|[? b] argv_iter].
  - destruct binary as [[|? [|? [|]]]|[|? [|? [|]]]]; refines.
  - refines.
Qed.

Lemma parse_fuel_mono n m self binary :
  n ≤ m → refines (parse n self binary) (parse m self binary).
Proof.
  induction 1 as [|m Hle IH]; [apply refines_refl|].
  eapply refines_trans; [exact IH|apply parse_fuel_S].
Qed.

(** A schema with a cycle exhausts any fuel: the hypothesis of C7 cannot
    be dropped. *)
Lemma cyclic_schema_out_of_fuel fuel binary :
  (parse fuel 0 binary (cyclic_schema (boot ["script.py"; "x"])).2).1
  = OutOfFuel.
Proof.
  revert binary. induction fuel as [|fuel IH]; intros binary; [done|].
  set (w := (cyclic_schema (boot ["script.py"; "x"])).2) in *.
  assert (heap w !! 0 = Some (MkCommand "c" [] false [] [("x", 0)] false))
    as Hc by reflexivity.
  simpl. unfold parse_body.
  rewrite (bind_ok get_argv _ _ ["script.py"; "x"] _) by done.
  assert ((_parse_body (parse fuel) 0 [(1, "x")] w).1 = OutOfFuel) as H.
  { unfold _parse_body. apply bind_out_of_fuel. simpl.
    apply bind_out_of_fuel. unfold _parse_token.
    rewrite (bind_ok _ _ _ _ _ (load_ok _ _ _ Hc)). simpl.
    apply bind_out_of_fuel, IH. }
  simpl. unfold try_except.
  by destruct (_parse_body _ _ _ w) as [[r|e|] w1].
Qed.

(** C7.  On a schema that is a tree at most [d] levels deep, [parse] (and
    [_parse]) returns or raises, and does the same with any fuel from [d]
    on: the bound is the depth of the schema, whatever the tokens.  (The
    loop of one node is a structural recursion on the list of tokens.) *)
Theorem C7_parse_terminates d self binary argv_iter w :
  nesting (heap w) d self →
  (∃ r w', r ≠ OutOfFuel ∧
     ∀ fuel, d ≤ fuel → parse fuel self binary w = (r, w')) ∧
  (∃ r w', r ≠ OutOfFuel ∧
     ∀ fuel, d ≤ fuel → _parse fuel self argv_iter w = (r, w')).
Proof.
  intros Hn. split.
  - exists (parse d self binary w).1, (parse d self binary w).2.
    assert ((parse d self binary w).1 ≠ OutOfFuel) as Hne
      by by apply (total_parse (heap w) d).
    split; [done|]. intros fuel Hle.
    rewrite (parse_fuel_mono d fuel self binary Hle w Hne).
    by destruct (parse d self binary w).
  - exists (_parse d self argv_iter w).1, (_parse d self argv_iter w).2.
    inversion Hn as [d0 ? c Hc Hsub]; subst.
    assert ((_parse (S d0) self argv_iter w).1 ≠ OutOfFuel) as Hne.
    { apply (total__parse_body (heap w) _ d0); [apply framed_parse| |done|done].
      intros cmd b Hcmd. apply (total_parse _ d0); [done|lia]. }
    split; [done|]. intros fuel Hle. unfold _parse in *.
    rewrite (refines__parse_body (parse (S d0)) (parse fuel)
               (fun s b => parse_fuel_mono (S d0) fuel s b Hle) self
               argv_iter w Hne).
    by destruct (_parse_body _ _ _ w).
Qed.

Lemma C7_parse_terminates_witness :
  (∃ r w', r ≠ OutOfFuel ∧
     ∀ fuel, 2 ≤ fuel →
       parse fuel 1 (BinStr "script.py")
         (example_world true ["script.py"; "alice"; "run"]) = (r, w')) ∧
  (∃ r w', r ≠ OutOfFuel ∧
     ∀ fuel, 2 ≤ fuel →
       _parse fuel 1 [(1, "alice"); (2, "run")]
         (example_world true ["script.py"; "alice"; "run"]) = (r, w')).
Proof.
  apply (C7_parse_terminates 2 1 (BinStr "script.py")
           [(1, "alice"); (2, "run")]
           (example_world true ["script.py"; "alice"; "run"])).
  eapply nesting_node; [reflexivity|].
  repeat constructor. simpl.
  eapply nesting_node; [reflexivity|]. constructor.
Defined.

(** * Further properties *)

(** ** The builder *)

Lemma store_ok self c w : store self c w = (Ok tt, updated w self c).
Proof. done. Qed.

(** The aliases of one [switch] call, assigned in order. *)
Lemma switch_aliases_assigned self info aliases w c :
  heap w !! self = Some c →
  for_ aliases (fun alias =>
    c <- load self ;;
    store self (with_switches c (Dict.set alias info (switches c)))) w
  = (Ok tt,
     match aliases with
     | [] => w
     | _ => updated w self
              (with_switches c
                 (fold_left (fun sw alias => Dict.set alias info sw) aliases
                    (switches c)))
     end).
Proof.
  revert w c. induction aliases as [|alias aliases IH]; intros w c Hc; [done|].
  simpl for_. rewrite bind_assoc, (bind_ok _ _ _ _ _ (load_ok _ _ _ Hc)).
  rewrite (bind_ok _ _ _ _ _ (store_ok _ _ _)).
  rewrite (IH _ (with_switches c (Dict.set alias info (switches c))));
    [|apply lookup_insert_eq].
  f_equal. destruct aliases as [|alias' aliases]; [done|].
  unfold updated. simpl. by rewrite insert_insert_eq.
Qed.

Lemma get_fold_set {V} (info : V) k aliases sw :
  Dict.get k (fold_left (fun sw alias => Dict.set alias info sw) aliases sw) =
  if bool_decide (k ∈ aliases) then Some info else Dict.get k sw.
Proof.
  revert sw. induction aliases as [|a aliases IH]; intros sw; simpl; [done|].
  rewrite IH. destruct (bool_decide (k ∈ aliases)) eqn:E.
  - apply bool_decide_eq_true in E. rewrite bool_decide_eq_true_2; [done|].
    by right.
  - apply bool_decide_eq_false in E. rewrite get_set.
    destruct (String.eqb k a) eqn:Ea.
    + apply String.eqb_eq in Ea as ->. rewrite bool_decide_eq_true_2; [done|].
      by left.
    + apply String.eqb_neq in Ea. rewrite bool_decide_eq_false_2; [done|].
      by intros [->|?]%elem_of_cons.
Qed.

(** The state that [switch] leaves: every alias is assigned the new
    definition, in the order of the list. *)
Lemma switch_stores self aliases name descr parser optional default w c :
  heap w !! self = Some c →
  name ≠ "command" →
  switch self aliases name descr parser optional default w
  = (Ok (VCommand self),
     if aliases is [] then w
     else updated w self
            (with_switches c
               (fold_left
                  (fun sw alias =>
                     Dict.set alias
                       (ArgDef name descr parser optional (Some aliases) default)
                       sw)
                  aliases (switches c)))).
Proof.
  intros Hc Hname. unfold switch. apply String.eqb_neq in Hname as ->. simpl.
  rewrite bind_ret.
  rewrite (bind_ok _ _ _ _ _
             (switch_aliases_assigned self
                (ArgDef name descr parser optional (Some aliases) default)
                aliases w c Hc)).
  by destruct aliases.
Qed.

(** X1.  [switch] binds every alias it is given to the new definition and
    leaves the other aliases, the positionals, the subcommands and the
    flags of [self], and every other [Command], as they were. *)
Theorem switch_registers_aliases self aliases name descr parser
    optional default w c :
  heap w !! self = Some c →
  name ≠ "command" →
  ∃ c',
    switch self aliases name descr parser optional default w
      = (Ok (VCommand self), if aliases is [] then w else updated w self c') ∧
    (∀ alias, alias ∈ aliases →
       Dict.get alias (switches c')
       = Some (ArgDef name descr parser optional (Some aliases) default)) ∧
    (∀ alias, alias ∉ aliases →
       Dict.get alias (switches c') = Dict.get alias (switches c)) ∧
    positionals c' = positionals c ∧
    subcommands c' = subcommands c ∧
    upcoming_positionals_optional c' = upcoming_positionals_optional c ∧
    subcommands_optional c' = subcommands_optional c ∧
    description c' = description c.
Proof.
  intros Hc Hname.
  set (info := ArgDef name descr parser optional (Some aliases) default).
  exists (with_switches c
            (fold_left (fun sw alias => Dict.set alias info sw) aliases
               (switches c))).
  split; [by apply switch_stores|].
  simpl. repeat split.
  - intros alias Ha. by rewrite get_fold_set, bool_decide_eq_true_2.
  - intros alias Ha. by rewrite get_fold_set, bool_decide_eq_false_2.
Qed.

Lemma switch_registers_aliases_witness :
  ∃ c',
    switch 0 ["-v"; "--verbose"] "verbose" "" (PStr "bool") true None
      (x_world (PStr "int") [])
    = (Ok (VCommand 0), updated (x_world (PStr "int") []) 0 c') ∧
    Dict.get "--verbose" (switches c')
    = Some (ArgDef "verbose" "" (PStr "bool") true
              (Some ["-v"; "--verbose"]) None) ∧
    Dict.get "--x" (switches c') = Some (x_switch (PStr "int")).
Proof.
  destruct (switch_registers_aliases 0 ["-v"; "--verbose"] "verbose" ""
              (PStr "bool") true None (x_world (PStr "int") [])
              (x_command (PStr "int")) eq_refl)
    as (c' & Hrun & Hin & Hout & _); [done|].
  exists c'. split; [exact Hrun|]. split.
  - apply Hin. right. left.
  - rewrite Hout; [reflexivity|].
    intros H. apply elem_of_cons in H as [H|H]; [done|].
    apply elem_of_cons in H as [H|H]; [done|]. by apply elem_of_nil in H.
Defined.

(** X2.  [optional_positionals] acts on the positionals added after it: the
    ones already declared stay as they are, the next one is optional,
    whatever the mode was before.  No other [Command] changes. *)
Theorem optional_positionals_apply_forward self name descr parser w c :
  heap w !! self = Some c →
  name ≠ "command" →
  ∃ c',
    (optional_positionals self ;; positional self name descr parser) w
      = (Ok (VCommand self), updated w self c') ∧
    positionals c' = positionals c ++ [ArgDef name descr parser true None None] ∧
    upcoming_positionals_optional c' = true ∧
    switches c' = switches c ∧
    subcommands c' = subcommands c.
Proof.
  intros Hc Hname.
  exists (with_positionals (with_upcoming_positionals_optional c true)
            (positionals c ++ [ArgDef name descr parser true None None])).
  split; [|done].
  unfold optional_positionals, positional.
  rewrite !bind_assoc, (bind_ok _ _ _ _ _ (load_ok _ _ _ Hc)).
  rewrite bind_assoc, (bind_ok _ _ _ _ _ (store_ok _ _ _)), bind_ret.
  apply String.eqb_neq in Hname as ->. simpl. rewrite bind_ret.
  rewrite (bind_ok _ _ _ _ _
             (load_ok self _ (with_upcoming_positionals_optional c true)
                (lookup_insert_eq _ _ _))).
  rewrite (bind_ok _ _ _ _ _ (store_ok _ _ _)).
  unfold ret, updated. simpl. by rewrite insert_insert_eq.
Qed.

Lemma optional_positionals_apply_forward_witness :
  ∃ c',
    (optional_positionals 0 ;; positional 0 "file" "" (PStr "str"))
      (count_world false [])
    = (Ok (VCommand 0), updated (count_world false []) 0 c') ∧
    positionals c'
    = [ArgDef "name" "" (PStr "str") false None None;
       ArgDef "file" "" (PStr "str") true None None].
Proof.
  destruct (optional_positionals_apply_forward 0 "file" "" (PStr "str")
              (count_world false []) (count_command false) eq_refl)
    as (c' & Hrun & Hpos & _); [done|].
  exists c'. split; [exact Hrun|exact Hpos].
Defined.



(** X4.  [subcommand] registers [cmd] under [name] and keeps the other names.
    From then on a token [name] is handed to [cmd]'s [parse] and is not
    taken as a positional; but under a name that starts with [-] the
    subcommand cannot be reached: the token is read as a switch, and what
    it does is the same whatever the subcommands' [parse] does. *)
Theorem subcommand_dispatch self name cmd w c :
  heap w !! self = Some c →
  ∃ c',
    subcommand self name cmd w = (Ok (VCommand self), updated w self c') ∧
    Dict.get name (subcommands c') = Some cmd ∧
    (∀ k, k ≠ name → Dict.get k (subcommands c') = Dict.get k (subcommands c)) ∧
    (Py.startswith name "-" = false →
     ∀ parse argv_iter out positional_index i,
       _parse_token parse self argv_iter out positional_index i name
         (updated w self c')
       = (r <- parse cmd (BinIter argv_iter) ;;
          ret (Dict.merge out (Dict.set name (VDict r) [("command", VStr name)]),
               positional_index)) (updated w self c')) ∧
    (Py.startswith name "-" = true →
     ∀ parse parse' argv_iter out positional_index i,
       _parse_token parse self argv_iter out positional_index i name
         (updated w self c')
       = _parse_token parse' self argv_iter out positional_index i name
           (updated w self c')).
Proof.
  intros Hc.
  exists (with_subcommands c (Dict.set name cmd (subcommands c))).
  assert (heap (updated w self
                  (with_subcommands c (Dict.set name cmd (subcommands c))))
            !! self
          = Some (with_subcommands c (Dict.set name cmd (subcommands c))))
    as Hc' by apply lookup_insert_eq.
  repeat split.
  - unfold subcommand. rewrite (bind_ok _ _ _ _ _ (load_ok _ _ _ Hc)).
    by rewrite (bind_ok _ _ _ _ _ (store_ok _ _ _)).
  - apply get_set_eq.
  - intros k Hk. by apply get_set_ne.
  - intros Hdash parse argv_iter out positional_index i. unfold _parse_token.
    rewrite (bind_ok _ _ _ _ _ (load_ok _ _ _ Hc')), Hdash.
    unfold with_subcommands at 1. cbn [subcommands]. by rewrite get_set_eq.
  - intros Hdash parse parse' argv_iter out positional_index i.
    unfold _parse_token.
    by rewrite !(bind_ok _ _ _ _ _ (load_ok _ _ _ Hc')), Hdash.
Qed.

Lemma subcommand_dispatch_witness :
  ∃ c',
    subcommand 0 "run" 0 (count_world false [])
    = (Ok (VCommand 0), updated (count_world false []) 0 c') ∧
    Dict.get "run" (subcommands c') = Some 0.
Proof.
  destruct (subcommand_dispatch 0 "run" 0 (count_world false [])
              (count_command false) eq_refl) as (c' & Hrun & Hget & _).
  exists c'. split; [exact Hrun|exact Hget].
Defined.

(** ** The result of [_parse] *)

Lemma assigned_Some {V} k (b : list (string * V)) o v :
  assigned k b o = Some v → o = Some v ∨ k ∈ Dict.keys b.
Proof.
  revert o. induction b as [|[k' v'] b IH]; intros o; simpl; [by left|].
  intros H. apply IH in H as [H|H]; [|right; by right].
  destruct (String.eqb k k') eqn:E; [|by left].
  apply String.eqb_eq in E as ->. right. left.
Qed.

Lemma mem_merge {V} k (a b : list (string * V)) :
  Dict.mem k (Dict.merge a b) = true →
  Dict.mem k a = true ∨ k ∈ Dict.keys b.
Proof.
  unfold Dict.mem. rewrite get_merge.
  destruct (assigned k b (Dict.get k a)) as [v|] eqn:E; [|done].
  intros _. apply assigned_Some in E as [->|E]; auto.
Qed.

(** What [parse_arg] returns is one entry, under the definition's name. *)
Lemma parse_arg_shape i arg val argdef w r w' :
  parse_arg i arg val argdef w = (Ok r, w') →
  ∃ v, r = [(arg_name argdef, v)].
Proof.
  unfold parse_arg. destruct (negb _ && _); [done|].
  intros H. apply bind_inv_ok in H as (v & w1 & _ & [= <- _]). eauto.
Qed.

Lemma fill_defaults_inv l out w out' w' :
  fill_defaults l out w = (Ok out', w') →
  w' = w ∧
  (∀ k v, Dict.get k out = Some v → Dict.get k out' = Some v) ∧
  (∀ s, s ∈ l → arg_optional s = false →
        Dict.mem (arg_name s) out' = true) ∧
  (∀ k, Dict.mem k out' = true →
        Dict.mem k out = true ∨ k ∈ map arg_name l).
Proof.
  revert out. induction l as [|s l IH]; intros out; simpl.
  { intros [= <- <-]. repeat split; [done| |auto].
    by intros s Hs%elem_of_nil. }
  destruct (negb (arg_optional s) && negb (Dict.mem (arg_name s) out)) eqn:E.
  - destruct (arg_default s) as [d|]; [|by destruct (arg_switches s)].
    intros H. apply IH in H as (-> & Hkeep & Hreq & Hnew).
    apply andb_prop in E as [_ E]. apply negb_true_iff, mem_false in E.
    repeat split.
    + intros k v Hk. apply Hkeep. rewrite get_set_ne; [done|].
      intros ->. congruence.
    + intros s' [->|Hs']%elem_of_cons; [|auto].
      intros _. unfold Dict.mem.
      by rewrite (Hkeep (arg_name s) d) by apply get_set_eq.
    + intros k Hk. apply Hnew in Hk as [Hk|Hk]; [|right; by right].
      unfold Dict.mem in Hk. rewrite get_set in Hk.
      destruct (String.eqb k (arg_name s)) eqn:Ek.
      * apply String.eqb_eq in Ek as ->. right. left.
      * by left.
  - intros H. apply IH in H as (-> & Hkeep & Hreq & Hnew).
    repeat split; [done| |].
    + intros s' [->|Hs']%elem_of_cons; [|auto].
      intros Hopt. rewrite Hopt in E. simpl in E.
      apply negb_false_iff in E. unfold Dict.mem in *.
      destruct (Dict.get (arg_name s) out) as [v|] eqn:Ev; [|done].
      by rewrite (Hkeep _ _ Ev).
    + intros k Hk. apply Hnew in Hk as [Hk|Hk]; [by left|right; by right].
Qed.

(** The steps of a [_parse] that returns. *)
Lemma _parse_inv fuel self argv_iter w c out w' :
  heap w !! self = Some c →
  _parse fuel self argv_iter w = (Ok out, w') →
  ∃ out0 pi,
    _parse_loop (parse fuel) self argv_iter [] 0 w = (Ok (out0, pi), w') ∧
    (∀ p, p ∈ positionals c → arg_optional p = false →
          Dict.mem (arg_name p) out0 = true) ∧
    fill_defaults (Dict.values (switches c)) out0 w' = (Ok out, w') ∧
    check_subcommands c out w' = (Ok tt, w').
Proof.
  intros Hc Hparse.
  destruct (_parse_loop (parse fuel) self argv_iter [] 0 w)
    as [[[out0 pi]|e|] w1] eqn:Hloop.
  2,3: unfold _parse, _parse_body, bind in Hparse; by rewrite Hloop in Hparse.
  rewrite (_parse_after_loop _ _ _ _ _ _ _ _ Hc Hloop) in Hparse.
  destruct (check_positionals_spec c out0 w1) as [[Hp Hpos]|[o Hp]];
    [|by rewrite (bind_raise _ _ _ _ _ Hp) in Hparse].
  rewrite (bind_ok _ _ _ _ _ Hp) in Hparse.
  apply bind_inv_ok in Hparse as (out1 & w2 & Hfill & Hrest).
  pose proof (fill_defaults_inv _ _ _ _ _ Hfill) as (-> & _).
  destruct (check_subcommands_spec c out1 w1) as [Hs|[o Hs]];
    [|by rewrite (bind_raise _ _ _ _ _ Hs) in Hrest].
  rewrite (bind_ok _ _ _ _ _ Hs) in Hrest. injection Hrest as <- <-.
  by exists out0, pi.
Qed.

Section result_names.
Variable parse : loc → binary_arg → M (list (string * value)).
Variable self : loc.
Variable c : Command.
Hypothesis framed_rec : ∀ cmd binary, framed (parse cmd binary).

Lemma _parse_token_names argv_iter out positional_index i arg w st w' :
  heap w !! self = Some c →
  _parse_token parse self argv_iter out positional_index i arg w = (Ok st, w') →
  (∀ k, Dict.mem k out = true → declared c k) →
  ∀ k, Dict.mem k st.1 = true → declared c k.
Proof.
  intros Hc Htok Hout k. unfold _parse_token in Htok.
  rewrite (bind_ok _ _ _ _ _ (load_ok _ _ _ Hc)) in Htok.
  destruct (Py.startswith arg "-").
  - destruct (Py.partition "=" arg) as [[a e] v].
    destruct (Dict.get a (switches c)) as [d|] eqn:Hd; [|done].
    apply bind_inv_ok in Htok as (r & w1 & Hr & [= <- _]).
    apply parse_arg_shape in Hr as [pv ->]. cbn [fst].
    intros [Hk|Hk]%mem_merge; [auto|].
    apply list_elem_of_singleton in Hk as ->.
    right. right. left. apply list_elem_of_fmap. exists d.
    split; [done|by eapply get_values].
  - destruct (Dict.get arg (subcommands c)) as [cmd|] eqn:Hcmd.
    + apply bind_inv_ok in Htok as (r & w1 & Hr & [= <- _]). cbn [fst].
      intros [Hk|Hk]%mem_merge; [auto|].
      assert (k = "command" ∨ k = arg) as [->| ->].
      { destruct (String.eqb arg "command") eqn:E; simpl in Hk.
        - apply list_elem_of_singleton in Hk. by left.
        - apply elem_of_cons in Hk as [->|Hk]; [by left|].
          apply list_elem_of_singleton in Hk. by right. }
      * by left.
      * right. right. right. clear -Hcmd.
        induction (subcommands c) as [|[k' v'] l IH]; simpl in *; [done|].
        destruct (String.eqb arg k') eqn:E.
        -- apply String.eqb_eq in E as ->. left.
        -- right. auto.
    + destruct (_ <=? _); [done|].
      destruct (positionals c !! positional_index) as [d|] eqn:Hd; [|done].
      apply bind_inv_ok in Htok as (r & w1 & Hr & [= <- _]).
      apply parse_arg_shape in Hr as [pv ->]. cbn [fst].
      intros [Hk|Hk]%mem_merge; [auto|].
      apply list_elem_of_singleton in Hk as ->.
      right. left. apply list_elem_of_fmap. exists d.
      split; [done|by eapply list_elem_of_lookup_2].
Qed.

Lemma _parse_loop_names argv_iter out positional_index w st w' :
  heap w !! self = Some c →
  _parse_loop parse self argv_iter out positional_index w = (Ok st, w') →
  (∀ k, Dict.mem k out = true → declared c k) →
  ∀ k, Dict.mem k st.1 = true → declared c k.
Proof.
  revert out positional_index w.
  induction argv_iter as [|[i arg] it IH]; intros out positional_index w Hc;
    simpl.
  - by intros [= <- _].
  - intros H Hout. apply bind_inv_ok in H as (st1 & w1 & Htok & Hloop).
    eapply IH; [|exact Hloop|by eapply _parse_token_names].
    pose proof (framed__parse_token parse framed_rec self it out
                  positional_index i arg w) as (_ & Hh & _).
    rewrite Htok in Hh. simpl in Hh. by rewrite Hh.
Qed.
End result_names.

(** X5.  Every key of a result of [_parse] is declared: it is ["command"], the
    name of a positional or of a switch, or the name of a subcommand. *)
Theorem result_names_declared fuel self argv_iter w c out w' :
  heap w !! self = Some c →
  _parse fuel self argv_iter w = (Ok out, w') →
  ∀ k, Dict.mem k out = true → declared c k.
Proof.
  intros Hc Hparse k Hk.
  destruct (_parse_inv _ _ _ _ _ _ _ Hc Hparse)
    as (out0 & pi & Hloop & _ & Hfill & _).
  apply fill_defaults_inv in Hfill as (_ & _ & _ & Hnew).
  destruct (Hnew k Hk) as [Hk0|Hk0].
  - eapply (_parse_loop_names (parse fuel) self c (framed_parse fuel));
      [exact Hc|exact Hloop|done|exact Hk0].
  - right. right. by left.
Qed.

Lemma result_names_declared_witness :
  declared (count_command false) "count".
Proof.
  apply (result_names_declared 1 0 [(1, "alice")]
           (count_world false ["script.py"; "alice"]) (count_command false)
           [("name", VStr "alice"); ("count", VInt 5)]
           (count_world false ["script.py"; "alice"]) eq_refl eq_refl
           "count" eq_refl).
Defined.

(** X6.  A result of [_parse] is complete: it has every required positional
    and every required switch, and ["command"] when the [Command] has
    subcommands and they are not optional. *)
Theorem result_has_required_names fuel self argv_iter w c out w' :
  heap w !! self = Some c →
  _parse fuel self argv_iter w = (Ok out, w') →
  (∀ p, p ∈ positionals c → arg_optional p = false →
        Dict.mem (arg_name p) out = true) ∧
  (∀ s, s ∈ Dict.values (switches c) → arg_optional s = false →
        Dict.mem (arg_name s) out = true) ∧
  (subcommands c ≠ [] → subcommands_optional c = false →
   Dict.mem "command" out = true).
Proof.
  intros Hc Hparse.
  destruct (_parse_inv _ _ _ _ _ _ _ Hc Hparse)
    as (out0 & pi & Hloop & Hpos & Hfill & Hsub).
  apply fill_defaults_inv in Hfill as (_ & Hkeep & Hreq & _).
  repeat split.
  - intros p Hp Hopt. specialize (Hpos p Hp Hopt). unfold Dict.mem in *.
    destruct (Dict.get (arg_name p) out0) as [v|] eqn:Ev; [|done].
    by rewrite (Hkeep _ _ Ev).
  - done.
  - intros Hne Hopt. unfold check_subcommands in Hsub. rewrite Hopt in Hsub.
    destruct (subcommands c); [done|]. simpl in Hsub.
    by destruct (Dict.mem "command" out).
Qed.

Lemma result_has_required_names_witness :
  Dict.mem "name" [("name", VStr "alice"); ("count", VInt 5)] = true.
Proof.
  apply (proj1 (result_has_required_names 1 0 [(1, "alice")]
           (count_world false ["script.py"; "alice"]) (count_command false)
           [("name", VStr "alice"); ("count", VInt 5)]
           (count_world false ["script.py"; "alice"]) eq_refl eq_refl)
           (ArgDef "name" "" (PStr "str") false None None)).
  - left.
  - reflexivity.
Defined.

(** ** Positional tokens *)

Section positional_tokens.
Variable parse : loc → binary_arg → M (list (string * value)).
Variable self : loc.
Variable c : Command.
Hypothesis framed_rec : ∀ cmd binary, framed (parse cmd binary).

(** A token that is accepted advances the positional index when it is
    plain, and then the index was within the declared positionals. *)
Lemma _parse_token_index argv_iter out positional_index i arg w st w' :
  heap w !! self = Some c →
  _parse_token parse self argv_iter out positional_index i arg w = (Ok st, w') →
  if plain c arg
  then st.2 = positional_index + 1 ∧ positional_index < length (positionals c)
  else st.2 = positional_index.
Proof.
  intros Hc Htok. unfold _parse_token in Htok.
  rewrite (bind_ok _ _ _ _ _ (load_ok _ _ _ Hc)) in Htok.
  unfold plain, Dict.mem. destruct (Py.startswith arg "-"); simpl.
  - destruct (Py.partition "=" arg) as [[a e] v].
    destruct (Dict.get a (switches c)) as [d|]; [|done].
    by apply bind_inv_ok in Htok as (r & w1 & Hr & [= <- _]).
  - destruct (Dict.get arg (subcommands c)) as [cmd|]; simpl.
    + by apply bind_inv_ok in Htok as (r & w1 & Hr & [= <- _]).
    + destruct (length (positionals c) <=? positional_index) eqn:E; [done|].
      apply Nat.leb_gt in E.
      destruct (positionals c !! positional_index) as [d|]; [|done].
      by apply bind_inv_ok in Htok as (r & w1 & Hr & [= <- _]).
Qed.

Lemma _parse_prefix_index pre post out positional_index w st w' :
  heap w !! self = Some c →
  _parse_prefix parse self pre post out positional_index w = (Ok st, w') →
  st.2 = positional_index
         + length (List.filter (fun x => plain c x.2) pre) ∧
  (st.2 ≠ positional_index → st.2 ≤ length (positionals c)).
Proof.
  revert out positional_index w.
  induction pre as [|[i arg] pre IH]; intros out positional_index w Hc; simpl.
  - intros [= <- _]. simpl. split; [lia|done].
  - intros H. apply bind_inv_ok in H as (st1 & w1 & Htok & Hrest).
    pose proof (_parse_token_index _ _ _ _ _ _ _ _ Hc Htok) as Hidx.
    assert (heap w1 !! self = Some c) as Hc1.
    { pose proof (framed__parse_token parse framed_rec self (pre ++ post) out
                    positional_index i arg w) as (_ & Hh & _).
      rewrite Htok in Hh. simpl in Hh. by rewrite Hh. }
    destruct (IH _ _ _ Hc1 Hrest) as [Heq Hle].
    destruct (plain c arg); simpl; split; lia.
Qed.
End positional_tokens.

(** X7.  Plain tokens are bound to the positionals in order.  When the tokens
    before the plain token [tok] are accepted, the positional index is the
    number of plain tokens among them; if that many positionals are not
    declared, [_parse] raises [TooManyPositionals] with [tok]'s index;
    otherwise [tok] is parsed against the positional at that index. *)
Theorem positional_tokens_in_order fuel self pre i tok post w c out1 pi1 w1 :
  heap w !! self = Some c →
  _parse_prefix (parse fuel) self pre ((i, tok) :: post) [] 0 w
    = (Ok (out1, pi1), w1) →
  plain c tok = true →
  pi1 = length (List.filter (fun x => plain c x.2) pre) ∧
  (length (positionals c) ≤ pi1 →
   _parse fuel self (pre ++ (i, tok) :: post) w
     = (Raise (CLE (TooManyPositionals i tok)), w1)) ∧
  (∀ argdef, positionals c !! pi1 = Some argdef →
     _parse_token (parse fuel) self post out1 pi1 i tok w1
     = (r <- parse_arg i None (Some tok) argdef ;;
        ret (Dict.merge out1 r, pi1 + 1)) w1).
Proof.
  intros Hc Hpre Hplain.
  pose proof (_parse_prefix_heap _ _ _ _ _ _ _ _ _ _ Hc Hpre) as Hc1.
  unfold plain, Dict.mem in Hplain. apply andb_prop in Hplain as [Hd Hs].
  apply negb_true_iff in Hd.
  destruct (Dict.get tok (subcommands c)) eqn:Hsub; [done|].
  split; [|split].
  - destruct (_parse_prefix_index (parse fuel) self c (framed_parse fuel)
                _ _ _ _ _ _ _ Hc Hpre) as [Heq _].
    simpl in Heq. lia.
  - intros Hle. eapply _parse_raises_at; [exact Hpre|].
    unfold _parse_token.
    rewrite (bind_ok _ _ _ _ _ (load_ok _ _ _ Hc1)), Hd, Hsub.
    by apply Nat.leb_le in Hle as ->.
  - intros argdef Hd'. unfold _parse_token.
    rewrite (bind_ok _ _ _ _ _ (load_ok _ _ _ Hc1)), Hd, Hsub, Hd'.
    apply lookup_lt_Some in Hd'. by apply Nat.leb_gt in Hd' as ->.
Qed.

Lemma positional_tokens_in_order_witness :
  _parse 1 0 [(1, "bob"); (2, "extra")]
    (count_world false ["script.py"; "bob"; "extra"])
  = (Raise (CLE (TooManyPositionals 2 "extra")),
     count_world false ["script.py"; "bob"; "extra"]).
Proof.
  apply (proj1 (proj2
           (positional_tokens_in_order 1 0 [(1, "bob")] 2 "extra" []
              (count_world false ["script.py"; "bob"; "extra"])
              (count_command false) [("name", VStr "bob")] 1
              (count_world false ["script.py"; "bob"; "extra"])
              eq_refl eq_refl eq_refl))).
  simpl. lia.
Defined.

(** X8.  With more plain tokens than declared positionals, [_parse] does not
    return. *)
Theorem too_many_plain_tokens fuel self argv_iter w c :
  heap w !! self = Some c →
  length (positionals c)
    < length (List.filter (fun x => plain c x.2) argv_iter) →
  ∀ out, (_parse fuel self argv_iter w).1 ≠ Ok out.
Proof.
  intros Hc Hlt out Hout.
  destruct (_parse fuel self argv_iter w) as [r w'] eqn:Hparse.
  simpl in Hout. subst r.
  destruct (_parse_inv _ _ _ _ _ _ _ Hc Hparse) as (out0 & pi & Hloop & _).
  rewrite <- _parse_prefix_all in Hloop.
  destruct (_parse_prefix_index (parse fuel) self c (framed_parse fuel)
              _ _ _ _ _ _ _ Hc Hloop) as [Heq Hle].
  simpl in *. destruct (decide (pi = 0)); lia.
Qed.

Lemma too_many_plain_tokens_witness :
  length (positionals (count_command false))
    < length (List.filter (fun x => plain (count_command false) x.2)
                [(1, "bob"); (2, "--count=1"); (3, "extra")]) ∧
  ∀ out,
    (_parse 1 0 [(1, "bob"); (2, "--count=1"); (3, "extra")]
       (count_world false ["script.py"; "bob"; "--count=1"; "extra"])).1
    ≠ Ok out.
Proof.
  split; [simpl; lia|].
  apply (too_many_plain_tokens 1 0
           [(1, "bob"); (2, "--count=1"); (3, "extra")]
           (count_world false ["script.py"; "bob"; "--count=1"; "extra"])
           (count_command false) eq_refl).
  simpl. lia.
Defined.

(** X9.  A [Command] whose subcommands are required raises [MissingOption]
    with the names of its subcommands when the tokens name none of them
    and nothing else is missing. *)
Theorem missing_subcommand fuel self argv_iter w c out0 pi w1 :
  heap w !! self = Some c →
  _parse_loop (parse fuel) self argv_iter [] 0 w = (Ok (out0, pi), w1) →
  (∀ p, p ∈ positionals c → arg_optional p = false →
        Dict.mem (arg_name p) out0 = true) →
  (∀ s, s ∈ Dict.values (switches c) → arg_optional s = false →
        is_Some (arg_default s) ∨ Dict.mem (arg_name s) out0 = true) →
  (∀ s, s ∈ Dict.values (switches c) → arg_name s ≠ "command") →
  subcommands c ≠ [] →
  subcommands_optional c = false →
  Dict.mem "command" out0 = false →
  _parse fuel self argv_iter w
  = (Raise (CLE (MissingOption
       ("command (" +:+ Py.join ", " (Dict.keys (subcommands c)) +:+ ")"))),
     w1).
Proof.
  intros Hc Hloop Hpos Hsw Hres Hne Hopt Hcmd.
  rewrite (_parse_after_loop _ _ _ _ _ _ _ _ Hc Hloop).
  rewrite (bind_ok _ _ _ _ _ (check_positionals_returns _ _ w1 Hpos)).
  destruct (fill_defaults_returns _ _ w1 Hsw) as [out Hfill].
  rewrite (bind_ok _ _ _ _ _ Hfill).
  apply fill_defaults_inv in Hfill as (_ & _ & _ & Hnew).
  assert (Dict.mem "command" out = false) as Hout.
  { destruct (Dict.mem "command" out) eqn:E; [|done].
    destruct (Hnew _ E) as [?|Hin]; [congruence|].
    apply list_elem_of_fmap in Hin as (s & Hname & Hs).
    by destruct (Hres s Hs). }
  apply bind_raise. unfold check_subcommands. rewrite Hopt, Hout.
  by destruct (subcommands c).
Qed.

Lemma missing_subcommand_witness :
  _parse 2 1 [(1, "alice")] (example_world false ["script.py"; "alice"])
  = (Raise (CLE (MissingOption "command (run)")),
     example_world false ["script.py"; "alice"]).
Proof.
  apply (missing_subcommand 2 1 [(1, "alice")]
           (example_world false ["script.py"; "alice"])
           (MkCommand "example"
              [ArgDef "name" "a name" (PStr "str") false None None] false
              [("--count",
                ArgDef "count" "a count" (PStr "int") false
                  (Some ["--count"]) (Some (VInt 5)))]
              [("run", 0)] false)
           [("name", VStr "alice")] 1
           (example_world false ["script.py"; "alice"]) eq_refl eq_refl).
  - intros p Hp _. apply list_elem_of_singleton in Hp. by subst.
  - intros s Hs _. apply list_elem_of_singleton in Hs. subst. left. by eexists.
  - intros s Hs. apply list_elem_of_singleton in Hs. by subst.
  - done.
  - done.
  - done.
Defined.

(** ** Usage rendering *)

Section set_facts.
Context {V : Type}.
Implicit Types (d : list (string * V)) (k : string) (v : V).

Lemma keys_set k v d :
  Dict.keys (Dict.set k v d) =
  if Dict.mem k d then Dict.keys d else Dict.keys d ++ [k].
Proof.
  unfold Dict.mem. induction d as [|[k' v'] d IH]; simpl; [done|].
  destruct (String.eqb k k') eqn:E; simpl; [done|].
  rewrite IH. by destruct (Dict.get k d).
Qed.

Lemma mem_keys k d : Dict.mem k d = true ↔ k ∈ Dict.keys d.
Proof.
  unfold Dict.mem. induction d as [|[k' v'] d IH]; simpl.
  - split; [done|by intros ?%elem_of_nil].
  - destruct (String.eqb k k') eqn:E.
    + apply String.eqb_eq in E as ->. split; [left|done].
    + apply String.eqb_neq in E. rewrite IH. split; [by right|].
      by intros [?|?]%elem_of_cons.
Qed.

(** Assignment keeps the keys of a dictionary distinct. *)
Lemma NoDup_keys_set k v d :
  NoDup (Dict.keys d) → NoDup (Dict.keys (Dict.set k v d)).
Proof.
  intros Hnd. rewrite keys_set. destruct (Dict.mem k d) eqn:E; [done|].
  apply NoDup_app. split; [done|]. split; [|apply NoDup_singleton].
  intros x Hx ->%list_elem_of_singleton.
  apply mem_keys in Hx. congruence.
Qed.

Lemma elem_of_set k v d kv :
  kv ∈ Dict.set k v d → kv ∈ d ∨ kv.2 = v ∧ kv.1 = k.
Proof.
  induction d as [|[k' v'] d IH]; simpl.
  - intros ->%list_elem_of_singleton. by right.
  - destruct (String.eqb k k') eqn:E.
    + apply String.eqb_eq in E as ->.
      intros [->|?]%elem_of_cons; [by right|left; by right].
    + intros [->|H]%elem_of_cons; [left; left|].
      apply IH in H as [?|?]; [left; by right|by right].
Qed.
End set_facts.

(** Assigning definitions by name, one after the other, keeps the keys
    distinct and equal to the names; what is assigned is in the dictionary
    under its name, and nothing else is added. *)
Lemma fold_set_by_name (l : list argdef) (acc : list (string * argdef)) :
  NoDup (Dict.keys acc) →
  Forall (fun kv => arg_name kv.2 = kv.1) acc →
  NoDup (Dict.keys
           (fold_left (fun acc s => Dict.set (arg_name s) s acc) l acc)) ∧
  Forall (fun kv => arg_name kv.2 = kv.1)
    (fold_left (fun acc s => Dict.set (arg_name s) s acc) l acc) ∧
  (∀ kv, kv ∈ fold_left (fun acc s => Dict.set (arg_name s) s acc) l acc →
         kv ∈ acc ∨ kv.2 ∈ l) ∧
  (∀ k, k ∈ Dict.keys acc ∨ k ∈ map arg_name l →
        k ∈ Dict.keys
              (fold_left (fun acc s => Dict.set (arg_name s) s acc) l acc)).
Proof.
  revert acc.
  induction l as [|s l IH]; intros acc Hnd Hnames; simpl.
  - repeat split; [done..|auto|].
    by intros k [?|?%elem_of_nil].
  - destruct (IH (Dict.set (arg_name s) s acc)) as (Hnd' & Hn' & Hin & Hk).
    + by apply NoDup_keys_set.
    + apply Forall_forall. intros kv [Hkv|[-> ->]]%elem_of_set; [|done].
      by eapply Forall_forall in Hnames.
    + repeat split; [done..| |].
      * intros kv [[?|[<- _]]%elem_of_set|?]%Hin;
          [by left|right; left|right; by right].
      * intros k Hkk. apply Hk. rewrite keys_set.
        destruct (Dict.mem (arg_name s) acc) eqn:E.
        -- destruct Hkk as [?|[->|?]%elem_of_cons];
             [by left|left; by apply mem_keys|by right].
        -- destruct Hkk as [?|[->|?]%elem_of_cons]; [| |by right].
           ++ left. apply elem_of_app. by left.
           ++ left. apply elem_of_app. right. left.
Qed.

(** A definition that the usage lists is the definition of some alias. *)
Lemma distinct_switches_registered c s :
  s ∈ distinct_switches c → s ∈ Dict.values (switches c).
Proof.
  unfold distinct_switches. intros Hs.
  destruct (fold_set_by_name (Dict.values (switches c)) [])
    as (_ & _ & Hin & _); [constructor..|].
  apply list_elem_of_fmap in Hs as (kv & -> & Hkv).
  by destruct (Hin _ Hkv) as [?%elem_of_nil|?].
Qed.



(** ** Errors never leave [parse] *)

Lemma never_cle_bind {A B} (m : M A) (k : A → M B) :
  never_cle m → (∀ a, never_cle (k a)) → never_cle (bind m k).
Proof.
  intros Hm Hk w e. specialize (Hm w). unfold bind.
  destruct (m w) as [[a|e'|] w1]; simpl in *; [apply Hk| |done].
  intros [= ->]. by apply (Hm e).
Qed.

Lemma never_cle_for {A} (l : list A) body :
  (∀ x, never_cle (body x)) → never_cle (for_ l body).
Proof.
  intros H. induction l; simpl; [by intros w e|].
  apply never_cle_bind; auto.
Qed.

Lemma never_cle_try_except {A} (m : M A) handler :
  (∀ e, never_cle (handler e)) → never_cle (try_except m handler).
Proof.
  intros Hh w e. unfold try_except.
  destruct (m w) as [[a|[]|] w1]; simpl; try done. apply Hh.
Qed.

(** Splits a statement into parts that raise no [CommandLineError]. *)
Ltac never_cle :=
  repeat first
    [ progress eauto
    | apply never_cle_bind; [|intros ?]
    | apply never_cle_for; intros ?
    | apply never_cle_try_except; intros ?
    | match goal with
      | |- never_cle (if ?b then _ else _) => destruct b
      | |- never_cle (match ?x with _ => _ end) => destruct x
      | |- never_cle (ret _) => by intros ? ?
      | |- never_cle (raise _) => by intros ? ?
      | |- never_cle (sys_exit _) => by intros ? ?
      | |- never_cle out_of_fuel => by intros ? ?
      | |- never_cle (print _) => by intros ? ?
      | |- never_cle get_argv => by intros ? ?
      | |- never_cle (load ?l) =>
          let w := fresh in intros w ?; unfold load;
          by destruct (heap w !! l)
      end ].

Lemma never_cle_print_usage arg indent : never_cle (print_usage arg indent).
Proof. unfold print_usage. never_cle. Qed.

Lemma never_cle_switch_summaries args s : never_cle (switch_summaries args s).
Proof.
  revert s. induction args as [|arg args IH]; intros s; simpl; [never_cle|].
  apply never_cle_bind; [unfold switch_summary; never_cle|auto].
Qed.

Lemma never_cle__print_usage fuel self name indent_start indent_incr :
  never_cle (_print_usage fuel self name indent_start indent_incr).
Proof.
  revert self name indent_start.
  induction fuel as [|fuel IH]; intros; simpl; [never_cle|].
  unfold _print_usage_body.
  pose proof never_cle_print_usage. pose proof never_cle_switch_summaries.
  never_cle.
Qed.

Lemma never_cle_render_message e args : never_cle (render_message e args).
Proof. unfold render_message, _highlight_incorrect. never_cle. Qed.

(** X11.  [parse] raises no [CommandLineError], on any schema and command line:
    those that [_parse] raises are caught in it and reported. *)
Theorem parse_raises_no_CommandLineError fuel self binary w e :
  (parse fuel self binary w).1 ≠ Raise (CLE e).
Proof.
  destruct fuel as [|fuel]; [done|]. simpl. unfold parse_body.
  pose proof never_cle__print_usage. pose proof never_cle_render_message.
  assert (never_cle
            (parse_body (Command_print_usage (S fuel)) (parse fuel) self binary))
    as H1; [|apply H1].
  unfold parse_body, Command_print_usage.
  apply never_cle_bind; [never_cle|]. intros argv.
  destruct (Py.enumerate argv) as [|[? b] argv_iter].
  - destruct binary as [[|? [|? [|]]]|[|? [|? [|]]]]; never_cle.
  - never_cle.
Qed.

(** ** Outcomes on a well-built schema *)

Section post.
Variable h : gmap loc Command.
Variable argv : list string.

Lemma post_bind {A B} (Qm : res A → Prop) (Q : res B → Prop)
    (m : M A) (k : A → M B) :
  framed m → post h argv Qm m →
  (∀ a, Qm (Ok a) → post h argv Q (k a)) →
  (∀ e, Qm (Raise e) → Q (Raise e)) →
  (Qm OutOfFuel → Q OutOfFuel) →
  post h argv Q (bind m k).
Proof.
  intros Hf Hm Hk He Ho w Hh Ha. specialize (Hf w). specialize (Hm w Hh Ha).
  unfold bind. destruct (m w) as [[a|e|] w1]; simpl in *; [|auto..].
  destruct Hf as (Ha1 & Hh1 & _). apply Hk; [done|congruence..].
Qed.

(** The case of [post_bind] where the first statement returns. *)
Lemma post_bind_returned {A B} (Q : res B → Prop) (m : M A) (k : A → M B) :
  framed m → post h argv returned m →
  (∀ a, post h argv Q (k a)) →
  post h argv Q (bind m k).
Proof.
  intros Hf Hm Hk. apply (post_bind returned); auto.
  - by intros e [a ?].
  - by intros [a ?].
Qed.

Lemma post_load_bind {B} (Q : res B → Prop) self c (k : Command → M B) :
  h !! self = Some c → post h argv Q (k c) →
  post h argv Q (bind (load self) k).
Proof.
  intros Hc Hk w Hh Ha. rewrite (bind_ok _ _ _ c w); [by apply Hk|].
  apply load_ok. by rewrite Hh.
Qed.

Lemma post_for_returned {A} (l : list A) body :
  (∀ x, framed (body x)) → (∀ x, x ∈ l → post h argv returned (body x)) →
  post h argv returned (for_ l body).
Proof.
  intros Hf. induction l as [|x l IH]; intros Hb; simpl.
  - intros w _ _. by exists tt.
  - apply post_bind_returned; [apply Hf|apply Hb; left|].
    intros _. apply IH. intros y Hy. apply Hb. by right.
Qed.

Lemma post_print s : post h argv returned (print s).
Proof. intros w _ _. by exists tt. Qed.

Lemma post_ret {A} (a : A) : post h argv returned (ret a).
Proof. intros w _ _. by exists a. Qed.

Lemma post_print_usage arg indent :
  post h argv returned (print_usage arg indent).
Proof.
  unfold print_usage. apply post_bind_returned; [framed|apply post_print|].
  intros _. destruct (arg_parser arg); [destruct (nonempty _)| |];
    first [apply post_print|apply post_ret|idtac].
  destruct (nonempty _); [apply post_print|apply post_ret].
Qed.

Lemma post_switch_summaries args s :
  Forall (fun arg => arg_switches arg ≠ None) args →
  post h argv returned (switch_summaries args s).
Proof.
  intros H. revert s. induction H as [|arg args Harg _ IH]; intros s; simpl.
  - apply post_ret.
  - apply post_bind_returned; [unfold switch_summary; framed| |auto].
    unfold switch_summary. destruct (arg_switches arg); [apply post_ret|done].
Qed.

(** [_print_usage] returns on a tree of [Command]s whose switches are as
    [switch] builds them. *)
Lemma post__print_usage d fuel self name indent_start indent_incr :
  (∀ l c, h !! l = Some c → switches_built c) →
  nesting h d self → d ≤ fuel →
  post h argv returned
    (_print_usage fuel self name indent_start indent_incr).
Proof.
  intros Hbuilt. revert d self name indent_start.
  induction fuel as [|fuel IH]; intros d self name indent_start Hn Hd.
  { inversion Hn; subst. lia. }
  inversion Hn as [d0 ? c Hc Hsub]; subst. simpl. unfold _print_usage_body.
  apply (post_load_bind _ _ c); [done|].
  pose proof framed_print_usage. pose proof framed_switch_summaries.
  pose proof framed__print_usage.
  assert (Forall (fun arg => arg_switches arg ≠ None) (distinct_switches c))
    as Hds.
  { apply Forall_forall. intros s Hs. apply (Hbuilt _ _ Hc).
    by apply distinct_switches_registered. }
  apply post_bind_returned; [framed|by apply post_switch_summaries|].
  intros s.
  apply post_bind_returned; [framed|apply post_print|]. intros _.
  apply post_bind_returned;
    [framed|apply post_for_returned; [intros; framed|intros; apply post_print_usage]|].
  intros _.
  apply post_bind_returned;
    [framed|apply post_for_returned; [intros; framed|intros; apply post_print_usage]|].
  intros _.
  destruct (subcommands c) as [|item items] eqn:E; [apply post_ret|].
  rewrite <- E in Hsub |- *. clear E.
  apply post_bind_returned; [framed| |intros; apply post_print].
  apply post_for_returned; [intros; framed|].
  intros x Hx. apply post_bind_returned; [framed|apply post_print|].
  intros _. apply (IH d0); [|lia].
  rewrite Forall_forall in Hsub. by apply Hsub.
Qed.
End post.

(** A statement that returns, with what it returns and the state. *)
Lemma returned_inv {A} (m : M A) w :
  returned (m w).1 → ∃ a w', m w = (Ok a, w').
Proof.
  intros [a Ha]. destruct (m w) as [r w']. simpl in Ha. subst. eauto.
Qed.

(** The method [print_usage], in the terms of [post]. *)
Lemma post_Command_print_usage h argv d fuel self binary indent :
  (∀ l c, h !! l = Some c → switches_built c) →
  nesting h d self → d ≤ fuel →
  post h argv returned (Command_print_usage fuel self binary indent).
Proof.
  intros Hbuilt Hn Hd. unfold Command_print_usage.
  apply post_bind_returned; [framed|apply post_print|]. intros _.
  by apply (post__print_usage _ _ d).
Qed.


Lemma step_outcome_parse_arg n i arg val argdef w :
  static_spec (arg_parser argdef) → i < n →
  step_outcome n (parse_arg i arg val argdef w).1.
Proof.
  intros Hs Hi.
  assert (∀ (e : CommandLineError), e_index e = Some i →
            @step_outcome n (list (string * value)) (Raise (CLE e))) as Herr.
  { intros e He. right. right. exists e. split; [done|].
    intros j. rewrite He. by intros [= <-]. }
  unfold parse_arg.
  destruct Hs as [-> | [-> | [-> | [-> | [vals ->]]]]]; simpl;
    destruct val as [s|]; simpl; try (by apply Herr); unfold bind; simpl;
    repeat first
      [ by apply Herr
      | by (left; eexists)
      | match goal with
        | |- context [match ?x with _ => _ end] =>
            lazymatch type of x with
            | bool => idtac
            | option _ => idtac
            end;
            destruct x; simpl
        end ].
Qed.

Lemma render_message_returns e args w :
  (∀ i, e_index e = Some i → i < length args) →
  ∃ msg, render_message e args w = (Ok msg, w).
Proof.
  intros Hi. unfold render_message.
  destruct (e_index e) as [i|]; [|by eexists].
  specialize (Hi i eq_refl). unfold _highlight_incorrect.
  destruct (args !! 0) as [binary|] eqn:E0.
  2: { apply lookup_ge_None in E0. lia. }
  destruct (args !! i) as [wrong|] eqn:Ei.
  2: { apply lookup_ge_None in Ei. lia. }
  by eexists.
Qed.

Section static_schema.
Variable h : gmap loc Command.
Variable argv : list string.
Hypothesis static_heap : ∀ l c, h !! l = Some c → static_command c.

Lemma post_bind_step {A B} (m : M A) (k : A → M B) :
  framed m → post h argv (step_outcome (length argv)) m →
  (∀ a, post h argv (step_outcome (length argv)) (k a)) →
  post h argv (step_outcome (length argv)) (bind m k).
Proof.
  intros Hf Hm Hk. apply (post_bind _ _ (step_outcome (length argv))); auto.
  - intros e [[a ?]|[[= ->]|(ce & [= ->] & ?)]]; [done|by right; left|].
    right. right. eauto.
  - by intros [[a ?]|[?|(ce & ? & ?)]].
Qed.

Lemma post_ret_step {A} (a : A) :
  post h argv (step_outcome (length argv)) (ret a).
Proof. intros w _ _. left. by exists a. Qed.

Lemma step_outcome_missing {A} n option :
  @step_outcome n A (Raise (CLE (MissingOption option))).
Proof. right. right. eexists. split; [done|]. done. Qed.

Section static__parse.
Variable parse : loc → binary_arg → M (list (string * value)).
Variable d : nat.
Hypothesis framed_rec : ∀ self binary, framed (parse self binary).
Hypothesis post_rec :
  ∀ cmd binary, nesting h d cmd → post h argv parse_outcome (parse cmd binary).

Lemma post__parse_token self argv_iter out positional_index i arg :
  nesting h (S d) self → i < length argv →
  post h argv (step_outcome (length argv))
    (_parse_token parse self argv_iter out positional_index i arg).
Proof.
  intros Hn Hi. inversion Hn as [? ? c Hc Hsub]; subst.
  destruct (static_heap _ _ Hc) as (_ & Hpos & Hsw).
  unfold _parse_token. apply (post_load_bind _ _ _ _ c); [done|].
  pose proof framed_parse_arg.
  destruct (Py.startswith arg "-").
  - destruct (Py.partition "=" arg) as [[a e] v].
    destruct (Dict.get a (switches c)) as [s|] eqn:E.
    + apply post_bind_step; [framed| |intros; apply post_ret_step].
      intros w _ _. apply step_outcome_parse_arg; [|done].
      apply Hsw. by eapply get_values.
    + intros w _ _. right. right. eexists. split; [done|]. by intros ? [= <-].
  - destruct (Dict.get arg (subcommands c)) as [cmd|] eqn:E.
    + apply (post_bind _ _ parse_outcome);
        [apply framed_rec| |intros; apply post_ret_step| |].
      * apply post_rec. apply get_values in E.
        apply list_elem_of_fmap in E as (item & -> & Hitem).
        rewrite Forall_forall in Hsub. by apply Hsub.
      * intros e [[a ?]|[= ->]]; [done|by right; left].
      * by intros [[a ?]|?].
    + destruct (length (positionals c) <=? positional_index) eqn:El.
      * intros w _ _. right. right. eexists. split; [done|]. by intros ? [= <-].
      * apply Nat.leb_gt in El.
        destruct (positionals c !! positional_index) as [p|] eqn:Ep.
        2: { apply lookup_ge_None in Ep. lia. }
        apply post_bind_step; [framed| |intros; apply post_ret_step].
        intros w _ _. apply step_outcome_parse_arg; [|done].
        apply Hpos. by eapply list_elem_of_lookup_2.
Qed.

Lemma post__parse_loop self argv_iter out positional_index :
  nesting h (S d) self →
  Forall (fun x => x.1 < length argv) argv_iter →
  post h argv (step_outcome (length argv))
    (_parse_loop parse self argv_iter out positional_index).
Proof.
  intros Hn Hit. revert out positional_index.
  induction Hit as [|[i arg] it Hi _ IH]; intros; simpl.
  - apply post_ret_step.
  - apply post_bind_step;
      [by apply framed__parse_token|by apply post__parse_token|auto].
Qed.

Lemma post__parse_body self argv_iter :
  nesting h (S d) self →
  Forall (fun x => x.1 < length argv) argv_iter →
  post h argv (step_outcome (length argv))
    (_parse_body parse self argv_iter).
Proof.
  intros Hn Hit. inversion Hn as [? ? c Hc Hsub]; subst.
  destruct (static_heap _ _ Hc) as (Hbuilt & _).
  unfold _parse_body.
  apply post_bind_step;
    [by apply framed__parse_loop|by apply post__parse_loop|].
  intros st. apply (post_load_bind _ _ _ _ c); [done|].
  apply post_bind_step.
  - unfold check_positionals. framed.
  - intros w _ _.
    destruct (check_positionals_spec c st.1 w) as [[-> _]|[o ->]].
    + left. eauto.
    + apply step_outcome_missing.
  - intros _. apply post_bind_step.
    + apply framed_fill_defaults.
    + intros w _ _.
      destruct (fill_defaults_spec (Dict.values (switches c)) st.1 w)
        as [[o ->]|(out & -> & _)]; [by apply Forall_forall| |left; eauto].
      apply step_outcome_missing.
    + intros out. apply post_bind_step; [|
        |intros; apply post_ret_step].
      * unfold check_subcommands. framed.
      * intros w _ _.
        destruct (check_subcommands_spec c out w) as [->|[o ->]].
        -- left. eauto.
        -- apply step_outcome_missing.
Qed.
End static__parse.
End static_schema.

(** [render_message] does not look at the output already printed. *)
Lemma render_message_returns_at e args w msg :
  render_message e args w = (Ok msg, w) →
  ∀ w', render_message e args w' = (Ok msg, w').
Proof.
  unfold render_message, _highlight_incorrect. intros H w'.
  destruct (e_index e) as [i|]; [|by injection H as <-].
  destruct (args !! 0); [|done]. destruct (args !! i); [|done].
  by injection H as <-.
Qed.

Lemma enumerate_indices {A} (l : list A) start :
  Forall (fun x => x.1 < start + length l) (combine (seq start (length l)) l).
Proof.
  revert start. induction l as [|x l IH]; intros start; simpl; [constructor|].
  constructor; [simpl; lia|].
  eapply Forall_impl; [apply (IH (S start))|]. intros [i y]; simpl. lia.
Qed.

(** X13.  What [parse] prints and does with an error of [_parse] whose index is
    within the command line: a blank line, the message with the token at
    that index in red, and an exit with status -1. *)
Theorem parse_error_report fuel self binary w a argv e w1 :
  sys_argv w = a :: argv →
  (length (a :: argv) <=? 1) || Py.contains "--help" (a :: argv) = false →
  _parse fuel self (tail (Py.enumerate (a :: argv))) w = (Raise (CLE e), w1) →
  (∀ i, e_index e = Some i → i < length (a :: argv)) →
  ∃ msg,
    render_message e (a :: argv) w1 = (Ok msg, w1) ∧
    (parse (S fuel) self binary w).1 = Raise (SystemExit (-1)) ∧
    stdout (parse (S fuel) self binary w).2 = stdout w1 ++ [EmptyString; msg].
Proof.
  intros Hargv Hcond Hparse Hidx.
  rewrite (parse_reports_error _ _ _ _ _ _ _ _ Hargv Hcond Hparse).
  destruct (render_message_returns e (a :: argv) w1 Hidx) as [msg Hmsg].
  exists msg. split; [done|].
  assert ((print EmptyString ;;
           msg <- render_message e (a :: argv) ;;
           print msg ;;
           @sys_exit (list (string * value)) (-1)) w1
          = (Raise (SystemExit (-1)),
             World (sys_argv w1) (heap w1)
               ((stdout w1 ++ [EmptyString]) ++ [msg]) (calls w1))) as ->.
  { unfold bind at 1, print at 1.
    by rewrite (bind_ok _ _ _ msg _
                  (render_message_returns_at _ _ _ _ Hmsg _)). }
  simpl. by rewrite <- app_assoc.
Qed.

Lemma post_parse h argv d fuel self binary :
  (∀ l c, h !! l = Some c → static_command c) →
  argv ≠ [] →
  nesting h d self → d ≤ fuel →
  post h argv parse_outcome (parse fuel self binary).
Proof.
  intros Hstatic Hargv. revert d self binary.
  induction fuel as [|fuel IH]; intros d self binary Hn Hd.
  { inversion Hn; subst. lia. }
  intros w Hh Ha. simpl. unfold parse_body.
  rewrite (bind_ok get_argv _ w argv w) by (unfold get_argv; by rewrite Ha).
  destruct argv as [|a rest]; [done|].
  change (Py.enumerate (a :: rest))
    with ((0, a) :: combine (seq 1 (length rest)) rest).
  cbv iota beta.
  destruct ((length (a :: rest) <=? 1) || Py.contains "--help" (a :: rest)).
  - destruct (returned_inv _ w
                (post_Command_print_usage (heap w) (sys_argv w) d (S fuel)
                   self a 2
                   (fun l c Hc => proj1 (Hstatic l c
                                           (eq_ind _ (fun g => g !! l = Some c)
                                              Hc _ Hh)))
                   (eq_ind_r (fun g => nesting g d self) Hn Hh) Hd
                   w eq_refl eq_refl))
      as ([] & w' & Hu).
    rewrite (bind_ok _ _ _ _ _ Hu). by right.
  - inversion Hn as [d0 ? c Hc Hsub]; subst d.
    assert (post (heap w) (a :: rest) (step_outcome (length (a :: rest)))
              (_parse_body (parse fuel) self
                 (combine (seq 1 (length rest)) rest))) as Hbody.
    { rewrite Hh.
      apply (post__parse_body h (a :: rest) Hstatic (parse fuel) d0);
        [apply framed_parse| |by subst|apply (enumerate_indices rest 1)].
      intros cmd b Hcmd. apply (IH d0); [done|lia]. }
    specialize (Hbody w eq_refl Ha).
    pose proof (framed__parse_body (parse fuel) (framed_parse fuel) self
                  (combine (seq 1 (length rest)) rest) w) as (Ha1 & _).
    unfold try_except.
    destruct (_parse_body (parse fuel) self _ w) as [r w1]. simpl in *.
    destruct Hbody as [[out ->]|[->|(e & -> & Hidx)]].
    + left. eauto.
    + by right.
    + destruct (render_message_returns e (a :: rest) w1 Hidx) as [msg Hmsg].
      right. unfold bind at 1, print at 1. unfold bind at 1, get_argv. simpl.
      rewrite Ha1, Ha.
      by rewrite (bind_ok _ _ _ msg _
                    (render_message_returns_at _ _ _ _ Hmsg _)).
Qed.


Lemma quiet_bind {A B} (m : M A) (k : A → M B) :
  quiet m → (∀ a, quiet (k a)) → quiet (bind m k).
Proof.
  intros Hm Hk w. specialize (Hm w). unfold bind.
  destruct (m w) as [[a|e|] w1]; simpl in *; [|done..].
  by rewrite Hk.
Qed.

Lemma quiet_for {A} (l : list A) body :
  (∀ x, quiet (body x)) → quiet (for_ l body).
Proof.
  intros H. induction l; simpl; [by intros w|].
  apply quiet_bind; auto.
Qed.

(** Splits a statement into parts that invoke no callable. *)
Ltac quiet :=
  repeat first
    [ progress eauto
    | apply quiet_bind; [|intros ?]
    | apply quiet_for; intros ?
    | match goal with
      | |- quiet (if ?b then _ else _) => destruct b
      | |- quiet (match ?x with _ => _ end) => destruct x
      | |- quiet (ret _) => by intros ?
      | |- quiet (raise _) => by intros ?
      | |- quiet (sys_exit _) => by intros ?
      | |- quiet out_of_fuel => by intros ?
      | |- quiet (print _) => by intros ?
      | |- quiet (load ?l) =>
          let w := fresh in intros w; unfold load; by destruct (heap w !! l)
      end ].

Lemma quiet_print_usage arg indent : quiet (print_usage arg indent).
Proof. unfold print_usage. quiet. Qed.

Lemma quiet_switch_summaries args s : quiet (switch_summaries args s).
Proof.
  revert s. induction args as [|arg args IH]; intros s; simpl; [quiet|].
  apply quiet_bind; [unfold switch_summary; quiet|auto].
Qed.

Lemma quiet__print_usage fuel self name indent_start indent_incr :
  quiet (_print_usage fuel self name indent_start indent_incr).
Proof.
  revert self name indent_start.
  induction fuel as [|fuel IH]; intros; simpl; [quiet|].
  unfold _print_usage_body.
  pose proof quiet_print_usage. pose proof quiet_switch_summaries.
  quiet.
Qed.


Lemma example_heap optional argv :
  heap (example_world optional argv)
  = <[1 := example_root optional]> {[0 := example_run_command]}.
Proof. by destruct optional. Qed.

Lemma example_world_static optional argv l c :
  heap (example_world optional argv) !! l = Some c → static_command c.
Proof.
  rewrite example_heap.
  intros [[<- <-]|[_ [<- <-]%lookup_singleton_Some]]%lookup_insert_Some.
  - repeat split.
    + intros s Hs. apply list_elem_of_singleton in Hs. by subst.
    + intros p Hp. apply list_elem_of_singleton in Hp. subst. by left.
    + intros s Hs. apply list_elem_of_singleton in Hs. subst.
      right. by left.
  - repeat split; by intros ? ?%elem_of_nil.
Qed.

Lemma example_world_nesting optional argv :
  nesting (heap (example_world optional argv)) 2 1.
Proof.
  eapply nesting_node; [by destruct optional|].
  repeat constructor. simpl.
  eapply nesting_node; [by destruct optional|]. constructor.
Qed.




Lemma parse_error_report_witness :
  ∃ msg,
    render_message (UnknownSwitch 1 "--y") ["script.py"; "--y=2"]
      (x_world (PStr "int") ["script.py"; "--y=2"])
    = (Ok msg, x_world (PStr "int") ["script.py"; "--y=2"]) ∧
    (parse 1 0 (BinStr "script.py")
       (x_world (PStr "int") ["script.py"; "--y=2"])).1
    = Raise (SystemExit (-1)) ∧
    stdout (parse 1 0 (BinStr "script.py")
              (x_world (PStr "int") ["script.py"; "--y=2"])).2
    = stdout (x_world (PStr "int") ["script.py"; "--y=2"])
      ++ [EmptyString; msg].
Proof.
  apply (parse_error_report 0 0 (BinStr "script.py")
           (x_world (PStr "int") ["script.py"; "--y=2"])
           "script.py" ["--y=2"] (UnknownSwitch 1 "--y")
           (x_world (PStr "int") ["script.py"; "--y=2"])
           eq_refl eq_refl eq_refl).
  intros i [= <-]. simpl. lia.
Defined.

(** ** The order of switches and positional values *)

Lemma same_items_mem d1 d2 k :
  same_items d1 d2 → Dict.mem k d1 = Dict.mem k d2.
Proof. intros H. unfold Dict.mem. by rewrite (H k). Qed.

Lemma same_items_merge d1 d2 r :
  same_items d1 d2 → same_items (Dict.merge d1 r) (Dict.merge d2 r).
Proof. intros H k. by rewrite !get_merge, (H k). Qed.

Lemma same_items_set d1 d2 k v :
  same_items d1 d2 → same_items (Dict.set k v d1) (Dict.set k v d2).
Proof. intros H k'. by rewrite !get_set, (H k'). Qed.

Lemma same_items_swap out k1 v1 k2 v2 :
  k1 ≠ k2 →
  same_items (Dict.merge (Dict.merge out [(k1, v1)]) [(k2, v2)])
             (Dict.merge (Dict.merge out [(k2, v2)]) [(k1, v1)]).
Proof.
  intros Hne k. rewrite !get_merge, !assigned_singleton.
  destruct (String.eqb k k2) eqn:E2, (String.eqb k k1) eqn:E1; try done.
  apply String.eqb_eq in E1, E2. congruence.
Qed.

(** With a static spec, [parse_arg] changes nothing, and what it returns
    depends neither on the index nor on the alias. *)
Lemma parse_arg_static i arg val argdef w r w' :
  static_spec (arg_parser argdef) →
  parse_arg i arg val argdef w = (Ok r, w') →
  w' = w ∧ (∃ v, r = [(arg_name argdef, v)]) ∧
  ∀ i' arg' w2, parse_arg i' arg' val argdef w2 = (Ok r, w2).
Proof.
  intros Hs. unfold parse_arg.
  destruct Hs as [->|[->|[->|[->|[vals ->]]]]]; simpl;
    destruct val as [s|]; simpl; try done.
  all: repeat match goal with
       | |- context [match ?x with _ => _ end] =>
           lazymatch type of x with
           | bool => destruct x
           | option _ => destruct x
           end
       end.
  all: unfold bind, ret, raise; simpl; try done.
  all: intros [= <- <-]; eauto.
Qed.

Section token_order.
Variable parse : loc → binary_arg → M (list (string * value)).
Variable self : loc.
Variable c : Command.
Hypothesis static_c : static_command c.

(** A switch token that is accepted. *)
Lemma _parse_token_static_switch argv_iter out positional_index i a w st w' :
  heap w !! self = Some c →
  Py.startswith a "-" = true →
  _parse_token parse self argv_iter out positional_index i a w = (Ok st, w') →
  w' = w ∧
  ∃ s v, s ∈ Dict.values (switches c) ∧
    st = (Dict.merge out [(arg_name s, v)], positional_index) ∧
    ∀ argv_iter' out' positional_index' i',
      _parse_token parse self argv_iter' out' positional_index' i' a w
      = (Ok (Dict.merge out' [(arg_name s, v)], positional_index'), w).
Proof.
  intros Hc Hdash Htok.
  destruct (Py.partition "=" a) as [[key e] val] eqn:Hpart.
  rewrite (_parse_token_switch _ _ _ _ _ _ _ _ _ _ _ _ Hc Hdash Hpart) in Htok.
  destruct (Dict.get key (switches c)) as [d|] eqn:Hd; [|done].
  apply bind_inv_ok in Htok as (r & w1 & Hr & [= <- <-]).
  pose proof (get_values _ _ _ Hd) as Hin.
  destruct static_c as (_ & _ & Hsw).
  destruct (parse_arg_static _ _ _ _ _ _ _ (Hsw _ Hin) Hr)
    as (-> & [v ->] & Hany).
  split; [done|]. exists d, v. repeat split; [done|].
  intros it' out' pi' i'.
  rewrite (_parse_token_switch _ _ _ _ _ _ _ _ _ _ _ _ Hc Hdash Hpart), Hd.
  by rewrite (bind_ok _ _ _ _ _ (Hany i' (Some key) w)).
Qed.

(** A plain token that is accepted. *)
Lemma _parse_token_static_plain argv_iter out positional_index i b w st w' :
  heap w !! self = Some c →
  plain c b = true →
  _parse_token parse self argv_iter out positional_index i b w = (Ok st, w') →
  w' = w ∧
  ∃ p v, p ∈ positionals c ∧
    st = (Dict.merge out [(arg_name p, v)], positional_index + 1) ∧
    ∀ argv_iter' out' i',
      _parse_token parse self argv_iter' out' positional_index i' b w
      = (Ok (Dict.merge out' [(arg_name p, v)], positional_index + 1), w).
Proof.
  intros Hc Hplain Htok. unfold plain, Dict.mem in Hplain.
  apply andb_prop in Hplain as [Hdash Hsub].
  apply negb_true_iff in Hdash.
  assert (Dict.get b (subcommands c) = None) as Hnone.
  { by destruct (Dict.get b (subcommands c)). }
  assert (∀ it out' i',
    _parse_token parse self it out' positional_index i' b w =
    if length (positionals c) <=? positional_index
    then (Raise (CLE (TooManyPositionals i' b)), w)
    else match positionals c !! positional_index with
         | Some argdef =>
             (r <- parse_arg i' None (Some b) argdef ;;
              ret (Dict.merge out' r, positional_index + 1)) w
         | None => (Raise IndexError, w)
         end) as Hstep.
  { intros it out' i'. unfold _parse_token.
    rewrite (bind_ok _ _ _ _ _ (load_ok _ _ _ Hc)), Hdash, Hnone.
    destruct (_ <=? _); [done|].
    by destruct (positionals c !! positional_index). }
  rewrite Hstep in Htok.
  destruct (length (positionals c) <=? positional_index) eqn:E; [done|].
  destruct (positionals c !! positional_index) as [d|] eqn:Hd; [|done].
  apply bind_inv_ok in Htok as (r & w1 & Hr & [= <- <-]).
  pose proof (list_elem_of_lookup_2 _ _ _ Hd) as Hin.
  destruct static_c as (_ & Hpos & _).
  destruct (parse_arg_static _ _ _ _ _ _ _ (Hpos _ Hin) Hr)
    as (-> & [v ->] & Hany).
  split; [done|]. exists d, v. repeat split; [done|].
  intros it' out' i'. rewrite Hstep.
  by rewrite (bind_ok _ _ _ _ _ (Hany i' None w)).
Qed.

(** The loop treats dictionaries with the same items alike. *)
Lemma _parse_loop_same argv_iter out1 out2 positional_index w st1 w' :
  same_items out1 out2 →
  _parse_loop parse self argv_iter out1 positional_index w = (Ok st1, w') →
  ∃ st2,
    _parse_loop parse self argv_iter out2 positional_index w = (Ok st2, w') ∧
    same_items st1.1 st2.1 ∧ st1.2 = st2.2.
Proof.
  revert out1 out2 positional_index w.
  induction argv_iter as [|[i arg] it IH];
    intros out1 out2 positional_index w Hsame; cbn [_parse_loop].
  - intros [= <- <-]. by exists (out2, positional_index).
  - intros H. apply bind_inv_ok in H as (st & w1 & Htok & Hrest).
    rewrite _parse_token_merge in Htok.
    apply bind_inv_ok in Htok as (st0 & w0 & Htok & [= <- <-]).
    assert (_parse_token parse self it out2 positional_index i arg w
            = (Ok (Dict.merge out2 st0.1, st0.2), w0)) as Htok2.
    { rewrite _parse_token_merge. by rewrite (bind_ok _ _ _ _ _ Htok). }
    rewrite (bind_ok _ _ _ _ _ Htok2).
    eapply IH; [|exact Hrest]. by apply same_items_merge.
Qed.

(** What follows a token in the iterator matters only to a subcommand's
    [parse], which does not look at it. *)
Hypothesis framed_rec : ∀ cmd binary, framed (parse cmd binary).
Hypothesis parse_ignores :
  ∀ cmd b1 b2 w, sys_argv w ≠ [] → parse cmd b1 w = parse cmd b2 w.

Lemma _parse_token_iter it1 it2 out positional_index i arg w :
  sys_argv w ≠ [] →
  _parse_token parse self it1 out positional_index i arg w =
  _parse_token parse self it2 out positional_index i arg w.
Proof.
  intros Hne. unfold _parse_token.
  destruct (heap w !! self) as [c0|] eqn:Hc0.
  - rewrite !(bind_ok _ _ _ _ _ (load_ok _ _ _ Hc0)).
    destruct (Py.startswith arg "-"); [done|].
    destruct (Dict.get arg (subcommands c0)) as [cmd|]; [|done].
    unfold bind.
    by rewrite (parse_ignores cmd (BinIter it1) (BinIter it2) w Hne).
  - unfold bind, load. by rewrite Hc0.
Qed.

Lemma _parse_prefix_post pre post1 post2 out positional_index w :
  sys_argv w ≠ [] →
  _parse_prefix parse self pre post1 out positional_index w =
  _parse_prefix parse self pre post2 out positional_index w.
Proof.
  revert out positional_index w.
  induction pre as [|[i arg] pre IH]; intros out positional_index w Hne;
    simpl; [done|].
  unfold bind.
  rewrite (_parse_token_iter (pre ++ post1) (pre ++ post2) _ _ _ _ _ Hne).
  pose proof (framed__parse_token parse framed_rec self (pre ++ post2) out
                positional_index i arg w) as (Ha & _).
  destruct (_parse_token parse self (pre ++ post2) out positional_index i arg w)
    as [[st|e|] w1]; [|done..].
  simpl in Ha. apply IH. by rewrite Ha.
Qed.
End token_order.

Lemma check_positionals_same c out1 out2 w :
  same_items out1 out2 →
  check_positionals c out1 w = check_positionals c out2 w.
Proof.
  intros Hsame. unfold check_positionals. revert w.
  induction (positionals c) as [|p ps IH]; intros w; simpl; [done|].
  rewrite (same_items_mem _ _ _ Hsame). apply bind_ext. intros _ w1.
  apply IH.
Qed.

Lemma fill_defaults_same l out1 out2 w r1 w' :
  same_items out1 out2 →
  fill_defaults l out1 w = (Ok r1, w') →
  ∃ r2, fill_defaults l out2 w = (Ok r2, w') ∧ same_items r1 r2.
Proof.
  revert out1 out2.
  induction l as [|s l IH]; intros out1 out2 Hsame; simpl.
  - intros [= <- <-]. by exists out2.
  - rewrite <- (same_items_mem _ _ _ Hsame).
    destruct (negb (arg_optional s) && negb (Dict.mem (arg_name s) out1));
      [|by apply IH].
    destruct (arg_default s) as [d|]; [|by destruct (arg_switches s)].
    apply IH. by apply same_items_set.
Qed.

Lemma check_subcommands_same c out1 out2 w :
  same_items out1 out2 →
  check_subcommands c out1 w = check_subcommands c out2 w.
Proof.
  intros Hsame. unfold check_subcommands.
  by rewrite (same_items_mem _ _ _ Hsame).
Qed.

(** From loops that end alike, [_parse] returns alike. *)
Lemma _parse_same fuel self it1 it2 w c out1 out2 pi1 pi2 w1 out w' :
  heap w !! self = Some c →
  _parse_loop (parse fuel) self it1 [] 0 w = (Ok (out1, pi1), w1) →
  _parse_loop (parse fuel) self it2 [] 0 w = (Ok (out2, pi2), w1) →
  same_items out1 out2 →
  _parse fuel self it1 w = (Ok out, w') →
  ∃ out', _parse fuel self it2 w = (Ok out', w') ∧ same_items out out'.
Proof.
  intros Hc H1 H2 Hsame.
  rewrite (_parse_after_loop _ _ _ _ _ _ _ _ Hc H1),
          (_parse_after_loop _ _ _ _ _ _ _ _ Hc H2).
  intros H. apply bind_inv_ok in H as ([] & w2 & Hpos & H).
  apply bind_inv_ok in H as (r1 & w3 & Hfill & H).
  apply bind_inv_ok in H as ([] & w4 & Hsub & [= <- <-]).
  rewrite (check_positionals_same _ _ _ _ Hsame) in Hpos.
  destruct (fill_defaults_same _ _ _ _ _ _ Hsame Hfill) as (r2 & Hfill2 & Hr).
  rewrite (check_subcommands_same _ _ _ _ Hr) in Hsub.
  exists r2. split; [|done].
  by rewrite (bind_ok _ _ _ _ _ Hpos), (bind_ok _ _ _ _ _ Hfill2),
             (bind_ok _ _ _ _ _ Hsub).
Qed.

(** Two neighbours in the iterator, then the rest, from the state that
    the tokens before them leave. *)
Lemma _parse_loop_pair fuel self pre t1 t2 post w st w' :
  sys_argv w ≠ [] →
  _parse_loop (parse fuel) self (pre ++ t1 :: t2 :: post) [] 0 w = (Ok st, w') ↔
  ∃ st0 w0 st1 w1 st2 w2,
    _parse_prefix (parse fuel) self pre [] [] 0 w = (Ok st0, w0) ∧
    _parse_token (parse fuel) self [] st0.1 st0.2 t1.1 t1.2 w0 = (Ok st1, w1) ∧
    _parse_token (parse fuel) self [] st1.1 st1.2 t2.1 t2.2 w1 = (Ok st2, w2) ∧
    _parse_loop (parse fuel) self post st2.1 st2.2 w2 = (Ok st, w').
Proof.
  intros Hne.
  assert (∀ st0 w0,
    _parse_prefix (parse fuel) self pre [] [] 0 w = (Ok st0, w0) →
    sys_argv w0 ≠ []) as Hne0.
  { intros st0 w0 Hpre.
    pose proof (framed__parse_prefix (parse fuel) self pre [] [] 0
                  (framed_parse fuel) w) as (Ha & _).
    rewrite Hpre in Ha. simpl in Ha. by rewrite Ha. }
  assert (∀ it out pi i a w0 st1 w1,
    sys_argv w0 ≠ [] →
    _parse_token (parse fuel) self it out pi i a w0 = (Ok st1, w1) →
    sys_argv w1 ≠ []) as Hne1.
  { intros it out pi i a w0 st1 w1 Hw0 Htok.
    pose proof (framed__parse_token (parse fuel) (framed_parse fuel) self it
                  out pi i a w0) as (Ha & _).
    rewrite Htok in Ha. simpl in Ha. by rewrite Ha. }
  rewrite _parse_loop_app. destruct t1 as [i1 a1], t2 as [i2 a2].
  cbn [_parse_loop fst snd]. split.
  - intros H. apply bind_inv_ok in H as (st0 & w0 & Hpre & H).
    rewrite (_parse_prefix_post (parse fuel) self (framed_parse fuel)
               (parse_ignores_binary fuel) pre _ [] [] 0 w Hne) in Hpre.
    apply bind_inv_ok in H as (st1 & w1 & Ht1 & H).
    rewrite (_parse_token_iter (parse fuel) self (parse_ignores_binary fuel)
               _ [] _ _ _ _ _ (Hne0 _ _ Hpre)) in Ht1.
    apply bind_inv_ok in H as (st2 & w2 & Ht2 & H).
    rewrite (_parse_token_iter (parse fuel) self (parse_ignores_binary fuel)
               _ [] _ _ _ _ _ (Hne1 _ _ _ _ _ _ _ _ (Hne0 _ _ Hpre) Ht1))
      in Ht2.
    by exists st0, w0, st1, w1, st2, w2.
  - intros (st0 & w0 & st1 & w1 & st2 & w2 & Hpre & Ht1 & Ht2 & H).
    rewrite <- (_parse_prefix_post (parse fuel) self (framed_parse fuel)
                  (parse_ignores_binary fuel) pre ((i1, a1) :: (i2, a2) :: post)
                  [] [] 0 w Hne) in Hpre.
    rewrite (bind_ok _ _ _ _ _ Hpre).
    rewrite <- (_parse_token_iter (parse fuel) self (parse_ignores_binary fuel)
                  ((i2, a2) :: post) [] _ _ _ _ _) in Ht1.
    2: { apply (Hne0 st0 w0).
         by rewrite <- (_parse_prefix_post (parse fuel) self (framed_parse fuel)
                          (parse_ignores_binary fuel) pre
                          ((i1, a1) :: (i2, a2) :: post) [] [] 0 w Hne). }
    rewrite (bind_ok _ _ _ _ _ Ht1).
    rewrite <- (_parse_token_iter (parse fuel) self (parse_ignores_binary fuel)
                  post [] _ _ _ _ _) in Ht2.
    2: { eapply Hne1; [|exact Ht1]. apply (Hne0 st0 w0).
         by rewrite <- (_parse_prefix_post (parse fuel) self (framed_parse fuel)
                          (parse_ignores_binary fuel) pre
                          ((i1, a1) :: (i2, a2) :: post) [] [] 0 w Hne). }
    by rewrite (bind_ok _ _ _ _ _ Ht2).
Qed.

(** X16.  A switch may come before or after a positional value.  For a static
    [Command] in which no positional shares its name with a switch, when
    [_parse] returns for an iterator in which a switch token is followed
    by a plain token, it returns a dictionary with the same items, from
    the same state, for the iterator with the two exchanged, whatever
    their indices; and the other way round. *)
Theorem switch_before_or_after_positional fuel self pre i a j b i' j' post
    w c :
  heap w !! self = Some c →
  sys_argv w ≠ [] →
  static_command c →
  names_apart c →
  Py.startswith a "-" = true →
  plain c b = true →
  (∀ out w',
     _parse fuel self (pre ++ (i, a) :: (j, b) :: post) w = (Ok out, w') →
     ∃ out',
       _parse fuel self (pre ++ (i', b) :: (j', a) :: post) w = (Ok out', w') ∧
       same_items out out') ∧
  (∀ out w',
     _parse fuel self (pre ++ (i', b) :: (j', a) :: post) w = (Ok out, w') →
     ∃ out',
       _parse fuel self (pre ++ (i, a) :: (j, b) :: post) w = (Ok out', w') ∧
       same_items out out').
Proof.
  intros Hc Hne Hstatic Hnames Hdash Hplain.
  split; intros out w' Hparse.
  - destruct (_parse_inv _ _ _ _ _ _ _ Hc Hparse) as (outA & piA & Hloop & _).
    pose proof Hloop as Hl.
    apply _parse_loop_pair in Hl
      as (st0 & w0 & st1 & w1 & st2 & w2 & Hpre & Ht1 & Ht2 & Hpost); [|done].
    simpl in Ht1, Ht2.
    assert (heap w0 !! self = Some c) as Hc0
      by by eapply _parse_prefix_heap.
    destruct (_parse_token_static_switch _ _ _ Hstatic _ _ _ _ _ _ _ _
                Hc0 Hdash Ht1) as (-> & s & vs & Hs & -> & Hsw).
    destruct (_parse_token_static_plain _ _ _ Hstatic _ _ _ _ _ _ _ _
                Hc0 Hplain Ht2) as (-> & p & vp & Hp & -> & Hpl).
    simpl in *.
    destruct (_parse_loop_same (parse fuel) self post _
                (Dict.merge (Dict.merge st0.1 [(arg_name p, vp)])
                   [(arg_name s, vs)]) _ _ _ _
                (same_items_swap _ _ _ _ _ (not_eq_sym (Hnames _ _ Hp Hs))) Hpost)
      as (stB & HpostB & HsameB & HpiB).
    eapply (_parse_same _ _ _ _ _ _ _ stB.1 _ stB.2 _ _ _ Hc Hloop);
      [|done|done].
    destruct stB as [outB piB]. apply _parse_loop_pair; [done|].
    exists st0, w0, (Dict.merge st0.1 [(arg_name p, vp)], st0.2 + 1), w0,
      (Dict.merge (Dict.merge st0.1 [(arg_name p, vp)]) [(arg_name s, vs)],
       st0.2 + 1), w0.
    split; [done|]. split; [apply Hpl|]. split; [apply Hsw|done].
  - destruct (_parse_inv _ _ _ _ _ _ _ Hc Hparse) as (outA & piA & Hloop & _).
    pose proof Hloop as Hl.
    apply _parse_loop_pair in Hl
      as (st0 & w0 & st1 & w1 & st2 & w2 & Hpre & Ht1 & Ht2 & Hpost); [|done].
    simpl in Ht1, Ht2.
    assert (heap w0 !! self = Some c) as Hc0
      by by eapply _parse_prefix_heap.
    destruct (_parse_token_static_plain _ _ _ Hstatic _ _ _ _ _ _ _ _
                Hc0 Hplain Ht1) as (-> & p & vp & Hp & -> & Hpl).
    destruct (_parse_token_static_switch _ _ _ Hstatic _ _ _ _ _ _ _ _
                Hc0 Hdash Ht2) as (-> & s & vs & Hs & -> & Hsw).
    simpl in *.
    destruct (_parse_loop_same (parse fuel) self post _
                (Dict.merge (Dict.merge st0.1 [(arg_name s, vs)])
                   [(arg_name p, vp)]) _ _ _ _
                (same_items_swap _ _ _ _ _ (Hnames _ _ Hp Hs)) Hpost)
      as (stB & HpostB & HsameB & HpiB).
    eapply (_parse_same _ _ _ _ _ _ _ stB.1 _ stB.2 _ _ _ Hc Hloop);
      [|done|done].
    destruct stB as [outB piB]. apply _parse_loop_pair; [done|].
    exists st0, w0, (Dict.merge st0.1 [(arg_name s, vs)], st0.2), w0,
      (Dict.merge (Dict.merge st0.1 [(arg_name s, vs)]) [(arg_name p, vp)],
       st0.2 + 1), w0.
    split; [done|]. split; [apply Hsw|]. split; [apply Hpl|done].
Qed.

Lemma count_command_static optional : static_command (count_command optional).
Proof.
  repeat split.
  - intros s Hs. apply list_elem_of_singleton in Hs. by subst.
  - intros p Hp. apply list_elem_of_singleton in Hp. subst. by left.
  - intros s Hs. apply list_elem_of_singleton in Hs. subst. right. by left.
Qed.

Lemma count_command_names_apart optional : names_apart (count_command optional).
Proof.
  intros p s Hp Hs.
  apply list_elem_of_singleton in Hp. apply list_elem_of_singleton in Hs.
  by subst.
Qed.

Lemma switch_before_or_after_positional_witness :
  ∃ out',
    _parse 1 0 [(1, "alice"); (2, "--count=3")]
      (count_world false ["script.py"; "--count=3"; "alice"])
    = (Ok out', count_world false ["script.py"; "--count=3"; "alice"]) ∧
    same_items [("count", VInt 3); ("name", VStr "alice")] out'.
Proof.
  apply (proj1 (switch_before_or_after_positional 1 0 [] 1 "--count=3"
                  2 "alice" 1 2 []
                  (count_world false ["script.py"; "--count=3"; "alice"])
                  (count_command false) eq_refl ltac:(done)
                  (count_command_static false)
                  (count_command_names_apart false) eq_refl eq_refl)
           [("count", VInt 3); ("name", VStr "alice")]
           (count_world false ["script.py"; "--count=3"; "alice"]) eq_refl).
Defined.

(** ** The values of a result *)

Lemma contains_elem_of x l : Py.contains x l = true → x ∈ l.
Proof.
  unfold Py.contains. induction l as [|y l IH]; simpl; [done|].
  intros [E|H]%orb_prop.
  - apply String.eqb_eq in E as ->. left.
  - right. auto.
Qed.

(** What [parse_arg] returns is of the kind its spec names. *)
Lemma parse_arg_conforms i arg val argdef w r w' :
  parse_arg i arg val argdef w = (Ok r, w') →
  ∃ v, r = [(arg_name argdef, v)] ∧ conforms (arg_parser argdef) v.
Proof.
  unfold parse_arg. destruct (negb _ && is_None _) eqn:Enone; [done|].
  intros H. apply bind_inv_ok in H as (v & w1 & Hv & [= <- _]).
  exists v. split; [done|].
  destruct (arg_parser argdef) as [tag|vals|f]; [| |done].
  - unfold parser_is in *.
    destruct (String.eqb tag "str") eqn:Es.
    { apply String.eqb_eq in Es as ->. destruct val; [|done].
      by injection Hv as <- _. }
    destruct (String.eqb tag "int") eqn:Ei.
    { apply String.eqb_eq in Ei as ->. destruct val as [x|]; [|done].
      destruct (Py.int x); [|done]. by injection Hv as <- _. }
    destruct (String.eqb tag "float") eqn:Ef.
    { apply String.eqb_eq in Ef as ->. destruct val as [x|]; [|done].
      destruct (Py.float x); [|done]. by injection Hv as <- _. }
    destruct (String.eqb tag "bool") eqn:Eb; [|done].
    apply String.eqb_eq in Eb as ->. destruct val as [x|].
    + destruct (Py.contains (Py.lower x) ["1"; "true"]).
      { by injection Hv as <- _. }
      destruct (Py.contains (Py.lower x) ["0"; "false"]); [|done].
      by injection Hv as <- _.
    + by injection Hv as <- _.
  - simpl in Hv. destruct val as [x|]; [|done].
    destruct (Py.contains x vals) eqn:Ein; [|done].
    injection Hv as <- _. by apply contains_elem_of.
Qed.

Section result_values.
Variable parse : loc → binary_arg → M (list (string * value)).
Variable self : loc.
Variable c : Command.
Variable name : string.
Variable parser : parser_spec.
Hypothesis framed_rec : ∀ cmd binary, framed (parse cmd binary).
Hypothesis name_free : name ≠ "command" ∧ name ∉ Dict.keys (subcommands c).
Hypothesis name_spec :
  ∀ d, d ∈ positionals c ∨ d ∈ Dict.values (switches c) →
       arg_name d = name → arg_parser d = parser.

Lemma conforms_merge out d pv v :
  d ∈ positionals c ∨ d ∈ Dict.values (switches c) →
  conforms (arg_parser d) pv →
  (∀ v, Dict.get name out = Some v → conforms parser v) →
  Dict.get name (Dict.merge out [(arg_name d, pv)]) = Some v →
  conforms parser v.
Proof.
  intros Hd Hpv Hout. rewrite get_merge, assigned_singleton.
  destruct (String.eqb name (arg_name d)) eqn:E; [|auto].
  apply String.eqb_eq in E. intros [= <-].
  by rewrite <- (name_spec d Hd (eq_sym E)).
Qed.

Lemma _parse_token_conforms argv_iter out positional_index i arg w st w' :
  heap w !! self = Some c →
  _parse_token parse self argv_iter out positional_index i arg w = (Ok st, w') →
  (∀ v, Dict.get name out = Some v → conforms parser v) →
  ∀ v, Dict.get name st.1 = Some v → conforms parser v.
Proof.
  intros Hc Htok Hout v. unfold _parse_token in Htok.
  rewrite (bind_ok _ _ _ _ _ (load_ok _ _ _ Hc)) in Htok.
  destruct (Py.startswith arg "-").
  - destruct (Py.partition "=" arg) as [[a e] val].
    destruct (Dict.get a (switches c)) as [d|] eqn:Hd; [|done].
    apply bind_inv_ok in Htok as (r & w1 & Hr & [= <- _]).
    apply parse_arg_conforms in Hr as (pv & -> & Hpv). cbn [fst].
    apply (conforms_merge _ d pv); [right; by eapply get_values|done..].
  - destruct (Dict.get arg (subcommands c)) as [cmd|] eqn:Hcmd.
    + apply bind_inv_ok in Htok as (r & w1 & Hr & [= <- _]). cbn [fst].
      rewrite get_merge. intros [H|H]%assigned_Some; [auto|].
      destruct name_free as [Hname Hsub]. exfalso.
      assert (name = "command" ∨ name = arg) as [?| ->]; [|done|].
      { destruct (String.eqb arg "command") eqn:E; simpl in H.
        - apply list_elem_of_singleton in H. by left.
        - apply elem_of_cons in H as [->|H]; [by left|].
          apply list_elem_of_singleton in H. by right. }
      apply Hsub, mem_keys. unfold Dict.mem. by rewrite Hcmd.
    + destruct (_ <=? _); [done|].
      destruct (positionals c !! positional_index) as [d|] eqn:Hd; [|done].
      apply bind_inv_ok in Htok as (r & w1 & Hr & [= <- _]).
      apply parse_arg_conforms in Hr as (pv & -> & Hpv). cbn [fst].
      apply (conforms_merge _ d pv);
        [left; by eapply list_elem_of_lookup_2|done..].
Qed.

Lemma _parse_loop_conforms argv_iter out positional_index w st w' :
  heap w !! self = Some c →
  _parse_loop parse self argv_iter out positional_index w = (Ok st, w') →
  (∀ v, Dict.get name out = Some v → conforms parser v) →
  ∀ v, Dict.get name st.1 = Some v → conforms parser v.
Proof.
  revert out positional_index w.
  induction argv_iter as [|[i arg] it IH]; intros out positional_index w Hc;
    cbn [_parse_loop].
  - by intros [= <- _].
  - intros H Hout. apply bind_inv_ok in H as (st1 & w1 & Htok & Hloop).
    eapply IH; [|exact Hloop|by eapply _parse_token_conforms].
    pose proof (framed__parse_token parse framed_rec self it out
                  positional_index i arg w) as (_ & Hh & _).
    rewrite Htok in Hh. simpl in Hh. by rewrite Hh.
Qed.

Lemma fill_defaults_conforms l out w out' w' :
  (∀ s dv, s ∈ l → arg_name s = name → arg_default s = Some dv →
           conforms parser dv) →
  fill_defaults l out w = (Ok out', w') →
  (∀ v, Dict.get name out = Some v → conforms parser v) →
  ∀ v, Dict.get name out' = Some v → conforms parser v.
Proof.
  revert out. induction l as [|s l IH]; intros out Hl; simpl.
  - by intros [= <- _].
  - assert (∀ s' dv, s' ∈ l → arg_name s' = name →
                     arg_default s' = Some dv → conforms parser dv) as Hl'.
    { intros s' dv Hs'. apply Hl. by right. }
    destruct (negb (arg_optional s) && negb (Dict.mem (arg_name s) out));
      [|by apply IH].
    destruct (arg_default s) as [d|] eqn:Ed; [|by destruct (arg_switches s)].
    intros H Hout. eapply IH; [done|exact H|].
    intros v. rewrite get_set.
    destruct (String.eqb name (arg_name s)) eqn:E; [|auto].
    apply String.eqb_eq in E. intros [= <-].
    apply (Hl s d); [by left|done..].
Qed.
End result_values.

(** X17.  The values of a result are of the kind their definitions name.  When
    every positional and switch called [name] has the spec [parser], with
    a default, if any, of that kind, and [name] is neither ["command"] nor
    the name of a subcommand, then the value that a result of [_parse] has
    under [name] is of the kind of [parser]: a string for ["str"], an
    integer for ["int"], a float for ["float"], a truth value for
    ["bool"], and one of the listed strings for a list. *)
Theorem result_values_conform fuel self argv_iter w c out w' name parser v :
  heap w !! self = Some c →
  name ≠ "command" →
  name ∉ Dict.keys (subcommands c) →
  (∀ d, d ∈ positionals c ∨ d ∈ Dict.values (switches c) →
        arg_name d = name →
        arg_parser d = parser ∧
        ∀ dv, arg_default d = Some dv → conforms parser dv) →
  _parse fuel self argv_iter w = (Ok out, w') →
  Dict.get name out = Some v →
  conforms parser v.
Proof.
  intros Hc Hname Hsub Hspec Hparse.
  destruct (_parse_inv _ _ _ _ _ _ _ Hc Hparse)
    as (out0 & pi & Hloop & _ & Hfill & _).
  revert v.
  eapply (fill_defaults_conforms name parser _ out0); [|exact Hfill|].
  - intros s dv Hs Hn Hd. by apply (Hspec s (or_intror Hs) Hn).
  - apply (_parse_loop_conforms (parse fuel) self c name parser
             (framed_parse fuel) (conj Hname Hsub)
             (fun d Hd Hn => proj1 (Hspec d Hd Hn))
             argv_iter [] 0 w (out0, pi) w' Hc Hloop).
    done.
Qed.

Lemma result_values_conform_witness :
  conforms (PStr "int") (VInt 3).
Proof.
  apply (result_values_conform 1 0 [(1, "alice"); (2, "--count=3")]
           (count_world false ["script.py"; "alice"; "--count=3"])
           (count_command false)
           [("name", VStr "alice"); ("count", VInt 3)]
           (count_world false ["script.py"; "alice"; "--count=3"])
           "count" (PStr "int") (VInt 3) eq_refl).
  - done.
  - by intros ?%elem_of_nil.
  - intros d [Hd|Hd]; apply list_elem_of_singleton in Hd; subst; [done|].
    intros _. split; [done|]. by intros dv [= <-].
  - reflexivity.
  - reflexivity.
Defined.

(** ** Layout *)

Lemma append_cons ch s1 s2 : String ch s1 +:+ s2 = String ch (s1 +:+ s2).
Proof. done. Qed.

Lemma append_assoc s1 s2 s3 : (s1 +:+ s2) +:+ s3 = s1 +:+ s2 +:+ s3.
Proof. induction s1 as [|ch s1 IH]; [done|]. by rewrite !append_cons, IH. Qed.

Lemma column_from_append col s1 s2 :
  column_from col (s1 +:+ s2) = column_from (column_from col s1) s2.
Proof.
  revert col. induction s1 as [|ch s1 IH]; intros col; [done|].
  rewrite append_cons. simpl. by destruct (Ascii.eqb ch _).
Qed.

Lemma column_from_spaces col n : column_from col (Py.spaces n) = col + n.
Proof.
  revert col. induction n as [|n IH]; intros col; simpl; [lia|].
  rewrite IH. lia.
Qed.

Lemma column_from_single_line col s :
  single_line s = true → column_from col s = col + String.length s.
Proof.
  revert col. induction s as [|ch s IH]; intros col; simpl; [lia|].
  destruct (Ascii.eqb ch _); [done|]. simpl. intros H. rewrite IH by done. lia.
Qed.

(** X18.  What follows a padded name begins in the same column whatever the
    length of the name: after [_pad s x indent], for [s] without a line
    break, the column is [indent + x], the name being followed by spaces
    when it is shorter than [x] and by a line break and spaces when it is
    not. *)
Theorem _pad_column s x indent :
  single_line s = true →
  column_from 0 (_pad s x indent) = indent + x.
Proof.
  intros Hs. unfold _pad.
  destruct (String.length s <? x) eqn:E.
  - apply Nat.ltb_lt in E.
    rewrite !column_from_append, !column_from_spaces,
      (column_from_single_line _ _ Hs).
    lia.
  - rewrite !column_from_append, !column_from_spaces. done.
Qed.

Lemma _pad_column_witness :
  column_from 0 (_pad "--verbose" 8 2) = 2 + 8.
Proof. apply (_pad_column "--verbose" 8 2). reflexivity. Defined.

(** ** The highlighted command line *)

Lemma join_cons sep x l :
  l ≠ [] → Py.join sep (x :: l) = x +:+ sep +:+ Py.join sep l.
Proof. by destruct l. Qed.

Lemma join_app sep l1 l2 :
  l1 ≠ [] → l2 ≠ [] →
  Py.join sep (l1 ++ l2) = Py.join sep l1 +:+ sep +:+ Py.join sep l2.
Proof.
  intros H1 H2. induction l1 as [|x l1 IH]; [done|].
  destruct l1 as [|y l1].
  - simpl app. by rewrite join_cons.
  - rewrite <- app_comm_cons, join_cons by done.
    rewrite IH by done. rewrite (join_cons sep x (y :: l1)) by done.
    by rewrite !append_assoc.
Qed.

(** X19.  For a token with an argument before it and a token after it,
    [_highlight_incorrect] gives the command line as it was typed, joined
    by single spaces, with that token in red. *)
Theorem highlight_incorrect_marks_token argv i tok w :
  1 < i →
  i + 1 < length argv →
  argv !! i = Some tok →
  _highlight_incorrect argv i w
  = (Ok (Py.join " " (<[i := _red tok]> argv)), w).
Proof.
  intros Hi Hlen Htok. unfold _highlight_incorrect.
  destruct argv as [|binary rest]; [simpl in Hlen; lia|].
  destruct i as [|i]; [lia|].
  simpl in Hlen.
  change ((binary :: rest) !! 0) with (Some binary). cbv beta iota zeta.
  rewrite Htok.
  replace (S i - 1) with i by lia. replace (S i + 1) with (S (S i)) by lia.
  cbn [drop insert list_insert]. unfold ret. do 2 f_equal.
  assert (take i rest ≠ []) as Htake.
  { destruct rest; [simpl in Hlen; lia|]. destruct i; [lia|done]. }
  assert (drop (S i) rest ≠ []) as Hdrop.
  { intros H. apply (f_equal length) in H.
    rewrite length_drop in H. simpl in H. lia. }
  rewrite (insert_take_drop rest i) by lia.
  change (drop 0 rest) with rest.
  rewrite (join_cons " " binary (take i rest ++ _red tok :: drop (S i) rest))
    by by destruct (take i rest).
  rewrite join_app by done.
  by rewrite (join_cons " " (_red tok) (drop (S i) rest)) by done.
Qed.

Lemma highlight_incorrect_marks_token_witness :
  _highlight_incorrect ["script.py"; "alice"; "--y=2"; "run"] 2
    (boot ["script.py"; "alice"; "--y=2"; "run"])
  = (Ok (Py.join " " (<[2 := _red "--y=2"]>
                        ["script.py"; "alice"; "--y=2"; "run"])),
     boot ["script.py"; "alice"; "--y=2"; "run"]).
Proof.
  apply (highlight_incorrect_marks_token
           ["script.py"; "alice"; "--y=2"; "run"] 2 "--y=2").
  - lia.
  - simpl. lia.
  - reflexivity.
Defined.

(** ** What a returning run prints *)

Lemma silent_bind {A B} (m : M A) (k : A → M B) :
  silent m → (∀ a, silent (k a)) → silent (bind m k).
Proof.
  intros Hm Hk w b w2 H. apply bind_inv_ok in H as (a & w1 & H1 & H2).
  rewrite (Hk _ _ _ _ H2). by eapply Hm.
Qed.

Lemma silent_diverted {A} (m : M A) : diverted m → silent m.
Proof. intros H w a w' Hm. by destruct (H w a w'). Qed.

Lemma diverted_bind_r {A B} (m : M A) (k : A → M B) :
  (∀ a, diverted (k a)) → diverted (bind m k).
Proof.
  intros Hk w b w2 H. apply bind_inv_ok in H as (a & w1 & _ & H2).
  by destruct (Hk a w1 b w2).
Qed.

Lemma diverted_raise {A} e : diverted (@raise A e).
Proof. by intros w a w'. Qed.

Lemma silent_for {A} (l : list A) body :
  (∀ x, silent (body x)) → silent (for_ l body).
Proof.
  intros H. induction l as [|x l IH]; simpl.
  - by intros w a w' [= _ <-].
  - apply silent_bind; auto.
Qed.

Lemma silent_try_except {A} (m : M A) handler :
  silent m → (∀ e, diverted (handler e)) → silent (try_except m handler).
Proof.
  intros Hm Hh w a w'. unfold try_except.
  destruct (m w) as [[x|[e| | | | | | | |]|] w1] eqn:E; try done.
  - intros [= <- <-]. by eapply Hm.
  - intros H. by destruct (Hh e w1 a w').
Qed.

(** Splits a statement into parts that print nothing when they return. *)
Ltac silent :=
  repeat first
    [ progress eauto
    | apply silent_bind; [|intros ?]
    | apply silent_for; intros ?
    | match goal with
      | |- silent (if ?b then _ else _) => destruct b
      | |- silent (match ?x with _ => _ end) => destruct x
      | |- silent (ret _) => by intros ? ? ? [= _ <-]
      | |- silent (raise _) => by intros ? ? ?
      | |- silent (sys_exit _) => by intros ? ? ?
      | |- silent out_of_fuel => by intros ? ? ?
      | |- silent get_argv => by intros ? ? ? [= _ <-]
      | |- silent (load ?l) =>
          let w := fresh in
          intros w ? ?; unfold load; destruct (heap w !! l);
          by intros [= _ <-]
      | |- silent (call ?f ?i ?arg ?val) =>
          intros ? ? ?; unfold call; destruct (f i arg val);
          by intros [= _ <-]
      end ].

Lemma silent_parse_arg i arg val argdef : silent (parse_arg i arg val argdef).
Proof. unfold parse_arg. silent. Qed.

Lemma silent_fill_defaults l out : silent (fill_defaults l out).
Proof. revert out. induction l as [|s l IH]; intros out; simpl; silent. Qed.

Section silent__parse.
Variable parse : loc → binary_arg → M (list (string * value)).
Hypothesis silent_rec : ∀ cmd binary, silent (parse cmd binary).

Lemma silent__parse_token self argv_iter out positional_index i arg :
  silent (_parse_token parse self argv_iter out positional_index i arg).
Proof. pose proof silent_parse_arg. unfold _parse_token. silent. Qed.

Lemma silent__parse_loop self argv_iter out positional_index :
  silent (_parse_loop parse self argv_iter out positional_index).
Proof.
  revert out positional_index.
  induction argv_iter as [|[i arg] it IH]; intros; cbn [_parse_loop];
    [silent|].
  apply silent_bind; [apply silent__parse_token|auto].
Qed.

Lemma silent__parse_body self argv_iter :
  silent (_parse_body parse self argv_iter).
Proof.
  pose proof silent__parse_loop. pose proof silent_fill_defaults.
  unfold _parse_body, check_positionals, check_subcommands. silent.
Qed.
End silent__parse.

Lemma silent_parse fuel self binary : silent (parse fuel self binary).
Proof.
  revert self binary. induction fuel as [|fuel IH]; intros self binary;
    [by intros ? ? ?|].
  simpl. unfold parse_body.
  apply silent_bind; [silent|]. intros argv.
  assert (∀ (m : M unit) code,
            silent (m ;; @sys_exit (list (string * value)) code)) as Hexit.
  { intros m code. apply silent_diverted, diverted_bind_r.
    intros _. apply diverted_raise. }
  destruct (Py.enumerate argv) as [|[? b] argv_iter].
  - destruct binary as [[|? [|? [|]]]|[|? [|? [|]]]]; try (by intros ? ? ?);
      apply Hexit.
  - destruct (_ || _); [apply Hexit|].
    apply silent_try_except; [by apply silent__parse_body|].
    intros e. repeat (apply diverted_bind_r; intros ?).
    apply diverted_raise.
Qed.

(** X20.  A result is returned silently.  When [parse] returns, nothing
    has been printed, and the [Command]s and [sys.argv] are as they were:
    the usage and the error report are printed only on the way to an
    exit.  The same holds of [_parse].  (A callable spec is a function of
    its three arguments here: it prints nothing itself.) *)
Theorem parse_returns_silently fuel self binary argv_iter w out w' :
  parse fuel self binary w = (Ok out, w') ∨
  _parse fuel self argv_iter w = (Ok out, w') →
  stdout w' = stdout w ∧ heap w' = heap w ∧ sys_argv w' = sys_argv w.
Proof.
  intros [H|H].
  - split; [by eapply silent_parse|].
    pose proof (framed_parse fuel self binary w) as (Ha & Hh & _).
    rewrite H in Ha, Hh. done.
  - split; [by eapply (silent__parse_body (parse fuel) (silent_parse fuel))|].
    pose proof (framed__parse fuel self argv_iter w) as (Ha & Hh & _).
    rewrite H in Ha, Hh. done.
Qed.

Lemma parse_returns_silently_witness :
  stdout (count_world false ["script.py"; "alice"])
  = stdout (count_world false ["script.py"; "alice"]) ∧
  heap (count_world false ["script.py"; "alice"])
  = heap (count_world false ["script.py"; "alice"]) ∧
  sys_argv (count_world false ["script.py"; "alice"])
  = sys_argv (count_world false ["script.py"; "alice"]).
Proof.
  apply (parse_returns_silently 1 0 (BinStr "script.py") []
           (count_world false ["script.py"; "alice"])
           [("name", VStr "alice"); ("count", VInt 5)]
           (count_world false ["script.py"; "alice"])).
  left. reflexivity.
Defined.
